(** * Readily: a verification development for the policy-analysis front end

  The development embeds the React components of the repository
  (FolderContents.js, QuestionnairePanel.js, MainLayout.js,
  PolicyPanel.js), the script switch-env.sh and the API
  service layer as pure state-passing functions and step relations, and
  states the properties of the answering pipeline over them.  The FastAPI
  backend is not part of the sources at hand; the parts of the answering
  core that live there are modelled from the specification and are marked
  as such. *)

From Stdlib Require Import Ascii QArith Qminmax Qround.
From stdpp Require Import gmap strings list fin_maps sorting.

(** ** JavaScript strings

  A JavaScript string is a sequence of code units.  File names are kept as
  [list ascii] so that [split], [pop] and [replace] read as list
  programs; identifiers that are only compared and used as keys stay
  [string]. *)

Module JsString.

Abbreviation str := (list ascii).

Definition dot : ascii := "."%char.

(** [s.startsWith(p)] *)
Fixpoint starts_with (p s : str) : bool :=
  match p, s with
  | [], _ => true
  | _ :: _, [] => false
  | a :: p', b :: s' => if decide (a = b) then starts_with p' s' else false
  end.

(** [s.split(sep)] for a one-character separator: the pieces between the
    separators, never an empty array. *)
Fixpoint split (sep : ascii) (s : str) : list str :=
  match s with
  | [] => [[]]
  | c :: s' =>
      if decide (c = sep) then [] :: split sep s'
      else match split sep s' with
           | [] => [[c]]
           | piece :: rest => (c :: piece) :: rest
           end
  end.

(** [arr.pop()]: the last element, [undefined] on the empty array. *)
Definition pop {A} (l : list A) : option A := last l.

(** [s.replace(pat, rep)] with a string pattern: only the first
    occurrence of [pat] is replaced; the empty pattern matches at index
    0.  ([rep] is used verbatim: the source passes the empty string, which
    holds no [$] pattern.) *)
Fixpoint replace (pat rep s : str) : str :=
  if starts_with pat s then rep ++ drop (length pat) s
  else match s with
       | [] => []
       | c :: s' => c :: replace pat rep s'
       end.

(** Number of occurrences of a code unit. *)
Definition count (c : ascii) (s : str) : nat :=
  length (filter (λ x, x = c) s).

(** A string literal as a sequence of code units. *)
Definition s2l (s : string) : str := String.list_ascii_of_string s.

End JsString.

(** ** FolderContents.js: the title sent with an upload *)

Module UploadTitle.
Import JsString.

(** [file.name.split('.').pop()] *)
Definition fileExtension (name : str) : str :=
  default [] (pop (split dot name)).

(** [file.name.replace(`.${fileExtension}`, '')] *)
Definition title (name : str) : str :=
  replace (dot :: fileExtension name) [] name.

End UploadTitle.

(** ** MainLayout.js: the resizable split between the two panels

  Widths are percentages.  A JavaScript number is given by its value, a
  rational, or is one of the three special values: the handler divides
  by the width of the container, which in JavaScript gives an infinity or
  [NaN] when the width is zero.  The arithmetic rounds its results to
  doubles; [Math.min] and [Math.max] return one of their arguments. *)

Module MainLayout.
Local Open Scope Q_scope.

(** A JavaScript number: a finite double, given by its value, an
    infinity, or NaN. *)
Inductive Num :=
| Fin (q : Q)
| PosInf
| NegInf
| NaN.

Definition numLe (x y : Num) : Prop :=
  match x, y with
  | NaN, _ | _, NaN => False
  | NegInf, _ | _, PosInf => True
  | Fin p, Fin q => p <= q
  | _, _ => False
  end.

(** Arithmetic on numbers is in IEEE doubles: the exact result of an
    operation on finite operands is rounded to a double, or to an
    infinity when it overflows.  The rounding belongs to the runtime, not
    to the sources; it is a parameter, known to give a number, to keep
    the order, and to leave 20 and 80, which are doubles, as they are. *)
Record Rounding := {
  fl : Q → Num;
  fl_number : ∀ q, fl q ≠ NaN;
  fl_monotone : ∀ p q, p <= q → numLe (fl p) (fl q);
  fl_20 : fl 20 = Fin 20;
  fl_80 : fl 80 = Fin 80
}.

(** [a - b] for finite [a] and [b]. *)
Definition minus (R : Rounding) (a b : Q) : Num := fl R (a - b).

(** [a / b] for a finite [b]; a width of zero is [+0]. *)
Definition divide (R : Rounding) (a : Num) (b : Q) : Num :=
  match a with
  | Fin q =>
      if Qeq_bool b 0
      then match q ?= 0 with
           | Gt => PosInf
           | Lt => NegInf
           | Eq => NaN
           end
      else fl R (q / b)
  | PosInf => if Qle_bool 0 b then PosInf else NegInf
  | NegInf => if Qle_bool 0 b then NegInf else PosInf
  | NaN => NaN
  end.

(** [x * c] for a finite positive [c]. *)
Definition times (R : Rounding) (x : Num) (c : Q) : Num :=
  match x with
  | Fin q => fl R (q * c)
  | other => other
  end.

(** [Math.max(x, c)] and [Math.min(x, c)] for a finite [c]: one of the
    two arguments, or [NaN] if [x] is [NaN]. *)
Definition mathMax (x : Num) (c : Q) : Num :=
  match x with
  | Fin q => Fin (Qmax q c)
  | PosInf => PosInf
  | NegInf => Fin c
  | NaN => NaN
  end.

Definition mathMin (x : Num) (c : Q) : Num :=
  match x with
  | Fin q => Fin (Qmin q c)
  | PosInf => Fin c
  | NegInf => NegInf
  | NaN => NaN
  end.

(** What [getBoundingClientRect()] returns for the container. *)
Record DOMRect := { rect_left : Q; rect_width : Q }.

(** [leftWidth] and [isResizing] are the [useState] cells; [frames] holds
    the [clientX] captured by each callback handed to
    [requestAnimationFrame] and not run yet. *)
Record State := {
  leftWidth : Num;
  isResizing : bool;
  frames : list Q
}.

Definition initial : State :=
  {| leftWidth := Fin 50; isResizing := false; frames := [] |}.

Definition handleMouseDown (s : State) : State :=
  {| leftWidth := leftWidth s; isResizing := true; frames := frames s |}.

(** [if (!isResizing || !containerRef.current) return;] then the
    callback is queued.  The container is mounted for as long as the
    layout is. *)
Definition handleMouseMove (clientX : Q) (s : State) : State :=
  if isResizing s
  then {| leftWidth := leftWidth s; isResizing := true;
          frames := frames s ++ [clientX] |}
  else s.

(** [((e.clientX - containerRect.left) / containerRect.width) * 100] *)
Definition newLeftWidth (R : Rounding) (clientX : Q) (r : DOMRect) : Num :=
  times R (divide R (minus R clientX (rect_left r)) (rect_width r)) 100.

(** [Math.min(Math.max(newLeftWidth, 20), 80)] *)
Definition constrainedWidth (w : Num) : Num := mathMin (mathMax w 20) 80.

(** The browser runs the oldest queued callback, which reads the
    container rectangle at that moment. *)
Definition animationFrame (R : Rounding) (r : DOMRect) (s : State) : State :=
  match frames s with
  | [] => s
  | clientX :: rest =>
      {| leftWidth := constrainedWidth (newLeftWidth R clientX r);
         isResizing := isResizing s; frames := rest |}
  end.

Definition handleMouseUp (s : State) : State :=
  {| leftWidth := leftWidth s; isResizing := false; frames := frames s |}.

Definition handleDoubleClick (s : State) : State :=
  {| leftWidth := Fin 50; isResizing := isResizing s; frames := frames s |}.

Inductive Event :=
| MouseDown
| MouseMove (clientX : Q)
| AnimationFrame (r : DOMRect)
| MouseUp
| DoubleClick.

Definition step (R : Rounding) (s : State) (e : Event) : State :=
  match e with
  | MouseDown => handleMouseDown s
  | MouseMove x => handleMouseMove x s
  | AnimationFrame r => animationFrame R r s
  | MouseUp => handleMouseUp s
  | DoubleClick => handleDoubleClick s
  end.

Definition run (R : Rounding) (evs : list Event) : State :=
  fold_left (step R) evs initial.

(** The events of a layout on screen: the container, [100vw] wide, has a
    positive width whenever a frame reads it. *)
Definition wf_event (e : Event) : Prop :=
  match e with
  | AnimationFrame r => 0 < rect_width r
  | _ => True
  end.

(** The split invariant: a number from 20 to 80. *)
Definition inRange (x : Num) : Prop :=
  match x with
  | Fin q => 20 <= q ∧ q <= 80
  | _ => False
  end.

(** The rounding that changes nothing.  It serves the samples below:
    where they stop, at a bound or at [NaN], does not depend on how the
    quotient is rounded. *)
Definition exact : Rounding.
Proof.
  refine {| fl := Fin |}.
  - intros q. discriminate.
  - intros p q H. exact H.
  - reflexivity.
  - reflexivity.
Defined.

(** A drag past the right edge and then past the left edge of a
    1920 pixel wide container. *)
Definition drag_far_right : list Event :=
  [MouseDown; MouseMove 1900;
   AnimationFrame {| rect_left := 0; rect_width := 1920 |};
   MouseMove (-5);
   AnimationFrame {| rect_left := 0; rect_width := 1920 |};
   MouseUp].

End MainLayout.

(** ** FolderContents.js: refreshing a folder and uploading into it *)

Module FolderContents.
Import JsString.

Record Folder := { folder_id : string; folder_name : string }.
Record Doc := { doc_id : string; doc_title : string }.
Record File := { file_name : str }.

(** The identifier [`upload_${Date.now()}_${index}`] of a queue item,
    kept as the pair it prints: the clock reading and the index. *)
Record ItemId := { stamp : Z; index : nat }.

#[global] Instance ItemId_eq_dec : EqDecision ItemId.
Proof. solve_decision. Defined.

Record QueueItem := {
  item_id : ItemId;
  item_file : File;
  item_status : string;
  item_progress : nat;
  item_error : option string
}.

(** The [useState] cells of the component that the handlers below touch. *)
Record State := {
  documents : list Doc;
  loading : bool;
  uploading : bool;
  documentStatuses : gmap string string;
  statusCheckInProgress : gset string;
  lastRefreshTime : Z;
  uploadQueue : list QueueItem;
  currentUpload : option QueueItem
}.

Definition initial : State :=
  {| documents := []; loading := false; uploading := false;
     documentStatuses := ∅; statusCheckInProgress := ∅;
     lastRefreshTime := 0; uploadQueue := []; currentUpload := None |}.

Definition setDocuments (d : list Doc) (s : State) : State :=
  {| documents := d; loading := loading s; uploading := uploading s;
     documentStatuses := documentStatuses s;
     statusCheckInProgress := statusCheckInProgress s;
     lastRefreshTime := lastRefreshTime s; uploadQueue := uploadQueue s;
     currentUpload := currentUpload s |}.

Definition setLoading (b : bool) (s : State) : State :=
  {| documents := documents s; loading := b; uploading := uploading s;
     documentStatuses := documentStatuses s;
     statusCheckInProgress := statusCheckInProgress s;
     lastRefreshTime := lastRefreshTime s; uploadQueue := uploadQueue s;
     currentUpload := currentUpload s |}.

Definition setUploading (b : bool) (s : State) : State :=
  {| documents := documents s; loading := loading s; uploading := b;
     documentStatuses := documentStatuses s;
     statusCheckInProgress := statusCheckInProgress s;
     lastRefreshTime := lastRefreshTime s; uploadQueue := uploadQueue s;
     currentUpload := currentUpload s |}.

Definition setDocumentStatuses (f : gmap string string → gmap string string)
    (s : State) : State :=
  {| documents := documents s; loading := loading s; uploading := uploading s;
     documentStatuses := f (documentStatuses s);
     statusCheckInProgress := statusCheckInProgress s;
     lastRefreshTime := lastRefreshTime s; uploadQueue := uploadQueue s;
     currentUpload := currentUpload s |}.

Definition setStatusCheckInProgress (f : gset string → gset string)
    (s : State) : State :=
  {| documents := documents s; loading := loading s; uploading := uploading s;
     documentStatuses := documentStatuses s;
     statusCheckInProgress := f (statusCheckInProgress s);
     lastRefreshTime := lastRefreshTime s; uploadQueue := uploadQueue s;
     currentUpload := currentUpload s |}.

Definition setLastRefreshTime (t : Z) (s : State) : State :=
  {| documents := documents s; loading := loading s; uploading := uploading s;
     documentStatuses := documentStatuses s;
     statusCheckInProgress := statusCheckInProgress s;
     lastRefreshTime := t; uploadQueue := uploadQueue s;
     currentUpload := currentUpload s |}.

Definition setUploadQueue (f : list QueueItem → list QueueItem)
    (s : State) : State :=
  {| documents := documents s; loading := loading s; uploading := uploading s;
     documentStatuses := documentStatuses s;
     statusCheckInProgress := statusCheckInProgress s;
     lastRefreshTime := lastRefreshTime s; uploadQueue := f (uploadQueue s);
     currentUpload := currentUpload s |}.

Definition setCurrentUpload (c : option QueueItem) (s : State) : State :=
  {| documents := documents s; loading := loading s; uploading := uploading s;
     documentStatuses := documentStatuses s;
     statusCheckInProgress := statusCheckInProgress s;
     lastRefreshTime := lastRefreshTime s; uploadQueue := uploadQueue s;
     currentUpload := c |}.

(** *** Requests and what comes back *)

Inductive Request :=
| GetDocuments (folder : string)
| GetStatus (doc : string)
| PostDocument (folder : string) (title : str).

(** The answer to [GET .../folders/{id}/documents]: the request is
    rejected, or the response is not [ok], or the body is [data]
    ([None] for a [null] body). *)
Inductive DocumentsResponse :=
| DocsRejected
| DocsNotOk
| DocsOk (data : option (list Doc)).

Definition is_GetDocuments (r : Request) : bool :=
  match r with GetDocuments _ => true | _ => false end.

(** *** checkDocumentStatus, up to its [await] *)
Definition checkDocumentStatus (seen : gset string) (docId : string)
    (s : State) : State * list Request :=
  if decide (docId ∈ seen) then (s, [])
  else (setStatusCheckInProgress (λ prev, prev ∪ {[docId]}) s,
        [GetStatus docId]).

(** ... and from the response on: [status] is [Some] for an [ok]
    response. *)
Definition checkDocumentStatus_resume (docId : string)
    (status : option string) (s : State) : State :=
  let s1 := match status with
            | Some st => setDocumentStatuses (λ prev, <[docId := st]> prev) s
            | None => s
            end in
  setStatusCheckInProgress (λ prev, prev ∖ {[docId]}) s1.

(** The loop [for (const doc of data || [])] of handleRefresh.  [seen]
    is the set the handler closed over. *)
Fixpoint checkAll (seen : gset string) (docs : list Doc) (s : State)
    : State * list Request :=
  match docs with
  | [] => (s, [])
  | d :: rest =>
      let '(s1, r1) :=
        if decide (doc_id d ∈ seen) then (s, [])
        else checkDocumentStatus seen (doc_id d) s in
      let '(s2, r2) := checkAll seen rest s1 in
      (s2, r1 ++ r2)
  end.

(** *** handleRefresh

    [now] is [Date.now()], [resp] what the document request returns.  The
    result is the state once the handler has finished, with the requests
    it sent; the status checks it started are still in flight. *)
Definition handleRefresh (folder : option Folder) (now : Z)
    (resp : DocumentsResponse) (s : State) : State * list Request :=
  if decide (now - lastRefreshTime s < 1000)%Z then (s, [])
  else
    let s1 := setLastRefreshTime now s in
    match folder with
    | None => (s1, [])
    | Some f =>
        let s2 := setLoading true s1 in
        let req := GetDocuments (folder_id f) in
        match resp with
        | DocsOk (Some data) =>
            let s3 := setDocuments data s2 in
            let '(s4, checks) := checkAll (statusCheckInProgress s) data s3 in
            (setLoading false s4, req :: checks)
        | DocsOk None =>
            (* [setDocuments(data || [])], then [data.length] throws *)
            (setLoading false (setDocuments [] (setDocuments [] s2)), [req])
        | DocsNotOk | DocsRejected =>
            (setLoading false (setDocuments [] s2), [req])
        end
    end.

(** *** loadDocuments *)
Definition loadDocuments (folder : option Folder) (resp : DocumentsResponse)
    (s : State) : State * list Request :=
  match folder with
  | None => (s, [])
  | Some f =>
      let s1 := setLoading true s in
      let req := GetDocuments (folder_id f) in
      match resp with
      | DocsOk (Some data) => (setLoading false (setDocuments data s1), [req])
      | DocsOk None =>
          (* [setDocuments(data || [])], then [data.length] throws *)
          (setLoading false (setDocuments [] (setDocuments [] s1)), [req])
      | DocsNotOk | DocsRejected =>
          (setLoading false (setDocuments [] s1), [req])
      end
  end.

(** Two refreshes in a row, the second seeing the state the first left. *)
Definition refreshTwice (folder : option Folder) (t1 t2 : Z)
    (r1 r2 : DocumentsResponse) (s : State)
    : State * State * list Request * list Request :=
  let '(s1, q1) := handleRefresh folder t1 r1 s in
  let '(s2, q2) := handleRefresh folder t2 r2 s1 in
  (s1, s2, q1, q2).

Definition fetches (q : list Request) : nat :=
  length (filter (λ r, is_GetDocuments r = true) q).

End FolderContents.

(** Sample data for the refresh handler. *)
Module RefreshExamples.
Import FolderContents.

Definition policies : Folder :=
  {| folder_id := "healthcare"; folder_name := "Healthcare" |}.
Definition handbook : Doc :=
  {| doc_id := "d1"; doc_title := "Handbook" |}.

(** A refresh at 5000 ms and another 400 ms later. *)
Definition refresh_example :=
  refreshTwice (Some policies) 5000 5400
    (DocsOk (Some [handbook])) (DocsOk (Some [])) initial.

(** The last accepted refresh was at 1000000; calls at 1000999 and at
    1001500. *)
Definition refresh_after_suppressed :=
  refreshTwice (Some policies) 1000999 1001500
    (DocsOk (Some [handbook])) (DocsOk (Some [handbook]))
    (setLastRefreshTime 1000000 initial).
End RefreshExamples.

(** ** FolderContents.js: the upload queue

  An [async] handler runs in pieces: from one [await] to the next nothing
  else runs, and at an [await] any other handler may run.  A handler is
  therefore written as the list of the state updates it performs, in
  program order, with [Await] where it suspends. *)

Module UploadQueue.
Import JsString FolderContents.

Inductive Action :=
| SetUploadQueue (q : list QueueItem)
| SetUploading (b : bool)
| SetCurrentUpload (c : option QueueItem)
| MarkUploading (id : ItemId)
| MarkCompleted (id : ItemId)
| MarkError (id : ItemId) (msg : string)
| SetLoading (b : bool)
| SetDocuments (d : list Doc)
| Send (r : Request)
| Await.

Definition withStatus (st : string) (progress : nat) (err : option string)
    (item : QueueItem) : QueueItem :=
  {| item_id := item_id item; item_file := item_file item;
     item_status := st; item_progress := progress; item_error := err |}.

(** [prev.map(item => item.id === id ? {...item, ...} : item)] *)
Definition updateItem (id : ItemId) (f : QueueItem → QueueItem)
    (q : list QueueItem) : list QueueItem :=
  (λ item, if decide (item_id item = id) then f item else item) <$> q.

Definition apply (a : Action) (s : State) : State :=
  match a with
  | SetUploadQueue q => setUploadQueue (λ _, q) s
  | SetUploading b => setUploading b s
  | SetCurrentUpload c => setCurrentUpload c s
  | MarkUploading id =>
      setUploadQueue
        (updateItem id (λ it, withStatus "uploading" (item_progress it)
                                (item_error it) it)) s
  | MarkCompleted id =>
      setUploadQueue
        (updateItem id (λ it, withStatus "completed" 100 (item_error it) it)) s
  | MarkError id msg =>
      setUploadQueue
        (updateItem id (λ it, withStatus "error" (item_progress it)
                                (Some msg) it)) s
  | SetLoading b => setLoading b s
  | SetDocuments d => setDocuments d s
  | Send _ | Await => s
  end.

Definition run (acts : list Action) (s : State) : State :=
  fold_left (λ s a, apply a s) acts s.

(** The value of [uploadQueue] after each action. *)
Fixpoint trace (acts : list Action) (s : State) : list (list QueueItem) :=
  match acts with
  | [] => []
  | a :: rest => uploadQueue (apply a s) :: trace rest (apply a s)
  end.

(** [files.map((file, index) => ({ id, file, status: 'pending', ... }))],
    from index [i] on; [clock i] is the reading of [Date.now()] taken for
    element [i]. *)
Fixpoint enqueue (clock : nat → Z) (i : nat) (files : list File)
    : list QueueItem :=
  match files with
  | [] => []
  | f :: rest =>
      {| item_id := {| stamp := clock i; index := i |}; item_file := f;
         item_status := "pending"; item_progress := 0; item_error := None |}
      :: enqueue clock (S i) rest
  end.

(** uploadSingleFile: the form data carries the title computed from the
    file name. *)
Definition uploadSingleFile (f : Folder) (file : File) : Request :=
  PostDocument (folder_id f) (UploadTitle.title (file_name file)).

(** One turn of the [for] loop.  [outcome i] is [None] when the upload of
    item [i] succeeds and [Some msg] when it throws an error with that
    message. *)
Definition uploadOne (f : Folder) (outcome : nat → option string)
    (item : QueueItem) : list Action :=
  [SetCurrentUpload (Some item);
   MarkUploading (item_id item);
   Send (uploadSingleFile f (item_file item));
   Await;
   match outcome (index (item_id item)) with
   | None => MarkCompleted (item_id item)
   | Some msg => MarkError (item_id item) msg
   end;
   Await].

(** [await loadDocuments()] *)
Definition reloadDocuments (f : Folder) (resp : DocumentsResponse)
    : list Action :=
  [SetLoading true; Send (GetDocuments (folder_id f)); Await]
  ++ match resp with
     | DocsOk (Some data) => [SetDocuments data]
     | DocsOk None => [SetDocuments []; SetDocuments []]
     | DocsNotOk | DocsRejected => [SetDocuments []]
     end
  ++ [SetLoading false].

(** uploadMultipleFiles up to the point where it arms the timer ... *)
Definition uploadBody (f : Folder) (clock : nat → Z)
    (outcome : nat → option string) (resp : DocumentsResponse)
    (files : list File) : list Action :=
  let queue := enqueue clock 0 files in
  [SetUploadQueue queue; SetUploading true]
  ++ (queue ≫= uploadOne f outcome)
  ++ reloadDocuments f resp.

(** ... and the callback of [setTimeout(..., 2000)]. *)
Definition uploadCleanup : list Action :=
  [Await; SetUploadQueue []; SetCurrentUpload None; SetUploading false].

Definition uploadMultipleFiles (folder : option Folder) (clock : nat → Z)
    (outcome : nat → option string) (resp : DocumentsResponse)
    (files : list File) : list Action :=
  match folder with
  | None => []
  | Some f => uploadBody f clock outcome resp files ++ uploadCleanup
  end.

(** *** Two handlers at once *)

(** The piece of a handler up to and including its next [Await], and
    what is left. *)
Fixpoint nextPiece (acts : list Action) : list Action * list Action :=
  match acts with
  | [] => ([], [])
  | Await :: rest => ([Await], rest)
  | a :: rest => let '(p, r) := nextPiece rest in (a :: p, r)
  end.

(** A schedule says which of two handlers runs its next piece ([true] for
    the first); when the schedule ends, the first handler runs to its end
    and then the second. *)
Fixpoint interleave (sched : list bool) (h1 h2 : list Action)
    : list Action :=
  match sched with
  | [] => h1 ++ h2
  | true :: sched' =>
      let '(p, r) := nextPiece h1 in p ++ interleave sched' r h2
  | false :: sched' =>
      let '(p, r) := nextPiece h2 in p ++ interleave sched' h1 r
  end.

(** *** The life of a queue item *)

Definition observable (st : string) : Prop :=
  st = "pending" ∨ st = "uploading" ∨ st = "completed" ∨ st = "error".

Definition terminal (st : string) : Prop :=
  st = "completed" ∨ st = "error".

(** What one update may do to the status of an item. *)
Definition advances (st st' : string) : Prop :=
  st' = st
  ∨ (st = "pending" ∧ st' = "uploading")
  ∨ (st = "uploading" ∧ terminal st').

Definition sameItem (a b : QueueItem) : Prop :=
  item_id a = item_id b ∧ item_file a = item_file b ∧
  advances (item_status a) (item_status b).

(** The status item [i] has after [p] of the [Mark...] updates of a run:
    items are taken in order, two updates each. *)
Definition statusAfter (outcome : nat → option string) (p i : nat) : string :=
  if decide (p ≤ 2 * i) then "pending"
  else if decide (p = 2 * i + 1) then "uploading"
  else match outcome i with None => "completed" | Some _ => "error" end.

Definition itemAfter (outcome : nat → option string) (p : nat)
    (item : QueueItem) : QueueItem :=
  let i := index (item_id item) in
  if decide (p ≤ 2 * i) then item
  else if decide (p = 2 * i + 1)
       then withStatus "uploading" (item_progress item) (item_error item) item
  else match outcome i with
       | None => withStatus "completed" 100 (item_error item) item
       | Some msg => withStatus "error" (item_progress item) (Some msg) item
       end.

(** The queue a run shows after [p] of its [Mark...] updates. *)
Definition queueAfter (outcome : nat → option string) (queue : list QueueItem)
    (p : nat) : list QueueItem :=
  itemAfter outcome p <$> queue.

(** [Progress shown p T p']: the snapshots [T] show the queue moving from
    [p] updates to [p'] updates, at most one update at a time. *)
Inductive Progress (shown : nat → list QueueItem)
    : nat → list (list QueueItem) → nat → Prop :=
| Progress_nil p : Progress shown p [] p
| Progress_stay p T p' :
    Progress shown p T p' → Progress shown p (shown p :: T) p'
| Progress_step p T p' :
    Progress shown (S p) T p' → Progress shown p (shown (S p) :: T) p'.

(** An action that leaves [uploadQueue] alone. *)
Definition neutral (a : Action) : Prop :=
  match a with
  | SetUploadQueue _ | MarkUploading _ | MarkCompleted _ | MarkError _ _ => False
  | _ => True
  end.

(** Identifiers as [enqueue] makes them. *)
Definition stamped (clock : nat → Z) (item : QueueItem) : Prop :=
  stamp (item_id item) = clock (index (item_id item)).

End UploadQueue.

(** Two selections of files made one after the other in the same folder:
  the second while the first file of the first is still being sent (the
  click handler sits on the upload area, which stays active while the
  button inside it is disabled). *)
Module UploadExamples.
Import JsString FolderContents UploadQueue RefreshExamples.

Definition file_a : File := {| file_name := s2l "a.pdf" |}.
Definition file_b : File := {| file_name := s2l "b.pdf" |}.
Definition file_c : File := {| file_name := s2l "c.docx" |}.

Definition firstRun : list Action :=
  uploadMultipleFiles (Some policies) (λ _, 1000%Z) (λ _, None)
    (DocsOk (Some [])) [file_a; file_b].

Definition secondRun : list Action :=
  uploadMultipleFiles (Some policies) (λ _, 1300%Z) (λ _, None)
    (DocsOk (Some [])) [file_c].

(** The first run goes up to its first [await]; the second run then
    starts; after that the first run goes on to its end, timer included,
    while the second still waits for its upload. *)
Definition overlapped : list Action :=
  interleave ([true; false] ++ replicate 7 true) firstRun secondRun.

Definition item_b_id : ItemId := {| stamp := 1000; index := 1 |}.
Definition item_c_id : ItemId := {| stamp := 1300; index := 0 |}.

Definition shows (id : ItemId) (st : string) (q : list QueueItem) : Prop :=
  ∃ it, it ∈ q ∧ item_id it = id ∧ item_status it = st.

Definition absent (id : ItemId) (q : list QueueItem) : Prop :=
  Forall (λ it, item_id it ≠ id) q.
End UploadExamples.

(** ** QuestionnairePanel.js: answering one question *)

Module JsObject.

(** The property names every object inherits from [Object.prototype]:
    eleven functions and the accessor [__proto__]. *)
Definition objectPrototype : list string :=
  ["constructor"; "__defineGetter__"; "__defineSetter__"; "hasOwnProperty";
   "__lookupGetter__"; "__lookupSetter__"; "isPrototypeOf";
   "propertyIsEnumerable"; "toString"; "valueOf"; "__proto__";
   "toLocaleString"].

Definition inherited (k : string) : bool := bool_decide (k ∈ objectPrototype).

(** What a read of an object that is used as a map to values of type [A]
    can give: one of those values, or some other truthy value (a function
    or an object found on the prototype chain, a scalar). *)
Inductive Value (A : Type) :=
| Ref (a : A)
| Alien.
Arguments Ref {A} a.
Arguments Alien {A}.

(** [o[k]] for an object made by an object literal, given by its own
    properties: an own property first, a member of [Object.prototype]
    otherwise.  [None] is [undefined]. *)
Definition get {A} (o : gmap string (Value A)) (k : string)
    : option (Value A) :=
  match o !! k with
  | Some v => Some v
  | None => if inherited k then Some Alien else None
  end.

End JsObject.

Module QuestionnairePanel.
Export JsObject.

(** [evidence_data], as the evidence lookup returns it. *)
Record Evidence := {
  most_relevant_document : string;
  page_number : option nat
}.

(** An answer object as the audit-answer endpoint returns it and as the
    panel stores it.  [confidence] is absent or a number. *)
Record Answer := {
  answer : string;
  confidence : option Q;
  key_evidence : option string;
  evidence_data : option Evidence
}.

(** [{ ...a, evidence_data: e }] *)
Definition withEvidence (a : Answer) (e : option Evidence) : Answer :=
  {| answer := answer a; confidence := confidence a;
     key_evidence := key_evidence a; evidence_data := e |}.

(** A question of the list.  [existingAnswer] is [None] when the field is
    [null] or missing; handleViewQuestions fills it from a lookup, which
    can give a value that is not an answer. *)
Record Question := {
  question_id : string;
  question_text : string;
  answered : bool;
  existingAnswer : option (Value Answer)
}.

(** [response.data] of [POST /api/audit-answers/single] *)
Record AnswerResult := {
  success : bool;
  result_answer : option Answer;
  from_cache : bool
}.

(** [response.data] of the evidence lookup *)
Record EvidenceResult := { evidence : option Evidence }.

(** How a promise settles. *)
Inductive Settled (A : Type) :=
| Resolved (a : A)
| Rejected (message : string).
Arguments Resolved {A} a.
Arguments Rejected {A} message.

Inductive Call :=
| AnswerAuditQuestion (questionId : string)
| FindEvidenceForQuestion (questionId : string).

Definition isGeneration (c : Call) : bool :=
  match c with AnswerAuditQuestion _ => true | _ => false end.

(** Number of answer-generation requests among the calls made. *)
Definition generations (cs : list Call) : nat :=
  length (filter (λ c, isGeneration c = true) cs).

(** What a name imported from services/api.js is bound to. *)
Inductive Binding :=
| Exported
| NotExported.

(** The panel imports [answerAuditQuestion] and [findEvidenceForQuestion]
    from services/api.js.  The module exports the first and has no export
    of the second name: that binding is [undefined], and calling it
    throws a [TypeError]. *)
Definition findEvidenceForQuestion : Binding := NotExported.

(** The props the handler reads. *)
Record Props := {
  questions : option (list Question);
  onViewQuestions : bool
}.

(** The [useState] cells the handler touches; [props] is part of the
    state because the parent can hand the panel new props.
    [questionAnswers] is a plain object, [{}] at the start and rebuilt by
    [{ ...prev, [questionId]: value }], used as a map from question id to
    answer: it is given by its own properties and read with [get]. *)
Record State := {
  questionAnswers : gmap string (Value Answer);
  answeringQuestions : gset string;
  error : option string;
  internalQuestions : list Question;
  props : Props
}.

Definition setQuestionAnswers
    (f : gmap string (Value Answer) → gmap string (Value Answer))
    (s : State) : State :=
  {| questionAnswers := f (questionAnswers s);
     answeringQuestions := answeringQuestions s; error := error s;
     internalQuestions := internalQuestions s; props := props s |}.

Definition setAnsweringQuestions (f : gset string → gset string)
    (s : State) : State :=
  {| questionAnswers := questionAnswers s;
     answeringQuestions := f (answeringQuestions s); error := error s;
     internalQuestions := internalQuestions s; props := props s |}.

Definition setError (e : option string) (s : State) : State :=
  {| questionAnswers := questionAnswers s;
     answeringQuestions := answeringQuestions s; error := e;
     internalQuestions := internalQuestions s; props := props s |}.

Definition setInternalQuestions (l : list Question) (s : State) : State :=
  {| questionAnswers := questionAnswers s;
     answeringQuestions := answeringQuestions s; error := error s;
     internalQuestions := l; props := props s |}.

(** The parent renders the panel with new props. *)
Definition withProps (p : Props) (s : State) : State :=
  {| questionAnswers := questionAnswers s;
     answeringQuestions := answeringQuestions s; error := error s;
     internalQuestions := internalQuestions s; props := p |}.

(** The parent's handleViewQuestions stores the list it is given, and
    the list comes back as the [questions] prop. *)
Definition parentViewQuestions (l : list Question) (s : State) : State :=
  withProps {| questions := Some l;
               onViewQuestions := onViewQuestions (props s) |} s.

(** The [finally] block. *)
Definition removeThinking (questionId : string) (s : State) : State :=
  setAnsweringQuestions (λ prev, prev ∖ {[questionId]}) s.

(** [questions || internalQuestions] *)
Definition shownQuestions (s : State) : list Question :=
  default (internalQuestions s) (questions (props s)).

(** [questionAnswers[questionId] || question.existingAnswer], the value
    renderAnswer displays as the answer of a question. *)
Definition shownAnswer (q : Question) (s : State) : option (Value Answer) :=
  match get (questionAnswers s) (question_id q) with
  | Some v => Some v
  | None => existingAnswer q
  end.

(** The [background] and [color] of the AnswerStatus badge:
    [props.answer === 'YES' ? ... : ...]. *)
Definition answerStatusBackground (verdictShown : string) : string :=
  if decide (verdictShown = "YES") then "#dbeafe" else "#fecaca".

Definition answerStatusColor (verdictShown : string) : string :=
  if decide (verdictShown = "YES") then "#1e40af" else "#dc2626".

(** The requests made while the array handed to [Promise.all] is built,
    and, when building it throws, the request the [catch] block repeats
    before its first [await]. *)
Definition firstRequests (questionId : string) : list Call :=
  match findEvidenceForQuestion with
  | Exported =>
      [AnswerAuditQuestion questionId; FindEvidenceForQuestion questionId]
  | NotExported =>
      [AnswerAuditQuestion questionId; AnswerAuditQuestion questionId]
  end.

(** What the handler does before its first [await].  [closure] is the
    render the handler was created in; the updates go to the current
    state [s].  The result says whether the handler goes on ([true]) or
    has returned. *)
Definition start (closure : State) (q : Question) (s : State)
    : State * list Call * bool :=
  let questionId := question_id q in
  match get (questionAnswers closure) questionId with
  | Some _ => (removeThinking questionId s, [], false)
  | None =>
      match existingAnswer q with
      | Some v =>
          (removeThinking questionId
             (setQuestionAnswers (λ prev, <[questionId := v]> prev) s),
           [], false)
      | None =>
          (setError None
             (setAnsweringQuestions (λ prev, prev ∪ {[questionId]}) s),
           firstRequests questionId,
           true)
      end
  end.

(** How the requests of one invocation settle: the two made together,
    which of the two rejections [Promise.all] reports when both reject,
    and the two made one by one after a rejection; [type_error] is the
    message of the [TypeError] the runtime throws for a call of a binding
    that is [undefined]. *)
Record World := {
  par_answer : Settled AnswerResult;
  par_evidence : Settled EvidenceResult;
  evidence_rejects_first : bool;
  retry_answer : Settled AnswerResult;
  retry_evidence : Settled EvidenceResult;
  type_error : string
}.

(** The rejection of [Promise.all], if any. *)
Definition allRejection (w : World) : option string :=
  match par_answer w, par_evidence w with
  | Resolved _, Resolved _ => None
  | Rejected m, Resolved _ => Some m
  | Resolved _, Rejected m => Some m
  | Rejected ma, Rejected me =>
      Some (if evidence_rejects_first w then me else ma)
  end.

(** [result && result.success && result.answer] *)
Definition usable (r : option AnswerResult) : option (AnswerResult * Answer) :=
  match r with
  | Some res =>
      if success res
      then match result_answer res with
           | Some a => Some (res, a)
           | None => None
           end
      else None
  | None => None
  end.

Definition resolved {A} (p : Settled A) : option A :=
  match p with Resolved a => Some a | Rejected _ => None end.

(** [evidenceResult?.evidence || null] *)
Definition evidenceOf (e : option EvidenceResult) : option Evidence :=
  match e with Some r => evidence r | None => None end.

(** [q.question_id === questionId ? { ...q, answered: true,
    existingAnswer: result.answer } : q] *)
Definition markAnswered (questionId : string) (a : Answer) (q : Question)
    : Question :=
  if decide (question_id q = questionId)
  then {| question_id := question_id q; question_text := question_text q;
          answered := true; existingAnswer := Some (Ref a) |}
  else q.

Definition failure (message : string) : option string :=
  Some ("Failed to answer question: " +:+ message).

(** The [catch] block of the parallel call, from the settling of the
    repeated generation request on: [evidenceResult] is what the repeated
    evidence lookup left, [message] the message of the error caught,
    which is thrown again and reaches the outer [catch] and [finally]. *)
Definition afterRetry (questionId : string) (w : World)
    (evidenceResult : option EvidenceResult) (message : string)
    (s : State) : State :=
  let s1 :=
    match usable (resolved (retry_answer w)) with
    | Some (_, a) =>
        let stored := withEvidence a (evidenceOf evidenceResult) in
        setQuestionAnswers (λ prev, <[questionId := Ref stored]> prev) s
    | None => s
    end in
  removeThinking questionId (setError (failure message) s1).

(** The handler from its first [await] to its end.  With
    [findEvidenceForQuestion] exported that is the settling of
    [Promise.all]; as the module is, it is the settling of the generation
    request repeated in the [catch] block: the repeated evidence lookup
    throws the same [TypeError], which is caught and leaves
    [evidenceResult] undefined, and the lines after the parallel call
    (841-870) are never reached. *)
Definition resume (closure : State) (q : Question) (w : World) (s : State)
    : State * list Call :=
  let questionId := question_id q in
  match findEvidenceForQuestion with
  | NotExported => (afterRetry questionId w None (type_error w) s, [])
  | Exported =>
      match allRejection w with
      | None =>
          match usable (resolved (par_answer w)) with
          | Some (res, a) =>
              let stored :=
                withEvidence a (evidenceOf (resolved (par_evidence w))) in
              let s1 :=
                setQuestionAnswers
                  (λ prev, <[questionId := Ref stored]> prev) s in
              let s2 :=
                if from_cache res then s1
                else
                  let updated :=
                    markAnswered questionId a <$> shownQuestions closure in
                  if onViewQuestions (props closure)
                  then parentViewQuestions updated s1
                  else setInternalQuestions updated s1 in
              (removeThinking questionId s2, [])
          | None =>
              (removeThinking questionId
                 (setError (failure "Failed to get answer from API") s), [])
          end
      | Some message =>
          (afterRetry questionId w (resolved (retry_evidence w)) message s,
           [AnswerAuditQuestion questionId;
            FindEvidenceForQuestion questionId])
      end
  end.

(** One invocation run from start to end with nothing in between. *)
Definition handleAnswerQuestion (q : Question) (w : World) (s : State)
    : State * list Call :=
  let '(s1, calls, goesOn) := start s q s in
  if goesOn
  then let '(s2, more) := resume s q w s1 in (s2, calls ++ more)
  else (s1, calls).

(** The handler goes on to its requests: the question has no entry that
    [questionAnswers[id]] finds and no [existingAnswer]. *)
Definition unanswered (q : Question) (s : State) : Prop :=
  get (questionAnswers s) (question_id q) = None ∧ existingAnswer q = None.

(** *** The panel as a transition system

    A click on the Answer button of a shown question starts the handler;
    the button is [disabled] while the question id is in
    [answeringQuestions].  An invocation that went on to its requests
    stays in [flights], with the render it closed over, until the
    request it waits for settles.  The parent can hand the panel new
    props at any time. *)
Record Panel := {
  panel_state : State;
  flights : list (State * Question);
  sent : list Call
}.

Definition mount (p : Props) (stored : gmap string (Value Answer)) : Panel :=
  {| panel_state :=
       {| questionAnswers := stored; answeringQuestions := ∅;
          error := None; internalQuestions := []; props := p |};
     flights := []; sent := [] |}.

(** The Answer button of [q] is on screen and enabled. *)
Definition clickable (q : Question) (u : Panel) : Prop :=
  q ∈ shownQuestions (panel_state u) ∧
  question_id q ∉ answeringQuestions (panel_state u).

Definition click (q : Question) (u : Panel) : Panel :=
  let s := panel_state u in
  let '(s1, calls, goesOn) := start s q s in
  {| panel_state := s1;
     flights := if goesOn then flights u ++ [(s, q)] else flights u;
     sent := sent u ++ calls |}.

Definition settle (i : nat) (w : World) (u : Panel) : Panel :=
  match flights u !! i with
  | None => u
  | Some (closure, q) =>
      let '(s1, calls) := resume closure q w (panel_state u) in
      {| panel_state := s1; flights := delete i (flights u);
         sent := sent u ++ calls |}
  end.

Definition rerender (p : Props) (u : Panel) : Panel :=
  {| panel_state := withProps p (panel_state u); flights := flights u;
     sent := sent u |}.

(** The other handlers of the panel (loadQuestionnaires,
    handleFileUpload, handleViewQuestions, handleCloseQuestions,
    handleViewDetailedAnswer): of the cells kept here they write [error]
    and [internalQuestions] only. *)
Definition otherHandler (e : option string) (l : list Question) (u : Panel)
    : Panel :=
  {| panel_state := setInternalQuestions l (setError e (panel_state u));
     flights := flights u; sent := sent u |}.

Inductive panel_step : Panel → Panel → Prop :=
| step_click q u :
    q ∈ shownQuestions (panel_state u) →
    question_id q ∉ answeringQuestions (panel_state u) →
    panel_step u (click q u)
| step_settle i w u :
    i < length (flights u) →
    panel_step u (settle i w u)
| step_props p u :
    panel_step u (rerender p u)
| step_other e l u :
    panel_step u (otherHandler e l u).

Inductive reachable (p : Props) (stored : gmap string (Value Answer))
    : Panel → Prop :=
| reachable_mount : reachable p stored (mount p stored)
| reachable_step u u' :
    reachable p stored u → panel_step u u' → reachable p stored u'.

(** The question ids of the invocations in flight. *)
Definition inFlight (u : Panel) : list string :=
  (λ f, question_id f.2) <$> flights u.

(** *** The overlay over time

    MainLayout renders the panel that lists the questions only while
    [showQuestions] holds: closing the overlay unmounts the panel and
    opening it again mounts a new one, with empty state.  The invocations
    of an unmounted panel stay in flight; when their request settles the
    state updates go to a component that is gone and are dropped. *)
Record Overlay := {
  instance : option Panel;
  detached : list (State * Question);
  earlier : list Call
}.

Definition closed : Overlay :=
  {| instance := None; detached := []; earlier := [] |}.

Definition openOverlay (p : Props) (o : Overlay) : Overlay :=
  {| instance := Some (from_option (rerender p) (mount p ∅) (instance o));
     detached := detached o; earlier := earlier o |}.

Definition closeOverlay (o : Overlay) : Overlay :=
  match instance o with
  | Some u =>
      {| instance := None; detached := detached o ++ flights u;
         earlier := earlier o ++ sent u |}
  | None => o
  end.

Definition inPanel (f : Panel → Panel) (o : Overlay) : Overlay :=
  {| instance := f <$> instance o; detached := detached o;
     earlier := earlier o |}.

Definition settleDetached (i : nat) (w : World) (o : Overlay) : Overlay :=
  match detached o !! i with
  | None => o
  | Some (closure, q) =>
      {| instance := instance o; detached := delete i (detached o);
         earlier := earlier o ++ (resume closure q w closure).2 |}
  end.

Inductive overlay_step : Overlay → Overlay → Prop :=
| overlay_open p o : overlay_step o (openOverlay p o)
| overlay_close o : overlay_step o (closeOverlay o)
| overlay_panel u u' o :
    instance o = Some u → panel_step u u' →
    overlay_step o (inPanel (λ _, u') o)
| overlay_settle i w o : overlay_step o (settleDetached i w o).

Inductive overlay_reachable : Overlay → Prop :=
| overlay_closed : overlay_reachable closed
| overlay_next o o' :
    overlay_reachable o → overlay_step o o' → overlay_reachable o'.

(** Every request sent so far, and the question ids of every invocation
    in flight, of the mounted panel and of the panels before it. *)
Definition requests (o : Overlay) : list Call :=
  earlier o ++ from_option sent [] (instance o).

Definition allInFlight (o : Overlay) : list string :=
  ((λ f, question_id f.2) <$> detached o)
  ++ from_option inFlight [] (instance o).

End QuestionnairePanel.

(** Sample data for the panel. *)
Module PanelExamples.
Import QuestionnairePanel.

Definition question1 : Question :=
  {| question_id := "q1"; question_text := "Is there a grievance policy?";
     answered := false; existingAnswer := None |}.

Definition question3 : Question :=
  {| question_id := "q3"; question_text := "Are appeals acknowledged?";
     answered := false; existingAnswer := None |}.

Definition yes90 : Answer :=
  {| answer := "YES"; confidence := Some (9 # 10)%Q;
     key_evidence := Some "Members may file a grievance";
     evidence_data := None |}.

Definition no50 : Answer :=
  {| answer := "NO"; confidence := Some (1 # 2)%Q;
     key_evidence := None; evidence_data := None |}.

Definition page12 : Evidence :=
  {| most_relevant_document := "GG.1234"; page_number := Some 12 |}.

Definition fresh : AnswerResult :=
  {| success := true; result_answer := Some yes90; from_cache := false |}.

Definition overlay : Props :=
  {| questions := Some [question1]; onViewQuestions := false |}.

Definition mounted : State := panel_state (mount overlay ∅).

(** A panel that holds answers for [q1] and [q2]. *)
Definition answeredTwo : State :=
  panel_state (mount overlay {[ "q1" := Ref yes90; "q2" := Ref no50 ]}).

Definition notAFunction : string :=
  "findEvidenceForQuestion is not a function".

(** Every request that is made succeeds. *)
Definition allGood : World :=
  {| par_answer := Resolved fresh;
     par_evidence := Resolved {| evidence := Some page12 |};
     evidence_rejects_first := false;
     retry_answer := Resolved fresh;
     retry_evidence := Resolved {| evidence := Some page12 |};
     type_error := notAFunction |}.

(** The generation request times out; asked again it succeeds. *)
Definition timeoutThenAnswer : World :=
  {| par_answer := Rejected "timeout of 30000ms exceeded";
     par_evidence := Rejected "Network Error";
     evidence_rejects_first := false;
     retry_answer := Resolved fresh;
     retry_evidence := Rejected "Network Error";
     type_error := notAFunction |}.

(** Every request is rejected. *)
Definition allDown : World :=
  {| par_answer := Rejected "timeout of 30000ms exceeded";
     par_evidence := Rejected "Network Error";
     evidence_rejects_first := false;
     retry_answer := Rejected "timeout of 30000ms exceeded";
     retry_evidence := Rejected "Network Error";
     type_error := notAFunction |}.

(** A question whose id is the name of a member of [Object.prototype],
    with an answer from the database. *)
Definition questionConstructor : Question :=
  {| question_id := "constructor";
     question_text := "Is the contractor licensed?";
     answered := true; existingAnswer := Some (Ref yes90) |}.

Definition overlayConstructor : Props :=
  {| questions := Some [questionConstructor]; onViewQuestions := false |}.

(** The overlay is opened and [question1] clicked; the overlay is closed
    and opened again while the requests are out, and [question1] is
    clicked again. *)
Definition reopened : Overlay :=
  inPanel (click question1)
    (openOverlay overlay
       (closeOverlay
          (inPanel (click question1) (openOverlay overlay closed)))).
End PanelExamples.

(** ** The answering core behind the API

    The FastAPI backend ([backend/core/audit_answering.py] and
    [backend/api/audit_answers.py] in the project layout) is not among the
    sources at hand: only its callers in [services/api.js] and
    [QuestionnairePanel.js] are.  The definitions of this part follow the
    specification of the core, section by section. *)

Module Synthesizer.
Local Open Scope Q_scope.

(** Modelled from the spec: the verdict of an Answer, "restricted to the
    two-valued domain {YES, NO}" (backend answer entity, not in the
    sources). *)
Inductive Verdict := YES | NO.

(** Modelled from the spec: the verdict as the API sends it, the string
    the panel compares with ['YES']. *)
Definition verdictText (v : Verdict) : string :=
  match v with YES => "YES" | NO => "NO" end.

(** Modelled from the spec: the evidence of an Answer, "document id + page
    + quoted text". *)
Record Evidence := {
  evidence_document : string;
  evidence_page : nat;
  evidence_quote : string
}.

(** Modelled from the spec: the Answer entity of section 3 (backend, not in
    the sources). *)
Record Answer := {
  answer_question : string;
  verdict : Verdict;
  confidence : Q;
  answer_evidence : option Evidence;
  reasoning : string;
  fingerprint : string
}.

(** Modelled from the spec: the error kinds of section 7. *)
Inductive ErrorKind :=
| NotFound
| MalformedResponse
| UpstreamTimeout
| UpstreamRateLimited
| CacheConflict.

(** Modelled from the spec: what the language-model collaborator returns
    for [complete(prompt, timeout)]: a failure, or a structured response
    whose fields may be missing. *)
Record RawResponse := {
  raw_verdict : option string;
  raw_confidence : option Q;
  raw_quote : option string;
  raw_reasoning : option string
}.

Inductive ModelReply :=
| Replied (r : RawResponse)
| TimedOut
| RateLimited.

(** Modelled from the spec: "verdict not one of the two allowed values"
    is malformed. *)
Definition parseVerdict (s : string) : option Verdict :=
  if decide (s = "YES") then Some YES
  else if decide (s = "NO") then Some NO
  else None.

(** Modelled from the spec: "Confidence is clamped to [0,1]". *)
Definition clamp (c : Q) : Q := Qmax 0 (Qmin c 1).

(** Modelled from the spec: "confidence out of range" is malformed. *)
Definition inRange (c : Q) : bool := Qle_bool 0 c && Qle_bool c 1.

(** Modelled from the spec: section 4.4, parsing the structured response
    "into {verdict, confidence, quoted evidence, reasoning}"; a response
    that is not well-formed "fails with a MalformedResponse error rather
    than silently defaulting". *)
Definition parseResponse (questionId fp : string)
    (primary : option (string * nat)) (r : RawResponse)
    : Answer + ErrorKind :=
  match raw_verdict r, raw_confidence r, raw_quote r, raw_reasoning r with
  | Some v, Some c, Some quote, Some why =>
      match parseVerdict v with
      | Some vd =>
          if inRange c
          then inl {| answer_question := questionId; verdict := vd;
                      confidence := clamp c;
                      answer_evidence :=
                        (λ '(doc, page),
                           {| evidence_document := doc; evidence_page := page;
                              evidence_quote := quote |}) <$> primary;
                      reasoning := why; fingerprint := fp |}
          else inr MalformedResponse
      | None => inr MalformedResponse
      end
  | _, _, _, _ => inr MalformedResponse
  end.

(** Modelled from the spec: section 4.4, [synthesize]: one call to the
    language model, then the parse. *)
Definition synthesize (questionId fp : string)
    (primary : option (string * nat)) (reply : ModelReply)
    : Answer + ErrorKind :=
  match reply with
  | Replied r => parseResponse questionId fp primary r
  | TimedOut => inr UpstreamTimeout
  | RateLimited => inr UpstreamRateLimited
  end.

(** Modelled from the spec: section 7, the local fallback "no evidence
    available, verdict defaults to NO with confidence 0". *)
Definition noEvidence (questionId fp : string) : Answer :=
  {| answer_question := questionId; verdict := NO; confidence := 0;
     answer_evidence := None; reasoning := "no evidence available";
     fingerprint := fp |}.

(** Modelled from the spec: an Answer is generated either by the
    synthesizer, from the primary fragment, or by the fallback when there
    is no candidate fragment. *)
Definition generate (questionId fp : string)
    (primary : option (string * nat)) (reply : ModelReply)
    : Answer + ErrorKind :=
  match primary with
  | None => inl (noEvidence questionId fp)
  | Some _ => synthesize questionId fp primary reply
  end.

(** Modelled from the spec: the Answer as the API sends it to the panel
    (the serialisation is in the backend; the field names are the ones the
    panel reads). *)
Definition wire (a : Answer) : QuestionnairePanel.Answer :=
  {| QuestionnairePanel.answer := verdictText (verdict a);
     QuestionnairePanel.confidence := Some (confidence a);
     QuestionnairePanel.key_evidence := evidence_quote <$> answer_evidence a;
     QuestionnairePanel.evidence_data := None |}.

(** A well-formed reply, for the examples. *)
Definition sampleReply : ModelReply :=
  Replied {| raw_verdict := Some "YES"; raw_confidence := Some (17 # 20);
             raw_quote := Some "Members may file a grievance at any time";
             raw_reasoning := Some "The policy states the right directly" |}.

End Synthesizer.

Module Batch.
Import Synthesizer.

(** Modelled from the spec: why a batch call as a whole is refused
    (section 4.5: "the input list itself is invalid (empty, duplicate ids,
    unknown question id)"); [Stalled] is a pool that stopped with work
    left, which a cap of zero produces. *)
Inductive BatchError :=
| EmptyBatch
| DuplicateIds
| UnknownQuestion (questionId : string)
| Stalled.

(** Modelled from the spec: the workers of section 5, "bounded by a
    semaphore-like admission gate".  Questions are named by their position
    in the input list: [waiting] queue for a slot, [running] hold one,
    [finished] lists the positions in the order their pipelines completed,
    [results] holds what each returned. *)
Record Pool := {
  waiting : list nat;
  running : list nat;
  finished : list nat;
  results : gmap nat (Answer + ErrorKind)
}.

(** Modelled from the spec: "additional questions queue until a slot
    frees": the free slots are filled from the head of the queue. *)
Definition fillSlots (cap : nat) (p : Pool) : Pool :=
  let free := cap - length (running p) in
  {| waiting := drop free (waiting p);
     running := running p ++ take free (waiting p);
     finished := finished p; results := results p |}.

(** Modelled from the spec: one running pipeline completes, the one the
    scheduler's [choice] points at; its outcome, Answer or error, is
    recorded under its position and nothing else is touched ("one
    question's synthesizer error does not abort sibling questions"). *)
Definition complete (pipeline : string → Answer + ErrorKind)
    (questionIds : list string) (choice : nat) (p : Pool) : Pool :=
  let slot := choice `mod` length (running p) in
  match running p !! slot with
  | None => p
  | Some j =>
      match questionIds !! j with
      | None => p
      | Some q =>
          {| waiting := waiting p; running := delete slot (running p);
             finished := finished p ++ [j];
             results := <[j := pipeline q]> (results p) |}
      end
  end.

(** Modelled from the spec: a completion frees a slot, which is filled at
    once. *)
Definition poolStep (pipeline : string → Answer + ErrorKind)
    (questionIds : list string) (cap choice : nat) (p : Pool) : Pool :=
  fillSlots cap (complete pipeline questionIds choice p).

(** Modelled from the spec: the pool run for [steps] completions;
    [schedule t] is the scheduler's choice at completion [t]. *)
Fixpoint runPool (pipeline : string → Answer + ErrorKind)
    (questionIds : list string) (cap : nat) (schedule : nat → nat)
    (steps t : nat) (p : Pool) : Pool :=
  match steps with
  | 0 => p
  | S k =>
      runPool pipeline questionIds cap schedule k (S t)
        (poolStep pipeline questionIds cap (schedule t) p)
  end.

(** Modelled from the spec: the result list, one entry per requested
    question in the order of the request. *)
Fixpoint collect (res : gmap nat (Answer + ErrorKind)) (i : nat)
    (questionIds : list string)
    : option (list (string * (Answer + ErrorKind))) :=
  match questionIds with
  | [] => Some []
  | q :: rest =>
      match res !! i, collect res (S i) rest with
      | Some r, Some rs => Some ((q, r) :: rs)
      | _, _ => None
      end
  end.

(** Modelled from the spec: the validation of the question list, before
    any work starts. *)
Definition validate (known : gset string) (questionIds : list string)
    : option BatchError :=
  match questionIds with
  | [] => Some EmptyBatch
  | _ =>
      if decide (NoDup questionIds)
      then match list_find (λ q, q ∉ known) questionIds with
           | Some (_, q) => Some (UnknownQuestion q)
           | None => None
           end
      else Some DuplicateIds
  end.

Definition startPool (cap n : nat) : Pool :=
  fillSlots cap {| waiting := seq 0 n; running := []; finished := [];
               results := ∅ |}.

(** Modelled from the spec: section 4.5, [answerBatch(questionIds,
    options)].  [pipeline q] is what the pipeline of question [q] returns
    (cache lookup, rank, synthesize, store, advance), [cap] the concurrency
    cap, [schedule] the order in which the running pipelines happen to
    complete. *)
Definition answerBatch (known : gset string)
    (pipeline : string → Answer + ErrorKind) (cap : nat)
    (schedule : nat → nat) (questionIds : list string)
    : list (string * (Answer + ErrorKind)) + BatchError :=
  match validate known questionIds with
  | Some e => inr e
  | None =>
      let n := length questionIds in
      let final :=
        runPool pipeline questionIds cap schedule n 0 (startPool cap n) in
      match collect (results final) 0 questionIds with
      | Some l => inl l
      | None => inr Stalled
      end
  end.

(** The invariant of the pool for a batch of [n] questions. *)
Definition poolInv (pipeline : string → Answer + ErrorKind)
    (questionIds : list string) (cap : nat) (p : Pool) : Prop :=
  waiting p ++ running p ++ finished p ≡ₚ seq 0 (length questionIds)
  ∧ (∀ j, j ∈ finished p → results p !! j = pipeline <$> questionIds !! j)
  ∧ (running p = [] → waiting p = [])
  ∧ length (running p) ≤ cap.

(** *** A batch of five, the third timing out *)

Definition fiveQuestions : list string := ["q1"; "q2"; "q3"; "q4"; "q5"].

Definition answerFor (q : string) : Answer :=
  {| answer_question := q; verdict := YES; confidence := (4 # 5)%Q;
     answer_evidence := None; reasoning := "stated in the policy";
     fingerprint := q |}.

Definition thirdTimesOut (q : string) : Answer + ErrorKind :=
  if decide (q = "q3") then inr UpstreamTimeout else inl (answerFor q).

(** Of the pipelines running, the one that got its slot last completes first. *)
Definition lastFirst (t : nat) : nat := 1.

Definition fiveFinal : Pool :=
  runPool thirdTimesOut fiveQuestions 2 lastFirst 5 0 (startPool 2 5).

End Batch.

Module Rotation.
Import Synthesizer.
Local Open Scope Q_scope.

(** Modelled from the spec: a Fragment of section 3 (the ingestion output,
    not in the sources). *)
Record Fragment := {
  fragment_id : string;
  fragment_document : string;
  fragment_page : nat;
  fragment_text : string;
  fragment_position : nat
}.

(** Modelled from the spec: the RotationState of section 4.2, "sequence
    counter [n], map fragment -> last-used-n". *)
Record RotationState := {
  counter : nat;
  lastUsed : gmap string nat
}.

(** Modelled from the spec: a key that was never answered has no rotation
    history. *)
Definition unused : RotationState := {| counter := 0; lastUsed := ∅ |}.

(** Modelled from the spec: [penalty(fragmentId)], "weight = 1 (no
    penalty) if never used"; otherwise the weight is [decay] of the gap
    since the last use.  The decay function is left open by the spec and
    is a parameter here. *)
Definition penalty (decay : nat → Q) (rs : RotationState) (fragmentId : string)
    : Q :=
  match lastUsed rs !! fragmentId with
  | None => 1
  | Some k => decay (counter rs - k)%nat
  end.

(** Modelled from the spec: [advance(usedFragmentIds)], "increments [n],
    records [n] against each fragment used as evidence in the answer just
    generated". *)
Definition advance (usedFragmentIds : list string) (rs : RotationState)
    : RotationState :=
  {| counter := S (counter rs);
     lastUsed := foldr (λ f m, <[f := S (counter rs)]> m) (lastUsed rs)
                       usedFragmentIds |}.

#[global] Instance Qle_decision (x y : Q) : Decision (x <= y).
Proof. unfold Qle. apply _. Defined.

(** Modelled from the spec: the order of a ranking, best score first. *)
Definition byScore (a b : Fragment * Q) : Prop := b.2 <= a.2.

#[global] Instance byScore_decision (a b : Fragment * Q) : Decision (byScore a b).
Proof. unfold byScore. apply _. Defined.

(** Modelled from the spec: the score of section 4.1, the relevance of the
    fragment for the question (a pluggable strategy, here the parameter
    [relevance]) times the rotation penalty. *)
Definition score (relevance : Fragment → Q) (decay : nat → Q)
    (rs : RotationState) (f : Fragment) : Q :=
  relevance f * penalty decay rs (fragment_id f).

(** Modelled from the spec: the fragments "exceeding a minimum relevance
    threshold". *)
Definition eligible (relevance : Fragment → Q) (threshold : Q)
    (candidates : list Fragment) : list Fragment :=
  filter (λ f, ¬ (relevance f <= threshold)) candidates.

(** Modelled from the spec: [rank(question, candidateFragments,
    rotationState)], an "ordered sequence of (fragment, score)"; a fragment
    that is "the only fragment exceeding a minimum relevance threshold"
    keeps its raw relevance, "the rotation penalty is ignored". *)
Definition rank (relevance : Fragment → Q) (threshold : Q) (decay : nat → Q)
    (rs : RotationState) (candidates : list Fragment) : list (Fragment * Q) :=
  match eligible relevance threshold candidates with
  | [only] => [(only, relevance only)]
  | several =>
      merge_sort byScore ((λ f, (f, score relevance decay rs f)) <$> several)
  end.

(** Modelled from the spec: "Selection picks the top-N fragments after
    penalty". *)
Definition select (topN : nat) (ranked : list (Fragment * Q))
    : list Fragment :=
  fst <$> take topN ranked.

(** Modelled from the spec: the primary evidence, the first of the
    selected fragments. *)
Definition primary (topN : nat) (ranked : list (Fragment * Q))
    : option Fragment :=
  head (select topN ranked).

(** Modelled from the spec: what is fixed for a deployment: the relevance
    strategy, the threshold, the decay of the penalty, the number of
    fragments selected. *)
Record Config := {
  relevance : Fragment → Q;
  threshold : Q;
  decay : nat → Q;
  topN : nat
}.

(** Modelled from the spec: the state the core owns, the stored Answers by
    fingerprint (AnswerCache) and the rotation state by question
    (RotationTracker). *)
Record Core := {
  cache : gmap string Answer;
  rotation : gmap string RotationState
}.

Definition rotationOf (questionId : string) (c : Core) : RotationState :=
  default unused (rotation c !! questionId).

(** Modelled from the spec: the fragment the next generation for the
    question would cite first. *)
Definition primaryFor (cfg : Config) (questionId : string)
    (candidates : list Fragment) (c : Core) : option Fragment :=
  primary (topN cfg)
    (rank (relevance cfg) (threshold cfg) (decay cfg)
       (rotationOf questionId c) candidates).

(** Modelled from the spec: "answer one question" (sections 2 and 4.3):
    a stored Answer is returned at once unless a refresh is forced, with
    no synthesizer call and no advance of the rotation; otherwise rank,
    synthesize, and on success store the Answer and then advance the
    rotation once, with the fragment cited as evidence; on failure nothing
    is stored and the rotation is left alone. *)
Definition answerOne (cfg : Config) (force : bool) (questionId fp : string)
    (candidates : list Fragment) (reply : ModelReply) (c : Core)
    : Core * (Answer + ErrorKind) :=
  let generated :=
    let p := primaryFor cfg questionId candidates c in
    match generate questionId fp
            ((λ f, (fragment_document f, fragment_page f)) <$> p) reply with
    | inl a =>
        ({| cache := <[fp := a]> (cache c);
            rotation :=
              <[questionId :=
                  advance (fragment_id <$> from_option (λ f, [f]) [] p)
                          (rotationOf questionId c)]> (rotation c) |},
         inl a)
    | inr e => (c, inr e)
    end in
  match cache c !! fp with
  | Some a => if force then generated else (c, inl a)
  | None => generated
  end.

(** *** Three fragments of comparable relevance *)

Definition fragmentA : Fragment :=
  {| fragment_id := "A"; fragment_document := "GG.1234"; fragment_page := 3;
     fragment_text := "Members may file a grievance at any time";
     fragment_position := 0 |}.
Definition fragmentB : Fragment :=
  {| fragment_id := "B"; fragment_document := "GG.1234"; fragment_page := 7;
     fragment_text := "Grievances are acknowledged within five days";
     fragment_position := 1 |}.
Definition fragmentC : Fragment :=
  {| fragment_id := "C"; fragment_document := "HH.2001"; fragment_page := 2;
     fragment_text := "The grievance process is described to members";
     fragment_position := 0 |}.

(** Relevance 10, 9 and 8; a fragment just used weighs one half, one used
    the time before two thirds, and so on towards 1. *)
Definition sampleConfig : Config :=
  {| relevance := λ f, if decide (fragment_id f = "A") then 10
                       else if decide (fragment_id f = "B") then 9 else 8;
     threshold := 5;
     decay := λ gap, Z.of_nat (S gap) # Pos.of_succ_nat (S gap);
     topN := 3 |}.

Definition emptyCore : Core := {| cache := ∅; rotation := ∅ |}.

End Rotation.

(** ** FolderContents.js: deleting a document, checking its status *)

Module FolderDocuments.
Import FolderContents.

(** What a handler does to the outside: the two dialogs, the [DELETE]
    request, and the requests of [FolderContents.Request]. *)
Inductive Effect :=
| Confirm (message : string)
| Alert (message : string)
| DeleteDocument (doc : string)
| Fetch (r : Request).

(** The answer to [DELETE /api/policies/{id}]. *)
Inductive DeleteResponse :=
| DeleteRejected
| DeleteNotOk
| DeleteOk.

#[global] Instance DeleteResponse_eq_dec : EqDecision DeleteResponse.
Proof. solve_decision. Defined.

Definition doubleQuote : string := String (ascii_of_nat 34) EmptyString.

(** [`Are you sure you want to delete "${docTitle}"? This action cannot
    be undone.`] *)
Definition confirmText (docTitle : string) : string :=
  "Are you sure you want to delete " +:+ doubleQuote +:+ docTitle
  +:+ doubleQuote +:+ "? This action cannot be undone.".

(** handleDeleteDocument.  [confirmed] is what [window.confirm] returns,
    [resp] what the request returns. *)
Definition handleDeleteDocument (confirmed : bool) (docId docTitle : string)
    (resp : DeleteResponse) (s : State) : State * list Effect :=
  if confirmed
  then match resp with
       | DeleteOk =>
           (setDocumentStatuses (λ prev, delete docId prev)
              (setDocuments (filter (λ d, doc_id d ≠ docId) (documents s)) s),
            [Confirm (confirmText docTitle); DeleteDocument docId])
       | DeleteNotOk | DeleteRejected =>
           (s, [Confirm (confirmText docTitle); DeleteDocument docId;
                Alert "Failed to delete document. Please try again."])
       end
  else (s, [Confirm (confirmText docTitle)]).

(** The answer to [GET /api/policies/{id}/status]: only an [ok] response
    carries a status. *)
Inductive StatusResponse :=
| StatusRejected
| StatusNotOk
| StatusOk (status : string).

Definition statusOf (r : StatusResponse) : option string :=
  match r with StatusOk st => Some st | _ => None end.

(** The document ids of the status requests among [reqs]. *)
Definition statusRequests (reqs : list Request) : list string :=
  omap (λ r, match r with GetStatus d => Some d | _ => None end) reqs.

(** The continuations of the status checks run, one per document of
    [order], each with the response the server gives for that document. *)
Definition settleChecks (statusResp : string → StatusResponse)
    (order : list string) (s : State) : State :=
  foldl (λ s d, checkDocumentStatus_resume d (statusOf (statusResp d)) s)
        s order.

(** The ids of the documents of a list that are not being checked yet. *)
Definition unchecked (seen : gset string) (docs : list Doc) : list string :=
  filter (λ d, d ∉ seen) (doc_id <$> docs).

(** The list handleRefresh and loadDocuments leave in [documents]. *)
Definition listed (resp : DocumentsResponse) : list Doc :=
  match resp with DocsOk (Some data) => data | _ => [] end.

End FolderDocuments.

Module DocumentExamples.
Import FolderContents FolderDocuments RefreshExamples.

Definition guide : Doc := {| doc_id := "d2"; doc_title := "Guide" |}.

(** A folder view in which the status of [d2] is being checked. *)
Definition checkingGuide : State :=
  setStatusCheckInProgress (λ _, {[ "d2" ]})
    (setDocumentStatuses (λ _, {[ "d2" := "processing" ]}) initial).

(** The server knows [d1] as completed and fails for every other id. *)
Definition statusServer (d : string) : StatusResponse :=
  if decide (d = "d1") then StatusOk "completed" else StatusNotOk.

End DocumentExamples.


(** ** FolderContents.js: what an upload run sends and shows *)

Module UploadView.
Import JsString FolderContents UploadQueue.

(** The requests among the actions of a handler, in order. *)
Definition sends (acts : list Action) : list Request :=
  omap (λ a, match a with Send r => Some r | _ => None end) acts.

(** The queue item made for [file] at position [i], as the loop leaves
    it: [completed] with progress 100, or [error] with the message and
    the progress it had. *)
Definition finished (clock : nat → Z) (outcome : nat → option string)
    (i : nat) (file : File) : QueueItem :=
  {| item_id := {| stamp := clock i; index := i |};
     item_file := file;
     item_status :=
       match outcome i with None => "completed" | Some _ => "error" end;
     item_progress := match outcome i with None => 100 | Some _ => 0 end;
     item_error := outcome i |}.

(** [uploadQueue.filter(item => item.status === 'completed').length] *)
Definition completedCount (q : list QueueItem) : nat :=
  length (filter (λ it, item_status it = "completed") q).

(** The counter on the upload button while [uploading] is set:
    [`${completed + 1}/${uploadQueue.length}`], or nothing for an empty
    queue. *)
Definition buttonCounter (q : list QueueItem) : option (nat * nat) :=
  if decide (0 < length q) then Some (completedCount q + 1, length q)
  else None.

(** The counter in the title of the progress list. *)
Definition titleCounter (q : list QueueItem) : nat * nat :=
  (completedCount q, length q).

(** [progress={item.status === 'uploading' ? 50 : item.progress}] *)
Definition shownProgress (it : QueueItem) : nat :=
  if decide (item_status it = "uploading") then 50 else item_progress it.

(** The files among the first [n] whose upload succeeds. *)
Definition successes (outcome : nat → option string) (k n : nat) : nat :=
  length (filter (λ i, outcome i = None) (seq k n)).

End UploadView.


(** ** QuestionnairePanel.js: the list of questionnaires *)

Module QuestionnaireList.

Abbreviation Question := QuestionnairePanel.Question.
Abbreviation Answer := QuestionnairePanel.Answer.
Abbreviation Settled := QuestionnairePanel.Settled.
Abbreviation Resolved := QuestionnairePanel.Resolved.
Abbreviation Rejected := QuestionnairePanel.Rejected.
Import JsObject.

(** A questionnaire of the list; [questionnaire_id] is what
    [questionnaire._id || questionnaire.id] gives. *)
Record Questionnaire := {
  questionnaire_id : string;
  filename : string
}.

(** The file of the input's change event. *)
Record PickedFile := { picked_name : string; picked_type : string }.

(** The [useState] cells the handlers of the list touch. *)
Record State := {
  questionnaires : list Questionnaire;
  loading : bool;
  error : option string;
  uploading : bool;
  internalSelectedQuestionnaire : option Questionnaire;
  internalQuestions : list Question;
  loadingQuestions : bool
}.

Definition initial : State :=
  {| questionnaires := []; loading := true; error := None;
     uploading := false; internalSelectedQuestionnaire := None;
     internalQuestions := []; loadingQuestions := false |}.

Definition setQuestionnaires (l : list Questionnaire) (s : State) : State :=
  {| questionnaires := l; loading := loading s; error := error s;
     uploading := uploading s;
     internalSelectedQuestionnaire := internalSelectedQuestionnaire s;
     internalQuestions := internalQuestions s;
     loadingQuestions := loadingQuestions s |}.

Definition setLoading (b : bool) (s : State) : State :=
  {| questionnaires := questionnaires s; loading := b; error := error s;
     uploading := uploading s;
     internalSelectedQuestionnaire := internalSelectedQuestionnaire s;
     internalQuestions := internalQuestions s;
     loadingQuestions := loadingQuestions s |}.

Definition setError (e : option string) (s : State) : State :=
  {| questionnaires := questionnaires s; loading := loading s; error := e;
     uploading := uploading s;
     internalSelectedQuestionnaire := internalSelectedQuestionnaire s;
     internalQuestions := internalQuestions s;
     loadingQuestions := loadingQuestions s |}.

Definition setUploading (b : bool) (s : State) : State :=
  {| questionnaires := questionnaires s; loading := loading s;
     error := error s; uploading := b;
     internalSelectedQuestionnaire := internalSelectedQuestionnaire s;
     internalQuestions := internalQuestions s;
     loadingQuestions := loadingQuestions s |}.

Definition setInternalSelectedQuestionnaire (q : option Questionnaire)
    (s : State) : State :=
  {| questionnaires := questionnaires s; loading := loading s;
     error := error s; uploading := uploading s;
     internalSelectedQuestionnaire := q;
     internalQuestions := internalQuestions s;
     loadingQuestions := loadingQuestions s |}.

Definition setInternalQuestions (l : list Question) (s : State) : State :=
  {| questionnaires := questionnaires s; loading := loading s;
     error := error s; uploading := uploading s;
     internalSelectedQuestionnaire := internalSelectedQuestionnaire s;
     internalQuestions := l;
     loadingQuestions := loadingQuestions s |}.

Definition setLoadingQuestions (b : bool) (s : State) : State :=
  {| questionnaires := questionnaires s; loading := loading s;
     error := error s; uploading := uploading s;
     internalSelectedQuestionnaire := internalSelectedQuestionnaire s;
     internalQuestions := internalQuestions s;
     loadingQuestions := b |}.

(** What a handler does to the outside, in order. *)
Inductive Effect :=
| GetQuestionnaires
| UploadQuestionnaire (file : PickedFile)
| GetQuestionsFormatted (questionnaireId : string)
| GetAuditAnswers (questionnaireId : string)
| Alert (message : string)
| OnViewQuestions (questionnaire : Questionnaire)
    (questionsData : list Question)
| OnCloseQuestions
| ResetFileInput.

(** *** loadQuestionnaires

    [resp] is how [getQuestionnaires()] settles; a body that is [null]
    resolves to [None]. *)
Definition loadQuestionnaires (resp : Settled (option (list Questionnaire)))
    (s : State) : State * list Effect :=
  let s1 := setError None (setLoading true s) in
  let s2 :=
    match resp with
    | Resolved data => setQuestionnaires (default [] data) s1
    | Rejected _ =>
        setQuestionnaires []
          (setError
             (Some "Failed to load questionnaires. Please check your connection.")
             s1)
    end in
  (setLoading false s2, [GetQuestionnaires]).

(** *** handleFileUpload

    [file] is [event.target.files[0]]; [up] is how the upload settles and
    [reload] how the reload of the list does. *)
Definition handleFileUpload (file : option PickedFile) (up : Settled unit)
    (reload : Settled (option (list Questionnaire))) (s : State)
    : State * list Effect :=
  match file with
  | None => (s, [])
  | Some f =>
      if decide (picked_type f ≠ "application/pdf")
      then (s, [Alert "Please upload a PDF file"])
      else
        let s1 := setError None (setUploading true s) in
        match up with
        | Resolved _ =>
            let '(s2, reqs) := loadQuestionnaires reload s1 in
            (setUploading false s2,
             [UploadQuestionnaire f] ++ reqs
             ++ [Alert "Questionnaire uploaded successfully!";
                 ResetFileInput])
        | Rejected _ =>
            (setUploading false
               (setError
                  (Some "Failed to upload questionnaire. Please try again.")
                  s1),
             [UploadQuestionnaire f; ResetFileInput])
        end
  end.

(** *** handleViewQuestions *)

(** [answerMap], a plain object: its own properties and, once an
    assignment to [__proto__] has replaced its prototype, the answer
    that stands in the place of [Object.prototype]. *)
Record AnswerMap := {
  own : gmap string Answer;
  proto : option Answer
}.

Definition emptyMap : AnswerMap := {| own := ∅; proto := None |}.

(** [answerMap[answer.question_id] = answer]; an existing answer is
    given with its [question_id].  The assignment makes an own property,
    except for the name [__proto__], where it runs the setter inherited
    from [Object.prototype] and makes the answer the prototype of the
    map. *)
Definition assign (m : AnswerMap) (answer : string * Answer) : AnswerMap :=
  if decide (answer.1 = "__proto__")
  then {| own := own m; proto := Some answer.2 |}
  else {| own := <[answer.1 := answer.2]> (own m); proto := proto m |}.

(** [existingAnswers.forEach(answer => { answerMap[answer.question_id] =
    answer })] *)
Definition answerMap (existingAnswers : list (string * Answer)) : AnswerMap :=
  foldl assign emptyMap existingAnswers.

(** [answerMap[k]], [None] when it is [undefined] or another falsy
    value.  An own property is found first; then the prototype: either
    [Object.prototype], or an answer, whose properties the endpoint
    decides: [truthy a k] says whether [a[k]], own or inherited, is
    truthy.  The inherited getter [__proto__] gives the prototype
    itself. *)
Definition lookupAnswer (truthy : Answer → string → bool) (m : AnswerMap)
    (k : string) : option (Value Answer) :=
  match own m !! k with
  | Some a => Some (Ref a)
  | None =>
      match proto m with
      | Some a =>
          if decide (k = "__proto__") then Some (Ref a)
          else if truthy a k then Some Alien else None
      | None => if inherited k then Some Alien else None
      end
  end.

(** [{ ...question, answered: answerMap[id] ? true : question.answered ||
    false, existingAnswer: answerMap[id] || null }] *)
Definition withExisting (truthy : Answer → string → bool) (m : AnswerMap)
    (question : Question) : Question :=
  let id := QuestionnairePanel.question_id question in
  {| QuestionnairePanel.question_id := id;
     QuestionnairePanel.question_text :=
       QuestionnairePanel.question_text question;
     QuestionnairePanel.answered :=
       match lookupAnswer truthy m id with
       | Some _ => true
       | None => QuestionnairePanel.answered question || false
       end;
     QuestionnairePanel.existingAnswer := lookupAnswer truthy m id |}.

Definition questionsWithAnswers (truthy : Answer → string → bool)
    (questions : list Question) (existingAnswers : list (string * Answer))
    : list Question :=
  withExisting truthy (answerMap existingAnswers) <$> questions.

(** [onView] says whether the [onViewQuestions] prop is given.  [data]
    is how the questions request settles ([None] for a body without a
    [questions] array) and [existing] how the answers request does
    ([None] for a body that is not an array). *)
Definition handleViewQuestions (truthy : Answer → string → bool)
    (onView : bool) (questionnaire : Questionnaire)
    (data : Settled (option (list Question)))
    (existing : Settled (option (list (string * Answer))))
    (s : State) : State * list Effect :=
  let id := questionnaire_id questionnaire in
  let s1 := setError None (setLoadingQuestions true s) in
  let failed s' :=
    setLoadingQuestions false
      (setError (Some "Failed to load questions. Please try again.") s') in
  match data with
  | Rejected _ => (failed s1, [GetQuestionsFormatted id])
  | Resolved questions =>
      match existing, questions with
      | Resolved (Some answers), Some qs =>
          let merged := questionsWithAnswers truthy qs answers in
          if onView
          then (setLoadingQuestions false s1,
                [GetQuestionsFormatted id; GetAuditAnswers id;
                 OnViewQuestions questionnaire merged])
          else (setLoadingQuestions false
                  (setInternalQuestions merged
                     (setInternalSelectedQuestionnaire (Some questionnaire)
                        s1)),
                [GetQuestionsFormatted id; GetAuditAnswers id])
      | _, _ => (failed s1, [GetQuestionsFormatted id; GetAuditAnswers id])
      end
  end.

(** The merged list when both requests of handleViewQuestions give what
    the handler needs. *)
Definition loadedQuestions (truthy : Answer → string → bool)
    (data : Settled (option (list Question)))
    (existing : Settled (option (list (string * Answer))))
    : option (list Question) :=
  match data, existing with
  | QuestionnairePanel.Resolved (Some qs),
    QuestionnairePanel.Resolved (Some answers) =>
      Some (questionsWithAnswers truthy qs answers)
  | _, _ => None
  end.

(** handleCloseQuestions; [onClose] says whether the prop is given. *)
Definition handleCloseQuestions (onClose : bool) (s : State)
    : State * list Effect :=
  if onClose then (s, [OnCloseQuestions])
  else (setInternalQuestions [] (setInternalSelectedQuestionnaire None s),
        []).

End QuestionnaireList.


(** ** MainLayout.js: which panel shows what *)

Module Navigation.

Abbreviation Question := QuestionnairePanel.Question.
Abbreviation Questionnaire := QuestionnaireList.Questionnaire.
Abbreviation Folder := FolderContents.Folder.

(** The [useState] cells of MainLayout besides the two of the resizer. *)
Record State := {
  selectedFolder : option Folder;
  showQuestions : bool;
  selectedQuestionnaire : option Questionnaire;
  questions : list Question
}.

Definition initial : State :=
  {| selectedFolder := None; showQuestions := false;
     selectedQuestionnaire := None; questions := [] |}.

Definition handleFolderSelect (folder : Folder) (s : State) : State :=
  {| selectedFolder := Some folder; showQuestions := showQuestions s;
     selectedQuestionnaire := selectedQuestionnaire s;
     questions := questions s |}.

Definition handleBackToFolders (s : State) : State :=
  {| selectedFolder := None; showQuestions := showQuestions s;
     selectedQuestionnaire := selectedQuestionnaire s;
     questions := questions s |}.

Definition handleViewQuestions (questionnaire : Questionnaire)
    (questionsData : list Question) (s : State) : State :=
  {| selectedFolder := None; showQuestions := true;
     selectedQuestionnaire := Some questionnaire;
     questions := questionsData |}.

Definition handleCloseQuestions (s : State) : State :=
  {| selectedFolder := selectedFolder s; showQuestions := false;
     selectedQuestionnaire := None; questions := [] |}.

Inductive Event :=
| FolderSelect (folder : Folder)
| BackToFolders
| ViewQuestions (questionnaire : Questionnaire)
    (questionsData : list Question)
| CloseQuestions.

Definition step (s : State) (e : Event) : State :=
  match e with
  | FolderSelect f => handleFolderSelect f s
  | BackToFolders => handleBackToFolders s
  | ViewQuestions qn qs => handleViewQuestions qn qs s
  | CloseQuestions => handleCloseQuestions s
  end.

Definition run (events : list Event) : State := foldl step initial events.

(** The props of the QuestionnairePanel in the overlay of the left
    panel, rendered when [showQuestions] holds: [questions] and
    [onCloseQuestions] are passed, [onViewQuestions] is not. *)
Definition overlayProps (s : State) : option QuestionnairePanel.Props :=
  if showQuestions s
  then Some {| QuestionnairePanel.questions := Some (questions s);
               QuestionnairePanel.onViewQuestions := false |}
  else None.

(** The overlay lists questions when [selectedQuestionnaire && questions]
    holds; an array is truthy. *)
Definition overlayLists (s : State) : bool :=
  showQuestions s && bool_decide (is_Some (selectedQuestionnaire s)).

(** What the right panel renders. *)
Inductive RightView :=
| FolderView (folder : Folder)
| QuestionnaireView.

Definition rightPanel (s : State) : RightView :=
  match selectedFolder s with
  | Some f => FolderView f
  | None => QuestionnaireView
  end.

(** The parent's reaction to the effects of a handler of the
    QuestionnairePanel in the right panel, which is given
    [onViewQuestions] only. *)
Definition react (s : State) (e : QuestionnaireList.Effect) : State :=
  match e with
  | QuestionnaireList.OnViewQuestions qn qs => handleViewQuestions qn qs s
  | _ => s
  end.

(** The overlay panel rendered with props [p]: mounted when there was
    none, and otherwise the same instance, which keeps its state and gets
    the new props. *)
Definition render (p : QuestionnairePanel.Props)
    (overlay : option QuestionnairePanel.Panel) : QuestionnairePanel.Panel :=
  from_option (QuestionnairePanel.rerender p) (QuestionnairePanel.mount p ∅)
    overlay.

(** A click on View Questions in the right panel, up to the rendering of
    the overlay that results.  [overlay] is the overlay panel as it was,
    if it was open; [truthy] tells the properties of the answer objects
    received (see [QuestionnaireList.lookupAnswer]). *)
Definition openQuestionnaire
    (truthy : QuestionnairePanel.Answer → string → bool)
    (questionnaire : Questionnaire)
    (data : QuestionnairePanel.Settled (option (list Question)))
    (existing : QuestionnairePanel.Settled
                  (option (list (string * QuestionnairePanel.Answer))))
    (list : QuestionnaireList.State) (nav : State)
    (overlay : option QuestionnairePanel.Panel)
    : QuestionnaireList.State * State * option QuestionnairePanel.Panel :=
  let '(list', effects) :=
    QuestionnaireList.handleViewQuestions truthy true questionnaire data
      existing list in
  let nav' := foldl react nav effects in
  (list', nav',
   match overlayProps nav' with
   | Some p => Some (render p (if showQuestions nav then overlay else None))
   | None => None
   end).

End Navigation.


(** ** MainLayout.js: the right panel and the end of a drag *)

Module MainLayoutView.
Import MainLayout.
Local Open Scope Q_scope.

(** [100 - leftWidth], the [width] prop of the right panel. *)
Definition rightWidth (R : Rounding) (s : State) : Num :=
  match leftWidth s with
  | Fin q => fl R (100 - q)
  | PosInf => NegInf
  | NegInf => PosInf
  | NaN => NaN
  end.

Definition isMouseDown (e : Event) : bool :=
  match e with MouseDown => true | _ => false end.

Definition isDoubleClick (e : Event) : bool :=
  match e with DoubleClick => true | _ => false end.

End MainLayoutView.


(** ** PolicyPanel.js: creating a policy folder *)

Module PolicyPanel.

Abbreviation Folder := FolderContents.Folder.
Abbreviation Settled := QuestionnairePanel.Settled.
Abbreviation Resolved := QuestionnairePanel.Resolved.
Abbreviation Rejected := QuestionnairePanel.Rejected.

(** A string as its UTF-16 code units. *)
Abbreviation jsString := (list N).

(** The code units [String.prototype.trim] removes: WhiteSpace and
    LineTerminator of the language specification. *)
Definition whiteSpace : list N :=
  [9; 10; 11; 12; 13; 32; 160; 5760;
   8192; 8193; 8194; 8195; 8196; 8197; 8198; 8199; 8200; 8201; 8202;
   8232; 8233; 8239; 8287; 12288; 65279]%N.

Definition isWhiteSpace (c : N) : bool := bool_decide (c ∈ whiteSpace).

Fixpoint trimStart (s : jsString) : jsString :=
  match s with
  | [] => []
  | c :: rest => if isWhiteSpace c then trimStart rest else s
  end.

Definition trimEnd (s : jsString) : jsString :=
  reverse (trimStart (reverse s)).

Definition trim (s : jsString) : jsString := trimEnd (trimStart s).

Record State := {
  folders : list Folder;
  loading : bool;
  error : option string;
  uploading : bool;
  showModal : bool;
  policyName : jsString
}.

Definition initial : State :=
  {| folders := []; loading := true; error := None; uploading := false;
     showModal := false; policyName := [] |}.

Definition setFolders (l : list Folder) (s : State) : State :=
  {| folders := l; loading := loading s; error := error s;
     uploading := uploading s; showModal := showModal s;
     policyName := policyName s |}.

Definition setLoading (b : bool) (s : State) : State :=
  {| folders := folders s; loading := b; error := error s;
     uploading := uploading s; showModal := showModal s;
     policyName := policyName s |}.

Definition setError (e : option string) (s : State) : State :=
  {| folders := folders s; loading := loading s; error := e;
     uploading := uploading s; showModal := showModal s;
     policyName := policyName s |}.

Definition setUploading (b : bool) (s : State) : State :=
  {| folders := folders s; loading := loading s; error := error s;
     uploading := b; showModal := showModal s;
     policyName := policyName s |}.

Definition setShowModal (b : bool) (s : State) : State :=
  {| folders := folders s; loading := loading s; error := error s;
     uploading := uploading s; showModal := b;
     policyName := policyName s |}.

Definition setPolicyName (n : jsString) (s : State) : State :=
  {| folders := folders s; loading := loading s; error := error s;
     uploading := uploading s; showModal := showModal s;
     policyName := n |}.

Inductive Effect :=
| GetPolicyFolders
| CreateFolder (name : jsString) (policy_type : string)
| Alert (message : string)
| OnFolderSelect (folder : Folder).

(** The answer to [POST /api/policies/folders]: the request is rejected,
    the response is not [ok], its body is not JSON, or all is well. *)
Inductive CreateResponse :=
| CreateRejected
| CreateNotOk
| CreateBadBody
| CreateOk.

#[global] Instance CreateResponse_eq_dec : EqDecision CreateResponse.
Proof. solve_decision. Defined.

(** loadFolders *)
Definition loadFolders (resp : Settled (option (list Folder))) (s : State)
    : State * list Effect :=
  let s1 := setError None (setLoading true s) in
  let s2 :=
    match resp with
    | Resolved data => setFolders (default [] data) s1
    | Rejected _ =>
        setFolders []
          (setError
             (Some "Failed to load policy folders. Please check your connection.")
             s1)
    end in
  (setLoading false s2, [GetPolicyFolders]).

Definition handleAddPolicy (s : State) : State :=
  setPolicyName [] (setShowModal true s).

Definition handleCancelModal (s : State) : State :=
  setPolicyName [] (setShowModal false s).

(** handleCreatePolicy *)
Definition handleCreatePolicy (created : CreateResponse)
    (reload : Settled (option (list Folder))) (s : State)
    : State * list Effect :=
  match trim (policyName s) with
  | [] => (s, [Alert "Please enter a policy name"])
  | name =>
      let s1 := setError None (setUploading true s) in
      let request := CreateFolder name "custom" in
      match created with
      | CreateOk =>
          let '(s2, reqs) := loadFolders reload s1 in
          (setUploading false (setPolicyName [] (setShowModal false s2)),
           [request] ++ reqs ++ [Alert "Policy folder created successfully!"])
      | CreateRejected | CreateNotOk | CreateBadBody =>
          (setUploading false
             (setError
                (Some "Failed to create policy folder. Please try again.")
                s1),
           [request])
      end
  end.

(** handleFolderClick; [onFolderSelect] says whether the prop is given. *)
Definition handleFolderClick (onFolderSelect : bool) (folder : Folder)
    : list Effect :=
  if onFolderSelect then [OnFolderSelect folder] else [].

End PolicyPanel.


(** ** switch-env.sh *)

Module SwitchEnv.

Inductive Environment :=
| Local
| Production.

Definition argument (e : Environment) : string :=
  match e with Local => "local" | Production => "production" end.

Definition apiUrl (e : Environment) : string :=
  match e with
  | Local => "http://localhost:8000"
  | Production => "https://readily-mgtk.onrender.com"
  end.

Definition newline : string := String (ascii_of_nat 10) EmptyString.

(** What [echo "REACT_APP_API_URL=..." > file] leaves in the file. *)
Definition envLine (e : Environment) : string :=
  "REACT_APP_API_URL=" +:+ apiUrl e +:+ newline.

(** The files of the working directory, by name. *)
Abbreviation Files := (gmap string string).

(** [grep -q pattern] on a text, for a pattern of plain letters: some
    position of the text starts with the pattern. *)
Fixpoint grep_q (pattern text : string) : bool :=
  String.prefix pattern text
  || match text with
     | EmptyString => false
     | String _ rest => grep_q pattern rest
     end.

(** [grep -q "localhost" .env] fails when the file does not exist. *)
Definition current (fs : Files) : Environment :=
  match fs !! ".env" with
  | Some text => if grep_q "localhost" text then Local else Production
  | None => Production
  end.

(** What the script prints: the switch it made, or the usage text with
    the current environment. *)
Inductive Output :=
| Switched (e : Environment)
| Usage (reported : Environment).

Definition write (e : Environment) (fs : Files) : Files :=
  <[".env.local" := envLine e]> (<[".env" := envLine e]> fs).

(** The script run with first argument [arg] (empty when none is
    given). *)
Definition switchEnv (arg : string) (fs : Files) : Files * Output :=
  if decide (arg = "local") then (write Local fs, Switched Local)
  else if decide (arg = "production")
       then (write Production fs, Switched Production)
       else (fs, Usage (current fs)).

End SwitchEnv.


(** * Part II: properties *)

(** ** Upload title extraction (FolderContents.js, uploadSingleFile) *)

Section UploadTitleFacts.
Import JsString UploadTitle.

Lemma starts_with_spec (p s : str) :
  starts_with p s = true ↔ ∃ post, s = p ++ post.
Proof.
  revert s. induction p as [|a p IH]; intros s; simpl.
  - split; [intros _; by exists s | done].
  - destruct s as [|b s]; simpl.
    + split; [done | intros [post Hp]; discriminate].
    + case_decide as Hab.
      * subst b. rewrite IH. split.
        -- intros [post ->]. by exists post.
        -- intros [post Hp]. injection Hp as ->. by exists post.
      * split; [done | intros [post Hp]; congruence].
Qed.

Lemma split_no_sep sep (s : str) : sep ∉ s → split sep s = [s].
Proof.
  induction s as [|c s IH]; intros Hs; simpl; [done|].
  apply not_elem_of_cons in Hs as [Hc Hs].
  case_decide; [congruence|]. by rewrite IH.
Qed.

Lemma split_app_sep sep (pre rest : str) :
  sep ∉ pre → split sep (pre ++ sep :: rest) = pre :: split sep rest.
Proof.
  induction pre as [|c pre IH]; intros Hs; simpl.
  - case_decide; [done | congruence].
  - apply not_elem_of_cons in Hs as [Hc Hs].
    case_decide; [congruence|]. by rewrite IH.
Qed.

Lemma count_zero c (s : str) : count c s = 0 → c ∉ s.
Proof.
  unfold count. intros H Hin.
  assert (Hf : c ∈ filter (λ x, x = c) s) by (apply list_elem_of_filter; done).
  destruct (filter (λ x, x = c) s); [by apply not_elem_of_nil in Hf | done].
Qed.

Lemma count_one_split c (s : str) :
  count c s = 1 → ∃ pre ext, s = pre ++ (c :: ext) ∧ (c ∉ pre) ∧ (c ∉ ext).
Proof.
  unfold count. induction s as [|a s IH]; [done|].
  rewrite filter_cons. case_decide as Hac; simpl.
  - subst a. intros H. injection H as H.
    exists [], s. split; [done|]. split; [apply not_elem_of_nil|].
    by apply count_zero.
  - intros H. destruct (IH H) as (pre & ext & -> & Hpre & Hext).
    exists (a :: pre), ext. split; [done|]. split; [|done].
    apply not_elem_of_cons. split; [congruence | done].
Qed.

Lemma replace_skip (pat rep pre s : str) c :
  c ∉ pre → replace (c :: pat) rep (pre ++ s) = pre ++ replace (c :: pat) rep s.
Proof.
  induction pre as [|a pre IH]; intros Hpre; [done|].
  apply not_elem_of_cons in Hpre as [Hc Hpre].
  change ((a :: pre) ++ s) with (a :: (pre ++ s)).
  cbn [replace starts_with]. case_decide; [congruence|].
  simpl. by rewrite IH.
Qed.

Lemma starts_with_refl (p post : str) : starts_with p (p ++ post) = true.
Proof. apply starts_with_spec. by exists post. Qed.

Lemma replace_here (pat rep post : str) :
  replace pat rep (pat ++ post) = rep ++ post.
Proof.
  destruct (pat ++ post) eqn:E; cbn [replace]; rewrite <- E;
    rewrite starts_with_refl, drop_app_length; done.
Qed.

(** [replace] rewrites the leftmost occurrence and nothing else. *)
Lemma replace_first_occurrence (pat rep s pre post : str) :
  s = pre ++ pat ++ post →
  (∀ pre' post', s = pre' ++ pat ++ post' → length pre ≤ length pre') →
  replace pat rep s = pre ++ rep ++ post.
Proof.
  revert s. induction pre as [|a pre IH]; intros s -> Hmin.
  - simpl. apply replace_here.
  - change ((a :: pre) ++ pat ++ post) with (a :: (pre ++ pat ++ post)).
    cbn [replace].
    destruct (starts_with pat (a :: pre ++ pat ++ post)) eqn:Hsw.
    + apply starts_with_spec in Hsw as [post' Hp].
      specialize (Hmin [] post' Hp). simpl in Hmin. lia.
    + simpl. f_equal. apply IH; [done|].
      intros pre' post' Hp.
      specialize (Hmin (a :: pre') post'). simpl in Hmin.
      rewrite Hp in Hmin. specialize (Hmin eq_refl). lia.
Qed.

Lemma replace_absent (pat rep s : str) :
  (∀ pre post, s ≠ pre ++ pat ++ post) → replace pat rep s = s.
Proof.
  induction s as [|a s IH]; intros Hno; cbn [replace].
  - destruct (starts_with pat []) eqn:Hsw; [|done].
    apply starts_with_spec in Hsw as [post Hp]. by destruct (Hno [] post).
  - destruct (starts_with pat (a :: s)) eqn:Hsw.
    + apply starts_with_spec in Hsw as [post Hp]. by destruct (Hno [] post).
    + f_equal. apply IH. intros pre post ->. by apply (Hno (a :: pre) post).
Qed.

Lemma fileExtension_one_dot (pre ext : str) :
  dot ∉ ext → dot ∉ pre → fileExtension (pre ++ dot :: ext) = ext.
Proof.
  intros Hext Hpre. unfold fileExtension, pop.
  by rewrite split_app_sep, split_no_sep.
Qed.

(** C9.  For a file name with exactly one ['.'] the title is the part
    before the dot, and title, dot and extension put together give the
    name back.  For any name, the title is the name with the leftmost
    occurrence of ['.' + extension] cut out, later occurrences stay. *)
Theorem upload_title_roundtrip (name : str) :
  (count dot name = 1 →
     ∃ pre ext, name = pre ++ (dot :: ext) ∧ (dot ∉ pre) ∧
       title name = pre ∧ fileExtension name = ext ∧
       title name ++ (dot :: fileExtension name) = name)
  ∧ (∀ pre post,
       name = pre ++ (dot :: fileExtension name) ++ post →
       (∀ pre' post', name = pre' ++ (dot :: fileExtension name) ++ post' →
                      length pre ≤ length pre') →
       title name = pre ++ post).
Proof.
  split.
  - intros H1. destruct (count_one_split _ _ H1) as (pre & ext & -> & Hpre & Hext).
    exists pre, ext.
    assert (He : fileExtension (pre ++ dot :: ext) = ext)
      by by apply fileExtension_one_dot.
    assert (Ht : title (pre ++ dot :: ext) = pre).
    { unfold title. rewrite He, replace_skip by done.
      rewrite <- (app_nil_r (dot :: ext)) at 2.
      by rewrite replace_here, !app_nil_r. }
    by rewrite Ht, He.
  - intros pre post Hn Hmin. unfold title.
    by rewrite (replace_first_occurrence _ [] name pre post Hn Hmin).
Qed.

Lemma upload_title_roundtrip_witness :
  (∃ pre ext, s2l "report.pdf" = pre ++ (dot :: ext) ∧ (dot ∉ pre) ∧
     title (s2l "report.pdf") = pre ∧ fileExtension (s2l "report.pdf") = ext ∧
     title (s2l "report.pdf") ++ (dot :: fileExtension (s2l "report.pdf"))
       = s2l "report.pdf")
  ∧ title (s2l "a.pdf.pdf") = s2l "a.pdf".
Proof.
  split.
  - apply (proj1 (upload_title_roundtrip (s2l "report.pdf"))). reflexivity.
  - apply (proj2 (upload_title_roundtrip (s2l "a.pdf.pdf")) (s2l "a") (s2l ".pdf")).
    + reflexivity.
    + intros pre' post' H.
      destruct pre' as [|c pre']; [discriminate H | simpl; lia].
Defined.

(** With more than one dot it is the leftmost occurrence of the
    extension that goes, wherever the last dot is. *)
Lemma title_of_repeated_extension :
  title (s2l "my.pdf.backup.pdf") = s2l "my.backup.pdf"
  ∧ title (s2l "archive.tar.gz") = s2l "archive.tar"
  ∧ title (s2l "README") = s2l "README".
Proof. repeat split; reflexivity. Qed.

End UploadTitleFacts.

(** ** The layout split (MainLayout.js) *)

Section MainLayoutFacts.
Import MainLayout.
Local Open Scope Q_scope.

Variable R : Rounding.

Lemma constrainedWidth_finite (q : Q) : inRange (constrainedWidth (Fin q)).
Proof.
  simpl. split.
  - apply Q.min_glb; [apply Q.le_max_r | done].
  - apply Q.le_min_r.
Qed.

Lemma constrainedWidth_not_NaN (w : Num) :
  w ≠ NaN → inRange (constrainedWidth w).
Proof.
  destruct w as [q| | |]; intros Hw.
  - apply constrainedWidth_finite.
  - simpl. split; done.
  - simpl. split; done.
  - done.
Qed.

Lemma newLeftWidth_not_NaN (clientX : Q) (r : DOMRect) :
  0 < rect_width r → newLeftWidth R clientX r ≠ NaN.
Proof.
  intros Hw. unfold newLeftWidth, minus.
  assert (Hz : Qeq_bool (rect_width r) 0 = false).
  { destruct (Qeq_bool (rect_width r) 0) eqn:E; [|done].
    apply Qeq_bool_eq in E. rewrite E in Hw. by apply Qlt_irrefl in Hw. }
  assert (Hp : Qle_bool 0 (rect_width r) = true)
    by (apply Qle_bool_iff; by apply Qlt_le_weak).
  pose proof (fl_number R (clientX - rect_left r)) as Hd.
  destruct (fl R (clientX - rect_left r)) as [q| | |]; [| | |done].
  - unfold divide. rewrite Hz.
    pose proof (fl_number R (q / rect_width r)) as Hq.
    destruct (fl R (q / rect_width r)) as [q'| | |]; [|done..].
    apply fl_number.
  - unfold divide. by rewrite Hp.
  - unfold divide. by rewrite Hp.
Qed.

Lemma step_inRange (s : State) (e : Event) :
  wf_event e → inRange (leftWidth s) → inRange (leftWidth (step R s e)).
Proof.
  intros He Hs. destruct e as [|x|r| |]; simpl.
  - exact Hs.
  - unfold handleMouseMove. by destruct (isResizing s).
  - unfold animationFrame. destruct (frames s) as [|x rest]; [done|].
    simpl. by apply constrainedWidth_not_NaN, newLeftWidth_not_NaN.
  - exact Hs.
  - split; done.
Qed.

Lemma fold_inRange (evs : list Event) (s : State) :
  Forall wf_event evs → inRange (leftWidth s) →
  inRange (leftWidth (fold_left (step R) evs s)).
Proof.
  intros Hevs. revert s. induction Hevs as [|e evs He _ IH]; intros s Hs; simpl.
  - done.
  - apply IH. by apply step_inRange.
Qed.

(** C8, as the code has it.  [leftWidth] starts at 50, a double click
    sets it to 50, and after any sequence of events in which every
    animation frame finds the container with a positive width it is a
    number from 20 to 80, however the arithmetic rounds. *)
Theorem leftWidth_in_range (evs : list Event) :
  Forall wf_event evs →
  leftWidth initial = Fin 50 ∧
  (∀ s, leftWidth (handleDoubleClick s) = Fin 50) ∧
  inRange (leftWidth (run R evs)).
Proof.
  intros Hevs. split; [done|]. split; [done|].
  apply (fold_inRange evs initial Hevs). split; done.
Qed.

End MainLayoutFacts.

Section MainLayoutExamples.
Import MainLayout.
Local Open Scope Q_scope.

Lemma leftWidth_in_range_witness :
  leftWidth initial = Fin 50 ∧
  (∀ s, leftWidth (handleDoubleClick s) = Fin 50) ∧
  inRange (leftWidth (run exact drag_far_right)).
Proof.
  apply (leftWidth_in_range exact drag_far_right).
  repeat constructor; reflexivity.
Defined.

(** What the positive width keeps out: a frame that reads a container of
    width zero with the pointer on its left edge computes [0 / 0], and the
    clamp hands the [NaN] on. *)
Remark zero_width_frame :
  leftWidth (run exact
               [MouseDown; MouseMove 0;
                AnimationFrame {| rect_left := 0; rect_width := 0 |}]) = NaN.
Proof. reflexivity. Qed.

(** C8 as worded fails: the state after a mouse down on the resizer, a
    move with the pointer on the left edge, and the animation frame of
    that move run on a container of width zero is reachable, and its
    [leftWidth] is [NaN], not a number from 20 to 80.  ([0 - 0] is [0]
    and [0 / 0] is [NaN] in doubles as well.) *)
Lemma zero_width_frame_leaves_range :
  ¬ inRange (leftWidth (run exact
                          [MouseDown; MouseMove 0;
                           AnimationFrame {| rect_left := 0;
                                             rect_width := 0 |}])).
Proof. intros H. exact H. Qed.

(** At the right edge the width stops at 80, at the left edge at 20. *)
Lemma drag_stops_at_the_bounds :
  leftWidth (run exact (take 3 drag_far_right)) = Fin 80
  ∧ leftWidth (run exact drag_far_right) = Fin 20.
Proof. split; vm_compute; reflexivity. Qed.

End MainLayoutExamples.

(** ** Refreshing a folder (FolderContents.js, handleRefresh) *)

Section RefreshFacts.
Import FolderContents RefreshExamples.

Lemma checkAll_spec (seen : gset string) (docs : list Doc) (s : State) :
  lastRefreshTime (checkAll seen docs s).1 = lastRefreshTime s ∧
  documents (checkAll seen docs s).1 = documents s ∧
  fetches (checkAll seen docs s).2 = 0.
Proof.
  revert s. induction docs as [|d rest IH]; intros s; [done|].
  cbn [checkAll]. unfold checkDocumentStatus.
  destruct (decide (doc_id d ∈ seen)) as [Hin|Hin].
  - destruct (checkAll seen rest s) as [s2 r2] eqn:E.
    specialize (IH s). rewrite E in IH. exact IH.
  - destruct (checkAll seen rest _) as [s2 r2] eqn:E.
    match type of E with checkAll _ _ ?s0 = _ => specialize (IH s0) end.
    rewrite E in IH. exact IH.
Qed.

Lemma handleRefresh_suppressed folder now resp (s : State) :
  (now - lastRefreshTime s < 1000)%Z →
  handleRefresh folder now resp s = (s, []).
Proof. intros H. unfold handleRefresh. by rewrite decide_True. Qed.

Lemma handleRefresh_fetches folder now resp (s : State) :
  fetches (handleRefresh folder now resp s).2 ≤ 1.
Proof.
  unfold handleRefresh. case_decide; [cbv; lia|].
  destruct folder as [f|]; [|cbv; lia].
  destruct resp as [| |[data|]]; try (cbv; lia).
  destruct (checkAll _ data _) as [s4 checks] eqn:E.
  pose proof (checkAll_spec (statusCheckInProgress s) data
    (setDocuments data (setLoading true (setLastRefreshTime now s)))) as (_ & _ & Hf).
  rewrite E in Hf. simpl in Hf. simpl.
  unfold fetches in *. rewrite filter_cons. simpl. lia.
Qed.

Lemma handleRefresh_accepted_time folder now resp (s : State) :
  ¬ (now - lastRefreshTime s < 1000)%Z →
  lastRefreshTime (handleRefresh folder now resp s).1 = now.
Proof.
  intros H. unfold handleRefresh. rewrite decide_False by done.
  destruct folder as [f|]; [|done].
  destruct resp as [| |[data|]]; try done.
  destruct (checkAll _ data _) as [s4 checks] eqn:E.
  pose proof (checkAll_spec (statusCheckInProgress s) data
    (setDocuments data (setLoading true (setLastRefreshTime now s)))) as (Ht & _).
  rewrite E in Ht. simpl in *. done.
Qed.

Lemma fetches_app (q1 q2 : list Request) :
  fetches (q1 ++ q2) = fetches q1 + fetches q2.
Proof. unfold fetches. by rewrite filter_app, length_app. Qed.

(** C10, as the code has it.  Two calls of handleRefresh less than
    1000 ms apart send at most one document request between them; and
    when the first call was let through (so that it recorded its time) the
    second returns at the check: it sends nothing and leaves the whole
    state, with documents, statuses and last refresh time, as it was. *)
Theorem refresh_debounced folder (t1 t2 : Z) r1 r2 (s s1 s2 : State) q1 q2 :
  (t2 - t1 < 1000)%Z →
  handleRefresh folder t1 r1 s = (s1, q1) →
  handleRefresh folder t2 r2 s1 = (s2, q2) →
  fetches (q1 ++ q2) ≤ 1 ∧
  (¬ (t1 - lastRefreshTime s < 1000)%Z → q2 = [] ∧ s2 = s1).
Proof.
  intros Hclose H1 H2.
  assert (Hacc : ¬ (t1 - lastRefreshTime s < 1000)%Z → q2 = [] ∧ s2 = s1).
  { intros Hpass.
    pose proof (handleRefresh_accepted_time folder t1 r1 s Hpass) as Ht.
    rewrite H1 in Ht. simpl in Ht.
    rewrite handleRefresh_suppressed in H2 by (rewrite Ht; lia).
    by injection H2 as <- <-. }
  split; [|exact Hacc].
  rewrite fetches_app.
  destruct (decide (t1 - lastRefreshTime s < 1000)%Z) as [Hsup|Hpass].
  - rewrite handleRefresh_suppressed in H1 by done. injection H1 as <- <-.
    pose proof (handleRefresh_fetches folder t2 r2 s) as Hf.
    rewrite H2 in Hf. simpl in *. exact Hf.
  - destruct (Hacc Hpass) as [-> _].
    pose proof (handleRefresh_fetches folder t1 r1 s) as Hf.
    rewrite H1 in Hf. simpl in *. unfold fetches at 2. simpl. lia.
Qed.

Lemma refresh_debounced_witness :
  fetches (refresh_example.1.2 ++ refresh_example.2) ≤ 1 ∧
  (¬ (5000 - lastRefreshTime initial < 1000)%Z →
   refresh_example.2 = [] ∧ refresh_example.1.1.2 = refresh_example.1.1.1).
Proof.
  apply (refresh_debounced (Some policies) 5000 5400
           (DocsOk (Some [handbook])) (DocsOk (Some [])) initial).
  - lia.
  - reflexivity.
  - reflexivity.
Defined.

(** C10 as worded fails when the first of the two calls was itself
    suppressed: the window is measured from the last accepted refresh, so
    the second call, 501 ms after the first, goes out and records its
    time. *)
Lemma refresh_second_call_fetches :
  (1001500 - 1000999 < 1000)%Z ∧
  ¬ ((refresh_after_suppressed).2 = [] ∧
     (refresh_after_suppressed).1.1.2 = (refresh_after_suppressed).1.1.1).
Proof.
  split; [lia|]. intros [Hq _]. vm_compute in Hq. discriminate Hq.
Qed.

End RefreshFacts.

(** ** The upload queue (FolderContents.js, uploadMultipleFiles) *)

Section UploadQueueFacts.
Import JsString FolderContents UploadQueue.

Variable clock : nat → Z.
Variable outcome : nat → option string.

Lemma trace_app (a b : list Action) (s : State) :
  trace (a ++ b) s = trace a s ++ trace b (run a s).
Proof.
  revert s. induction a as [|x a IH]; intros s; simpl; [done|].
  by rewrite IH.
Qed.

Lemma run_app (a b : list Action) (s : State) :
  run (a ++ b) s = run b (run a s).
Proof. unfold run. by rewrite fold_left_app. Qed.

Lemma Progress_app shown p T1 p1 T2 p2 :
  Progress shown p T1 p1 → Progress shown p1 T2 p2 →
  Progress shown p (T1 ++ T2) p2.
Proof.
  induction 1 as [p|p T p' _ IH|p T p' _ IH]; intros H2; simpl.
  - done.
  - apply Progress_stay. by apply IH.
  - apply Progress_step. by apply IH.
Qed.

Lemma stamped_id_eq (a b : QueueItem) :
  stamped clock a → stamped clock b →
  item_id a = item_id b ↔ index (item_id a) = index (item_id b).
Proof.
  unfold stamped. destruct (item_id a) as [ta ia], (item_id b) as [tb ib].
  simpl. intros -> ->. split; [by intros [= _ ->] | by intros ->].
Qed.

Lemma itemAfter_id p (it : QueueItem) :
  item_id (itemAfter outcome p it) = item_id it ∧
  item_file (itemAfter outcome p it) = item_file it.
Proof.
  unfold itemAfter. repeat case_decide; try done.
  by destruct (outcome _).
Qed.

Lemma itemAfter_status p (it : QueueItem) :
  item_status it = "pending" →
  item_status (itemAfter outcome p it)
    = statusAfter outcome p (index (item_id it)).
Proof.
  intros Hp. unfold itemAfter, statusAfter. repeat case_decide; try done.
  by destruct (outcome _).
Qed.

(** Marking item [k] as uploading takes the queue from [2k] to [2k+1]
    updates. *)
Lemma markUploading_queueAfter (queue : list QueueItem) (item : QueueItem) :
  Forall (stamped clock) queue → stamped clock item →
  updateItem (item_id item)
    (λ it, withStatus "uploading" (item_progress it) (item_error it) it)
    (queueAfter outcome queue (2 * index (item_id item)))
  = queueAfter outcome queue (2 * index (item_id item) + 1).
Proof.
  intros Hq Hitem. unfold updateItem, queueAfter.
  rewrite <- list_fmap_compose. apply Forall_fmap_ext_1.
  eapply Forall_impl; [exact Hq|]. intros it Hit. unfold compose.
  destruct (itemAfter_id (2 * index (item_id item)) it) as [Hid _].
  rewrite Hid.
  destruct (decide (item_id it = item_id item)) as [He|Hne].
  - unfold itemAfter. rewrite He.
    repeat case_decide; try lia. done.
  - assert (index (item_id it) ≠ index (item_id item))
      by (by rewrite <- stamped_id_eq).
    unfold itemAfter. repeat case_decide; try lia; done.
Qed.

(** The result of the upload takes it from [2k+1] to [2k+2]. *)
Lemma markDone_queueAfter (queue : list QueueItem) (item : QueueItem) (s : State) :
  Forall (stamped clock) queue → stamped clock item →
  uploadQueue s = queueAfter outcome queue (2 * index (item_id item) + 1) →
  uploadQueue (apply
    (match outcome (index (item_id item)) with
     | None => MarkCompleted (item_id item)
     | Some msg => MarkError (item_id item) msg
     end) s)
  = queueAfter outcome queue (2 * index (item_id item) + 2).
Proof.
  intros Hq Hitem Hs.
  assert (Hpt : ∀ it, stamped clock it →
    (if decide (item_id (itemAfter outcome (2 * index (item_id item) + 1) it)
                = item_id item)
     then match outcome (index (item_id item)) with
          | None => withStatus "completed" 100
                      (item_error (itemAfter outcome (2 * index (item_id item) + 1) it))
                      (itemAfter outcome (2 * index (item_id item) + 1) it)
          | Some msg => withStatus "error"
                      (item_progress (itemAfter outcome (2 * index (item_id item) + 1) it))
                      (Some msg)
                      (itemAfter outcome (2 * index (item_id item) + 1) it)
          end
     else itemAfter outcome (2 * index (item_id item) + 1) it)
    = itemAfter outcome (2 * index (item_id item) + 2) it).
  { intros it Hit.
    destruct (itemAfter_id (2 * index (item_id item) + 1) it) as [Hid _].
    rewrite Hid.
    destruct (decide (item_id it = item_id item)) as [He|Hne].
    - unfold itemAfter. rewrite He.
      repeat case_decide; try lia.
      by destruct (outcome (index (item_id item))).
    - assert (index (item_id it) ≠ index (item_id item))
        by (by rewrite <- stamped_id_eq).
      unfold itemAfter. repeat case_decide; try lia; done. }
  destruct (outcome (index (item_id item))) as [msg|] eqn:Eo;
    cbn [apply setUploadQueue uploadQueue]; rewrite Hs;
    unfold updateItem, queueAfter; rewrite <- list_fmap_compose;
    apply Forall_fmap_ext_1; (eapply Forall_impl; [exact Hq|]);
    intros it Hit; unfold compose; specialize (Hpt it Hit);
    rewrite ?Eo in Hpt; exact Hpt.
Qed.

Lemma uploadOne_progress f (queue : list QueueItem) (item : QueueItem) (s : State) :
  Forall (stamped clock) queue → stamped clock item →
  uploadQueue s = queueAfter outcome queue (2 * index (item_id item)) →
  Progress (queueAfter outcome queue) (2 * index (item_id item))
    (trace (uploadOne f outcome item) s) (2 * index (item_id item) + 2)
  ∧ uploadQueue (run (uploadOne f outcome item) s)
    = queueAfter outcome queue (2 * index (item_id item) + 2).
Proof.
  intros Hq Hitem Hs. set (k := index (item_id item)) in *.
  assert (H1 : uploadQueue (apply (MarkUploading (item_id item))
                 (apply (SetCurrentUpload (Some item)) s))
               = queueAfter outcome queue (2 * k + 1)).
  { cbn [apply setUploadQueue setCurrentUpload uploadQueue]. rewrite Hs.
    by apply markUploading_queueAfter. }
  pose proof (markDone_queueAfter queue item _ Hq Hitem H1) as H2.
  fold k in H2.
  unfold uploadOne, run. cbn [trace fold_left]. fold k.
  assert (HA : ∀ x, apply Await x = x) by done.
  assert (HS : ∀ r x, apply (Send r) x = x) by done.
  rewrite !HA, !HS, H2, H1.
  change (uploadQueue (apply (SetCurrentUpload (Some item)) s))
    with (uploadQueue s). rewrite Hs.
  split; [|done].
  apply Progress_stay. replace (2 * k + 1) with (S (2 * k)) by lia.
  apply Progress_step. do 2 apply Progress_stay.
  replace (2 * k + 2) with (S (S (2 * k))) by lia.
  apply Progress_step. apply Progress_stay. apply Progress_nil.
Qed.

Lemma enqueue_stamped k (files : list File) :
  Forall (stamped clock) (enqueue clock k files).
Proof.
  revert k. induction files as [|f files IH]; intros k; simpl; [done|].
  constructor; [done | apply IH].
Qed.

Lemma loop_progress f (queue : list QueueItem) (files : list File) k (s : State) :
  Forall (stamped clock) queue →
  uploadQueue s = queueAfter outcome queue (2 * k) →
  Progress (queueAfter outcome queue) (2 * k)
    (trace (enqueue clock k files ≫= uploadOne f outcome) s)
    (2 * (k + length files))
  ∧ uploadQueue (run (enqueue clock k files ≫= uploadOne f outcome) s)
    = queueAfter outcome queue (2 * (k + length files)).
Proof.
  intros Hq. revert k s. induction files as [|file files IH]; intros k s Hs.
  - cbn [enqueue length]. rewrite Nat.add_0_r. split; [apply Progress_nil | done].
  - cbn [enqueue]. rewrite bind_cons, trace_app, run_app.
    set (item := {| item_id := {| stamp := clock k; index := k |};
                    item_file := file; item_status := "pending";
                    item_progress := 0; item_error := None |}).
    destruct (uploadOne_progress f queue item s Hq eq_refl Hs) as [Hp Hr].
    change (index (item_id item)) with k in Hp, Hr.
    destruct (IH (S k) (run (uploadOne f outcome item) s)) as [Hp' Hr'].
    { rewrite Hr. f_equal. lia. }
    replace (2 * (k + length (file :: files)))
      with (2 * (S k + length files)) by (simpl; lia).
    split; [|done].
    eapply Progress_app; [exact Hp|].
    replace (2 * k + 2) with (2 * S k) by lia. exact Hp'.
Qed.

Lemma trace_neutral (acts : list Action) (s : State) :
  Forall neutral acts →
  trace acts s = replicate (length acts) (uploadQueue s)
  ∧ uploadQueue (run acts s) = uploadQueue s.
Proof.
  intros H. revert s. induction H as [|a acts Ha _ IH]; intros s; [done|].
  assert (Hq : uploadQueue (apply a s) = uploadQueue s) by (by destruct a).
  unfold run in *. simpl. destruct (IH (apply a s)) as [-> ->].
  by rewrite Hq.
Qed.

Lemma reloadDocuments_neutral f resp : Forall neutral (reloadDocuments f resp).
Proof. destruct resp as [| |[data|]]; repeat constructor. Qed.

Lemma Progress_replicate shown p k :
  Progress shown p (replicate k (shown p)) p.
Proof. induction k; simpl; [apply Progress_nil | by apply Progress_stay]. Qed.

Lemma Progress_head shown p q T p' :
  Progress shown p (q :: T) p' →
  ∃ r, q = shown r ∧ (r = p ∨ r = S p) ∧ Progress shown r T p'.
Proof. inversion 1; subst; eauto. Qed.

Lemma Progress_elem shown p T p' q :
  Progress shown p T p' → q ∈ T → ∃ r, q = shown r.
Proof.
  induction 1 as [p|p T p' _ IH|p T p' _ IH]; intros Hin.
  - by apply elem_of_nil in Hin.
  - apply elem_of_cons in Hin as [->|Hin]; eauto.
  - apply elem_of_cons in Hin as [->|Hin]; eauto.
Qed.

Lemma Progress_consecutive shown p T p' i q q' :
  Progress shown p T p' → T !! i = Some q → T !! S i = Some q' →
  ∃ r, q = shown r ∧ (q' = shown r ∨ q' = shown (S r)).
Proof.
  intros HP. revert i. induction HP as [p|p T p' HP IH|p T p' HP IH];
    intros i Hi HSi; [done| |].
  - destruct i as [|i]; [|by apply (IH i)].
    injection Hi as <-. destruct T as [|q2 T]; [done|].
    injection HSi as ->. exists p. split; [done|].
    apply Progress_head in HP as (r & -> & [->| ->] & _); auto.
  - destruct i as [|i]; [|by apply (IH i)].
    injection Hi as <-. destruct T as [|q2 T]; [done|].
    injection HSi as ->. exists (S p). split; [done|].
    apply Progress_head in HP as (r & -> & [->| ->] & _); auto.
Qed.

Lemma Progress_last shown p T p' q :
  Progress shown p T p' → last T = Some q → q = shown p'.
Proof.
  induction 1 as [p|p T p' HP IH|p T p' HP IH]; intros Hl; [done| |].
  - destruct T as [|q2 T]; [|by apply IH].
    injection Hl as <-. by inversion HP.
  - destruct T as [|q2 T]; [|by apply IH].
    injection Hl as <-. by inversion HP.
Qed.

Lemma enqueue_pending k (files : list File) :
  Forall (λ it, item_status it = "pending" ∧
                k ≤ index (item_id it) < k + length files)
         (enqueue clock k files)
  ∧ item_file <$> enqueue clock k files = files.
Proof.
  revert k. induction files as [|f files IH]; intros k; simpl; [done|].
  destruct (IH (S k)) as [Hall Hfiles]. split; [|by f_equal].
  constructor; [simpl; split; [done | lia]|].
  eapply Forall_impl; [exact Hall|]. simpl. intros it [? ?]. split; [done | lia].
Qed.

Lemma statusAfter_observable p i : observable (statusAfter outcome p i).
Proof.
  unfold statusAfter, observable. repeat case_decide; auto.
  destruct (outcome i); auto.
Qed.

Lemma statusAfter_advances p i :
  advances (statusAfter outcome p i) (statusAfter outcome (S p) i).
Proof.
  unfold statusAfter, advances, terminal.
  repeat case_decide; try lia; auto; destruct (outcome i); auto.
Qed.

Lemma statusAfter_terminal p i : 2 * i + 2 ≤ p → terminal (statusAfter outcome p i).
Proof.
  intros H. unfold statusAfter, terminal.
  repeat case_decide; try lia. destruct (outcome i); auto.
Qed.

Lemma queueAfter_sameItem (queue : list QueueItem) r r' :
  Forall (λ it, item_status it = "pending") queue →
  r' = r ∨ r' = S r →
  Forall2 sameItem (queueAfter outcome queue r) (queueAfter outcome queue r').
Proof.
  intros Hq Hr. unfold queueAfter. apply Forall2_fmap, Forall_Forall2_diag.
  eapply Forall_impl; [exact Hq|]. intros it Hit. unfold sameItem.
  destruct (itemAfter_id r it) as [-> ->].
  destruct (itemAfter_id r' it) as [-> ->].
  rewrite !itemAfter_status by done. split; [done|]. split; [done|].
  destruct Hr as [-> | ->]; [by left | apply statusAfter_advances].
Qed.

(** X6 (uploadMultipleFiles).  Within one run, seen through the successive
    values of [uploadQueue] up to the moment the timer is armed:
    the queue starts as the selected files, all pending; from one value to
    the next every item is still there, with the same file, and its
    status is unchanged or has moved from pending to uploading or from
    uploading to completed or error; every status shown is one of the
    four; at the end every item is completed or error.  The queue is
    emptied by the timer callback only. *)
Lemma upload_run_lifecycle f resp (files : list File) (s0 : State) :
  let queue := enqueue clock 0 files in
  let T := trace (uploadBody f clock outcome resp files) s0 in
  (T !! 0 = Some queue ∧
   Forall (λ it, item_status it = "pending") queue ∧
   item_file <$> queue = files)
  ∧ (∀ i q q', T !! i = Some q → T !! S i = Some q' → Forall2 sameItem q q')
  ∧ (∀ q, q ∈ T → Forall (λ it, observable (item_status it)) q)
  ∧ (∃ q, last T = Some q ∧ Forall (λ it, terminal (item_status it)) q)
  ∧ uploadQueue (run uploadCleanup (run (uploadBody f clock outcome resp files) s0)) = [].
Proof.
  intros queue T.
  destruct (enqueue_pending 0 files) as [Hpend Hfiles].
  assert (Hp : Forall (λ it, item_status it = "pending") queue)
    by (eapply Forall_impl; [exact Hpend|]; by intros it [? _]).
  assert (Hst : Forall (stamped clock) queue) by apply enqueue_stamped.
  assert (H0 : queueAfter outcome queue 0 = queue).
  { unfold queueAfter. rewrite <- (list_fmap_id queue) at 2.
    apply list_fmap_ext. intros i it _. unfold itemAfter.
    by rewrite decide_True by lia. }
  set (s1 := apply (SetUploading true) (apply (SetUploadQueue queue) s0)).
  destruct (loop_progress f queue files 0 s1 Hst) as [HP Hrun];
    [by change (2 * 0) with 0; rewrite H0|].
  fold queue in HP, Hrun. simpl in HP, Hrun.
  set (n2 := length files + (length files + 0)) in *.
  set (sl := run (queue ≫= uploadOne f outcome) s1) in *.
  destruct (length (reloadDocuments f resp)) as [|k] eqn:Ek;
    [by destruct resp as [| |[?|]]|].
  assert (HT : T = queue :: queue ::
               trace (queue ≫= uploadOne f outcome) s1
               ++ replicate (S k) (queueAfter outcome queue n2)).
  { unfold T, uploadBody. fold queue. cbn [app trace]. fold s1.
    do 2 f_equal. rewrite trace_app. fold sl. f_equal.
    destruct (trace_neutral _ sl (reloadDocuments_neutral f resp)) as [-> _].
    by rewrite Ek, Hrun. }
  assert (HPT : Progress (queueAfter outcome queue) 0 T n2).
  { assert (HP0 : Progress (queueAfter outcome queue) 0
              (queueAfter outcome queue 0 :: queueAfter outcome queue 0 ::
               trace (queue ≫= uploadOne f outcome) s1
               ++ replicate (S k) (queueAfter outcome queue n2)) n2).
    { do 2 apply Progress_stay. eapply Progress_app; [exact HP|].
      apply Progress_replicate. }
    rewrite H0 in HP0. by rewrite HT. }
  split; [by rewrite HT|]. split; [|split; [|split]].
  - intros i q q' Hi HSi.
    destruct (Progress_consecutive _ _ _ _ _ _ _ HPT Hi HSi) as (r & -> & [->| ->]);
      apply queueAfter_sameItem; auto.
  - intros q Hq. destruct (Progress_elem _ _ _ _ _ HPT Hq) as [r ->].
    unfold queueAfter. apply Forall_fmap.
    eapply Forall_impl; [exact Hp|]. intros it Hit. simpl.
    rewrite itemAfter_status by done. apply statusAfter_observable.
  - exists (queueAfter outcome queue n2). split.
    + assert (T = (queue :: queue ::
                   trace (queue ≫= uploadOne f outcome) s1
                   ++ replicate k (queueAfter outcome queue n2))
                  ++ [queueAfter outcome queue n2]) as ->
        by (rewrite HT, replicate_S_end; simpl; by rewrite <- app_assoc).
      by rewrite last_snoc.
    + unfold queueAfter. apply Forall_fmap.
      eapply Forall_impl; [exact Hpend|]. intros it [Hit Hidx]. simpl.
      rewrite itemAfter_status by done. apply statusAfter_terminal.
      unfold n2. lia.
  - done.
Qed.

End UploadQueueFacts.

Section OverlappingUploads.
Import JsString FolderContents UploadQueue UploadExamples.

(** C7, at two overlapping runs of uploadMultipleFiles.  The second
    run replaces the queue while item [b] of the first is still pending:
    [b] is shown as pending, then is gone from the queue and never shown
    again, so it is never shown completed or failed.  Later the timer of
    the first run empties the queue while item [c] of the second run is
    still uploading. *)
Theorem overlapping_uploads_drop_items :
  let T := trace overlapped initial in
  (∃ q q', T !! 5 = Some q ∧ T !! 6 = Some q' ∧
     shows item_b_id "pending" q ∧ absent item_b_id q')
  ∧ Forall (absent item_b_id) (drop 6 T)
  ∧ (∃ q, T !! 25 = Some q ∧ T !! 26 = Some [] ∧
       shows item_c_id "uploading" q).
Proof.
  intros T. split; [|split].
  - eexists _, _. split; [vm_compute; reflexivity|].
    split; [vm_compute; reflexivity|]. split.
    + eexists. split; [apply list_elem_of_further, list_elem_of_here|].
      split; reflexivity.
    + unfold absent. repeat constructor. discriminate.
  - apply (bool_decide_unpack
             (Forall (λ q, Forall (λ it, item_id it ≠ item_b_id) q) (drop 6 T))).
    vm_compute. reflexivity.
  - eexists. split; [vm_compute; reflexivity|].
    split; [vm_compute; reflexivity|].
    eexists. split; [apply list_elem_of_here|]. split; reflexivity.
Qed.

End OverlappingUploads.

(** ** Answering one question (QuestionnairePanel.js, handleAnswerQuestion) *)

Section AnswerFacts.
Import QuestionnairePanel PanelExamples.

Lemma generations_app (a b : list Call) :
  generations (a ++ b) = generations a + generations b.
Proof. unfold generations. by rewrite filter_app, length_app. Qed.

Lemma afterRetry_answering id w e m (s : State) :
  answeringQuestions (afterRetry id w e m s) = answeringQuestions s ∖ {[id]}.
Proof.
  unfold afterRetry. by destruct (usable (resolved (retry_answer w))) as [[? ?]|].
Qed.

(** The handler's continuation as services/api.js makes it. *)
Lemma resume_eq closure q w (s : State) :
  resume closure q w s
  = (afterRetry (question_id q) w None (type_error w) s, []).
Proof. reflexivity. Qed.

Lemma resume_answering closure q w (s : State) :
  answeringQuestions (resume closure q w s).1
    = answeringQuestions s ∖ {[question_id q]}.
Proof. rewrite resume_eq. apply afterRetry_answering. Qed.

Lemma start_answering closure q (s : State) :
  answeringQuestions (start closure q s).1.1
    = if (start closure q s).2
      then answeringQuestions s ∪ {[question_id q]}
      else answeringQuestions s ∖ {[question_id q]}.
Proof.
  unfold start.
  destruct (get (questionAnswers closure) (question_id q)); [done|].
  by destruct (existingAnswer q).
Qed.

(** An own entry is what a read finds. *)
Lemma get_own {A} (o : gmap string (Value A)) (k : string) (v : Value A) :
  o !! k = Some v → get o k = Some v.
Proof. intros H. unfold get. by rewrite H. Qed.

Lemma get_ordinary {A} (o : gmap string (Value A)) (k : string) :
  inherited k = false → get o k = o !! k.
Proof. intros H. unfold get. rewrite H. by destruct (o !! k). Qed.

(** C1, as the code has it.  When an answer for the question is held in
    [questionAnswers] or in the question's [existingAnswer], the handler
    returns without a single request, whatever the question id.  When
    the answer is held in [questionAnswers] itself, or nothing is held
    there and the question id is not the name of a member of
    [Object.prototype], the stored answer is the answer of the question
    afterwards, held in [questionAnswers]. *)
Theorem answer_again_is_cached (q : Question) (w : World) (s : State)
    (a : Answer) :
  questionAnswers s !! question_id q = Some (Ref a) ∨
  existingAnswer q = Some (Ref a) →
  (handleAnswerQuestion q w s).2 = []
  ∧ (questionAnswers s !! question_id q = Some (Ref a) ∨
     (questionAnswers s !! question_id q = None ∧
      inherited (question_id q) = false) →
     shownAnswer q (handleAnswerQuestion q w s).1 = Some (Ref a)
     ∧ questionAnswers (handleAnswerQuestion q w s).1 !! question_id q
       = Some (Ref a)).
Proof.
  intros Hs. unfold handleAnswerQuestion, start, shownAnswer.
  destruct (get (questionAnswers s) (question_id q)) as [v|] eqn:Eg.
  - cbn. split; [done|]. intros [Hown|[Hnone Hord]].
    + by rewrite (get_own _ _ _ Hown).
    + rewrite (get_ordinary _ _ Hord) in Eg. congruence.
  - assert (Hnone : questionAnswers s !! question_id q = None).
    { unfold get in Eg. by destruct (questionAnswers s !! question_id q). }
    destruct Hs as [Hown|He]; [congruence|]. rewrite He. cbn.
    split; [done|]. intros _.
    rewrite (get_own _ _ (Ref a)) by apply lookup_insert_eq.
    split; [done|]. apply lookup_insert_eq.
Qed.

Lemma answer_again_is_cached_witness :
  (handleAnswerQuestion question1 allDown
     (handleAnswerQuestion question1 allGood mounted).1).2 = []
  ∧ (questionAnswers (handleAnswerQuestion question1 allGood mounted).1
       !! question_id question1 = Some (Ref (withEvidence yes90 None)) ∨
     (questionAnswers (handleAnswerQuestion question1 allGood mounted).1
        !! question_id question1 = None ∧
      inherited (question_id question1) = false) →
     shownAnswer question1
       (handleAnswerQuestion question1 allDown
          (handleAnswerQuestion question1 allGood mounted).1).1
       = Some (Ref (withEvidence yes90 None))
     ∧ questionAnswers
         (handleAnswerQuestion question1 allDown
            (handleAnswerQuestion question1 allGood mounted).1).1
         !! question_id question1
       = Some (Ref (withEvidence yes90 None))).
Proof.
  apply (answer_again_is_cached question1 allDown
           (handleAnswerQuestion question1 allGood mounted).1
           (withEvidence yes90 None)).
  left. vm_compute. reflexivity.
Defined.

(** C1 as worded fails for a question whose id names a member of
    [Object.prototype].  The question is listed with an answer from the
    database in [existingAnswer] and [questionAnswers] is empty: the
    handler finds [questionAnswers["constructor"]] truthy and returns at
    its first check, without a request but also without the copy, and
    what renderAnswer then takes for the answer of the question is the
    inherited function, not the stored answer. *)
Lemma inherited_id_hides_stored_answer :
  let s := panel_state (mount overlayConstructor ∅) in
  let r := handleAnswerQuestion questionConstructor allGood s in
  existingAnswer questionConstructor = Some (Ref yes90)
  ∧ r.2 = []
  ∧ shownAnswer questionConstructor r.1 ≠ Some (Ref yes90)
  ∧ questionAnswers r.1 !! "constructor" = None.
Proof. cbn zeta. split_and!; [done|done| |done]. vm_compute. discriminate. Qed.

(** A second invocation after one that left an entry in
    [questionAnswers] makes no request and changes no stored answer. *)
Lemma answer_twice (q : Question) (w1 w2 : World) (s : State)
    (v : Value Answer) :
  questionAnswers (handleAnswerQuestion q w1 s).1 !! question_id q = Some v →
  (handleAnswerQuestion q w2 (handleAnswerQuestion q w1 s).1).2 = []
  ∧ questionAnswers (handleAnswerQuestion q w2 (handleAnswerQuestion q w1 s).1).1
    = questionAnswers (handleAnswerQuestion q w1 s).1.
Proof.
  intros H. unfold handleAnswerQuestion at 1 3. unfold start.
  by rewrite (get_own _ _ _ H).
Qed.

End AnswerFacts.

Section FailureFacts.
Import QuestionnairePanel PanelExamples.

(** C5, as the code has it.  However an invocation ends, the question id
    is out of [answeringQuestions] afterwards.  For a question for which
    the handler goes on to its requests, the error is caught and [error]
    holds the failure message made from the message of the error caught;
    when the generation request the handler waits for is rejected or
    gives no usable answer, [questionAnswers] is left as it was; when it
    gives a usable answer, that answer is stored under the question id
    with [evidence_data] null, the evidence lookup having failed, although
    the invocation ends with the error recorded. *)
Theorem failure_clears_marker (q : Question) (w : World) (s : State) :
  let r := handleAnswerQuestion q w s in
  (question_id q ∉ answeringQuestions r.1)
  ∧ (unanswered q s →
     error r.1 = failure (type_error w)
     ∧ (usable (resolved (retry_answer w)) = None →
        questionAnswers r.1 = questionAnswers s)
     ∧ (∀ res a, usable (resolved (retry_answer w)) = Some (res, a) →
        questionAnswers r.1
        = <[question_id q := Ref (withEvidence a None)]> (questionAnswers s))).
Proof.
  cbn zeta. split.
  - unfold handleAnswerQuestion.
    pose proof (start_answering s q s) as Hs.
    destruct (start s q s) as [[s1 calls] goesOn]. cbn in Hs.
    destruct goesOn.
    + pose proof (resume_answering s q w s1) as Hr.
      destruct (resume s q w s1) as [s2 more]. cbn in Hr |- *. rewrite Hr.
      apply not_elem_of_difference. right. by apply elem_of_singleton.
    + cbn. rewrite Hs.
      apply not_elem_of_difference. right. by apply elem_of_singleton.
  - intros [Hg He]. unfold handleAnswerQuestion, start. rewrite Hg, He.
    rewrite resume_eq. unfold afterRetry.
    destruct (usable (resolved (retry_answer w))) as [[res a]|]; cbn.
    + split_and!; [done|done|]. by intros ? ? [= _ <-].
    + by split_and!.
Qed.

Lemma failure_clears_marker_witness :
  let r := handleAnswerQuestion question1 allDown mounted in
  unanswered question1 mounted
  ∧ (question_id question1 ∉ answeringQuestions r.1)
  ∧ (unanswered question1 mounted →
     error r.1 = failure (type_error allDown)
     ∧ (usable (resolved (retry_answer allDown)) = None →
        questionAnswers r.1 = questionAnswers mounted)
     ∧ (∀ res a, usable (resolved (retry_answer allDown)) = Some (res, a) →
        questionAnswers r.1
        = <[question_id question1 := Ref (withEvidence a None)]>
            (questionAnswers mounted))).
Proof.
  split; [split; reflexivity|].
  exact (failure_clears_marker question1 allDown mounted).
Defined.

(** C5 as worded fails: the generation request times out, the handler
    asks again in its [catch] block, and the answer that comes back is
    stored, without evidence data, while the invocation ends with an
    error recorded; nothing is thrown on to the caller. *)
Lemma failed_call_still_stores :
  resolved (par_answer timeoutThenAnswer) = None
  ∧ unanswered question1 mounted
  ∧ questionAnswers (handleAnswerQuestion question1 timeoutThenAnswer mounted).1
      !! "q1" = Some (Ref (withEvidence yes90 None))
  ∧ error (handleAnswerQuestion question1 timeoutThenAnswer mounted).1
    = failure notAFunction.
Proof. repeat split; vm_compute; reflexivity. Qed.

End FailureFacts.

Section SingleFlightFacts.
Import QuestionnairePanel PanelExamples.

(** Whether the handler goes on, and with which requests, is decided by
    the stored answers of the render it closed over and by the question
    alone. *)
Lemma start_requests (closure : State) (q : Question) (s : State) :
  unanswered q closure →
  (start closure q s).2 = true ∧
  (start closure q s).1.2
    = [AnswerAuditQuestion (question_id q);
       AnswerAuditQuestion (question_id q)].
Proof. intros [Hg He]. unfold start. by rewrite Hg, He. Qed.

Lemma handleAnswerQuestion_generations (q : Question) (w : World) (s : State) :
  generations (handleAnswerQuestion q w s).2
  = if bool_decide (unanswered q s) then 2 else 0.
Proof.
  unfold handleAnswerQuestion, start, unanswered.
  destruct (get (questionAnswers s) (question_id q)) as [v|].
  { rewrite bool_decide_false by (by intros [? _]). done. }
  destruct (existingAnswer q) as [v|].
  { rewrite bool_decide_false by (by intros [_ ?]). done. }
  by rewrite bool_decide_true.
Qed.

Lemma click_invariant (q : Question) (u : Panel) :
  question_id q ∉ answeringQuestions (panel_state u) →
  NoDup (inFlight u) →
  (∀ id, id ∈ inFlight u → id ∈ answeringQuestions (panel_state u)) →
  NoDup (inFlight (click q u))
  ∧ (∀ id, id ∈ inFlight (click q u) →
           id ∈ answeringQuestions (panel_state (click q u))).
Proof.
  intros Hq Hnd Hin. unfold click.
  pose proof (start_answering (panel_state u) q (panel_state u)) as Ha.
  destruct (start (panel_state u) q (panel_state u)) as [[s1 calls] goesOn].
  simpl in Ha. unfold inFlight in *. simpl. destruct goesOn.
  - rewrite fmap_app. simpl. split.
    + apply NoDup_app. split; [done|]. split; [|apply NoDup_singleton].
      intros id Hid ->%list_elem_of_singleton. by apply Hq, Hin.
    + intros id [Hid| ->%list_elem_of_singleton]%elem_of_app; rewrite Ha.
      * apply elem_of_union_l. by apply Hin.
      * apply elem_of_union_r. by apply elem_of_singleton.
  - split; [done|]. intros id Hid. rewrite Ha.
    apply elem_of_difference. split; [by apply Hin|].
    intros ->%elem_of_singleton. by apply Hq, Hin.
Qed.

Lemma settle_invariant i (w : World) (u : Panel) :
  NoDup (inFlight u) →
  (∀ id, id ∈ inFlight u → id ∈ answeringQuestions (panel_state u)) →
  NoDup (inFlight (settle i w u))
  ∧ (∀ id, id ∈ inFlight (settle i w u) →
           id ∈ answeringQuestions (panel_state (settle i w u))).
Proof.
  intros Hnd Hin. unfold settle.
  destruct (flights u !! i) as [[closure q]|] eqn:Ei; [|done].
  pose proof (resume_answering closure q w (panel_state u)) as Ha.
  destruct (resume closure q w (panel_state u)) as [s1 calls].
  simpl in Ha. unfold inFlight in *. simpl.
  rewrite list_fmap_delete.
  assert (Hi : ((λ f : State * Question, question_id f.2) <$> flights u) !! i
               = Some (question_id q)) by (by rewrite list_lookup_fmap, Ei).
  split.
  - eapply sublist_NoDup; [done | apply sublist_delete].
  - intros id Hid. rewrite Ha. apply elem_of_difference. split.
    + apply Hin. eapply elem_of_submseteq; [done|].
      apply sublist_submseteq, sublist_delete.
    + intros ->%elem_of_singleton.
      apply list_elem_of_lookup in Hid as [j Hj].
      destruct (decide (j < i)) as [Hlt|Hge].
      * rewrite list_lookup_delete_lt in Hj by done.
        pose proof (NoDup_lookup _ _ _ _ Hnd Hi Hj). lia.
      * rewrite list_lookup_delete_ge in Hj by lia.
        pose proof (NoDup_lookup _ _ _ _ Hnd Hi Hj). lia.
Qed.

Lemma step_invariant_flights (u u' : Panel) :
  panel_step u u' →
  NoDup (inFlight u) →
  (∀ id, id ∈ inFlight u → id ∈ answeringQuestions (panel_state u)) →
  NoDup (inFlight u')
  ∧ (∀ id, id ∈ inFlight u' → id ∈ answeringQuestions (panel_state u')).
Proof.
  intros [q u0 _ Hq | i w u0 _ | p u0 | e l u0] Hnd Hin.
  - by apply click_invariant.
  - by apply settle_invariant.
  - done.
  - done.
Qed.

(** The panel that is mounted, whatever was opened and closed before. *)
Lemma overlay_invariant (o : Overlay) :
  overlay_reachable o →
  ∀ u, instance o = Some u →
       NoDup (inFlight u)
       ∧ (∀ id, id ∈ inFlight u → id ∈ answeringQuestions (panel_state u)).
Proof.
  induction 1 as [|o o' _ IH Hstep]; [done|].
  destruct Hstep as [p o | o | u0 u1 o Hu Hstep | i w o]; intros u Hinst.
  - cbn in Hinst. injection Hinst as <-.
    destruct (instance o) as [u0|] eqn:E; cbn.
    + by apply IH.
    + split; [apply NoDup_nil_2 | by intros id Hid%elem_of_nil].
  - unfold closeOverlay in Hinst. destruct (instance o) eqn:E; [done|].
    by rewrite E in Hinst.
  - cbn in Hinst. rewrite Hu in Hinst. injection Hinst as <-.
    destruct (IH u0 Hu) as [Hnd Hin]. by apply (step_invariant_flights u0).
  - apply IH. unfold settleDetached in Hinst.
    by destruct (detached o !! i) as [[? ?]|].
Qed.

(** C2, as the code has it.  In the panel that is mounted, whatever was
    opened and closed before, the invocations in flight are for pairwise
    different questions and each of their ids is in [answeringQuestions],
    which is what disables the Answer button of the question: no click
    is accepted for a question while an invocation of this panel for it
    is in flight.  The handler itself does not look at
    [answeringQuestions]: started for a question without a stored answer
    it goes on and sends its own generation request, whatever the set
    holds. *)
Theorem panel_single_invocation (o : Overlay) (u : Panel) :
  overlay_reachable o → instance o = Some u →
  NoDup (inFlight u)
  ∧ (∀ id, id ∈ inFlight u → id ∈ answeringQuestions (panel_state u))
  ∧ (∀ q, question_id q ∈ inFlight u → ¬ clickable q u)
  ∧ (∀ closure q s, unanswered q closure →
       (start closure q s).2 = true
       ∧ 1 ≤ generations (start closure q s).1.2).
Proof.
  intros Hr Hu. destruct (overlay_invariant o Hr u Hu) as [Hnd Hin].
  split_and!; [done|done| |].
  - intros q Hq [_ Hn]. by apply Hn, Hin.
  - intros closure q s Hun.
    destruct (start_requests closure q s Hun) as [-> ->]. split; [done|].
    cbv. lia.
Qed.

Lemma opened_and_clicked :
  overlay_reachable (inPanel (click question1) (openOverlay overlay closed)).
Proof.
  change (inPanel (click question1) (openOverlay overlay closed))
    with (inPanel (λ _, click question1 (mount overlay ∅))
            (openOverlay overlay closed)).
  eapply overlay_next.
  - eapply overlay_next; [apply overlay_closed | apply overlay_open].
  - eapply overlay_panel; [reflexivity|].
    apply step_click; [apply list_elem_of_here | apply not_elem_of_empty].
Qed.

Lemma panel_single_invocation_witness :
  let u := click question1 (mount overlay ∅) in
  NoDup (inFlight u)
  ∧ (∀ id, id ∈ inFlight u → id ∈ answeringQuestions (panel_state u))
  ∧ (∀ q, question_id q ∈ inFlight u → ¬ clickable q u)
  ∧ (∀ closure q s, unanswered q closure →
       (start closure q s).2 = true
       ∧ 1 ≤ generations (start closure q s).1.2).
Proof.
  apply (panel_single_invocation
           (inPanel (click question1) (openOverlay overlay closed))
           (click question1 (mount overlay ∅))).
  - change (inPanel (click question1) (openOverlay overlay closed))
      with (inPanel (λ _, click question1 (mount overlay ∅))
              (openOverlay overlay closed)).
    eapply overlay_next.
    + eapply overlay_next; [apply overlay_closed | apply overlay_open].
    + eapply overlay_panel; [reflexivity|].
      apply step_click; [apply list_elem_of_here | apply not_elem_of_empty].
  - reflexivity.
Defined.

(** C2 as worded fails.  The overlay is opened and the Answer button of
    a question clicked; while the requests are out the overlay is closed
    and opened again, which mounts a new panel with an empty
    [answeringQuestions], and the button is clicked again.  Two
    invocations for the same question are then in flight, one of the
    panel that is gone and one of the new panel, and each has sent its
    own generation requests: four in all, not one. *)
Lemma concurrent_invocations_generate_twice :
  overlay_reachable reopened
  ∧ allInFlight reopened = ["q1"; "q1"]
  ∧ generations (earlier reopened) = 2
  ∧ generations (requests reopened) = 4.
Proof.
  split; [|by vm_compute].
  pose proof opened_and_clicked as H1.
  assert (H2 : overlay_reachable
                 (closeOverlay
                    (inPanel (click question1) (openOverlay overlay closed))))
    by (eapply overlay_next; [exact H1 | apply overlay_close]).
  assert (H3 : overlay_reachable
                 (openOverlay overlay
                    (closeOverlay
                       (inPanel (click question1)
                          (openOverlay overlay closed)))))
    by (eapply overlay_next; [exact H2 | apply overlay_open]).
  unfold reopened.
  change (inPanel (click question1) ?o)
    with (inPanel (λ _, click question1 (mount overlay ∅)) o).
  eapply overlay_next; [exact H3|].
  eapply overlay_panel; [reflexivity|].
  apply step_click; [apply list_elem_of_here | apply not_elem_of_empty].
Qed.

End SingleFlightFacts.

(** ** Generated answers (answering core, modelled from the specification) *)

Section SynthesizerFacts.
Import Synthesizer.
Local Open Scope Q_scope.

Lemma clamp_bounds (c : Q) : 0 <= clamp c ∧ clamp c <= 1.
Proof.
  unfold clamp. split; [apply Q.le_max_l|].
  apply Q.max_lub; [done | apply Q.le_min_r].
Qed.

Lemma verdictText_two_valued (v : Verdict) :
  verdictText v = "YES" ∨ verdictText v = "NO".
Proof. destruct v; auto. Qed.

Lemma parseVerdict_text (s : string) (v : Verdict) :
  parseVerdict s = Some v → verdictText v = s.
Proof.
  unfold parseVerdict. repeat case_decide; intros [= <-]; by subst.
Qed.

Lemma generate_bounds (questionId fp : string)
    (primary : option (string * nat)) (reply : ModelReply) (a : Answer) :
  generate questionId fp primary reply = inl a →
  0 <= confidence a ∧ confidence a <= 1.
Proof.
  unfold generate, synthesize, parseResponse. intros H.
  destruct primary as [p|].
  - destruct reply as [r| |]; try done.
    destruct (raw_verdict r) as [v|]; [|done].
    destruct (raw_confidence r) as [c|]; [|done].
    destruct (raw_quote r); [|done]. destruct (raw_reasoning r); [|done].
    destruct (parseVerdict v); [|done]. destruct (inRange c); [|done].
    injection H as <-. simpl. apply clamp_bounds.
  - injection H as <-. simpl. split; done.
Qed.

(** C4.  Every Answer the core generates, through the synthesizer or
    through the no-evidence fallback, has a confidence between 0 and 1 and
    a verdict sent as YES or as NO. *)
Theorem generated_answer_bounds (questionId fp : string)
    (primary : option (string * nat)) (reply : ModelReply) (a : Answer) :
  generate questionId fp primary reply = inl a →
  0 <= confidence a ∧ confidence a <= 1
  ∧ (verdictText (verdict a) = "YES" ∨ verdictText (verdict a) = "NO").
Proof.
  intros H. destruct (generate_bounds _ _ _ _ _ H) as [H0 H1].
  split; [done|]. split; [done|]. apply verdictText_two_valued.
Qed.

Lemma generated_answer_bounds_witness :
  ∃ a, generate "q1" "fp1" (Some ("GG.1234", 12%nat)) sampleReply = inl a
       ∧ 0 <= confidence a ∧ confidence a <= 1
       ∧ (verdictText (verdict a) = "YES" ∨ verdictText (verdict a) = "NO").
Proof.
  eexists. split; [reflexivity|].
  apply (generated_answer_bounds "q1" "fp1" (Some ("GG.1234", 12%nat))
           sampleReply).
  reflexivity.
Defined.

(** What the panel shows for a generated Answer: the badge in the YES
    colours exactly when the verdict is YES. *)
Lemma generated_answer_rendering (a : Answer) :
  QuestionnairePanel.answerStatusBackground
    (QuestionnairePanel.answer (wire a)) = "#dbeafe" ↔ verdict a = YES.
Proof.
  unfold QuestionnairePanel.answerStatusBackground, wire. simpl.
  destruct (verdict a); simpl; split; done.
Qed.

End SynthesizerFacts.

(** ** Answering a batch (batch orchestrator, modelled from the specification) *)

Section BatchFacts.
Import Synthesizer Batch.

Variable pipeline : string → Answer + ErrorKind.
Variable questionIds : list string.
Variable cap : nat.
Hypothesis cap_positive : 0 < cap.

Lemma fillSlots_inv (p : Pool) :
  waiting p ++ running p ++ finished p ≡ₚ seq 0 (length questionIds) →
  (∀ j, j ∈ finished p → results p !! j = pipeline <$> questionIds !! j) →
  length (running p) ≤ cap →
  poolInv pipeline questionIds cap (fillSlots cap p).
Proof.
  intros Hperm Hres Hcap. unfold poolInv, fillSlots. simpl.
  set (free := cap - length (running p)).
  split; [|split; [done|split]].
  - rewrite <- Hperm. rewrite <- (take_drop free (waiting p)) at 3.
    solve_Permutation.
  - intros Hnil. apply app_eq_nil in Hnil as [Hr Ht].
    unfold free in *. rewrite Hr in *. simpl in Ht.
    destruct (waiting p) as [|w ws]; [by rewrite drop_nil|].
    destruct cap; [lia|]. done.
  - rewrite length_app, length_take. unfold free. lia.
Qed.

Lemma complete_inv choice (p : Pool) :
  poolInv pipeline questionIds cap p →
  waiting (complete pipeline questionIds choice p)
    ++ running (complete pipeline questionIds choice p)
    ++ finished (complete pipeline questionIds choice p)
    ≡ₚ seq 0 (length questionIds)
  ∧ (∀ j, j ∈ finished (complete pipeline questionIds choice p) →
          results (complete pipeline questionIds choice p) !! j
          = pipeline <$> questionIds !! j)
  ∧ length (running (complete pipeline questionIds choice p)) ≤ cap
  ∧ (running p ≠ [] →
     length (finished (complete pipeline questionIds choice p))
     = S (length (finished p))).
Proof.
  intros (Hperm & Hres & Hrun & Hcap). unfold complete.
  set (slot := choice `mod` length (running p)).
  destruct (running p !! slot) as [j|] eqn:Ej.
  - assert (Hj : j ∈ seq 0 (length questionIds)).
    { rewrite <- Hperm. apply elem_of_app. right. apply elem_of_app. left.
      by eapply list_elem_of_lookup_2. }
    apply elem_of_seq in Hj as [_ Hj]. simpl in Hj.
    destruct (lookup_lt_is_Some_2 questionIds j Hj) as [q Eq].
    rewrite Eq. simpl. split; [|split; [|split]].
    + rewrite <- Hperm.
      rewrite (delete_Permutation (running p) slot j Ej) at 2.
      solve_Permutation.
    + intros k [Hk| ->%list_elem_of_singleton]%elem_of_app.
      * destruct (decide (j = k)) as [->|Hne].
        -- by rewrite lookup_insert_eq, Eq.
        -- rewrite lookup_insert_ne by done. by apply Hres.
      * by rewrite lookup_insert_eq, Eq.
    + pose proof (length_delete (running p) slot (ltac:(by eexists))). lia.
    + intros _. rewrite length_app. simpl. lia.
  - split; [done|]. split; [done|]. split; [done|].
    intros Hne. apply lookup_ge_None in Ej. unfold slot in Ej.
    destruct (running p) as [|r rs]; [done|].
    pose proof (Nat.mod_upper_bound choice (length (r :: rs))). simpl in *. lia.
Qed.

Lemma poolStep_inv choice (p : Pool) :
  poolInv pipeline questionIds cap p →
  poolInv pipeline questionIds cap (poolStep pipeline questionIds cap choice p)
  ∧ (running p ≠ [] →
     length (finished (poolStep pipeline questionIds cap choice p))
     = S (length (finished p))).
Proof.
  intros Hinv. destruct (complete_inv choice p Hinv) as (Hp & Hr & Hc & Hl).
  split; [by apply fillSlots_inv | exact Hl].
Qed.

Lemma poolInv_lengths (p : Pool) :
  poolInv pipeline questionIds cap p →
  length (waiting p) + length (running p) + length (finished p)
  = length questionIds.
Proof.
  intros (Hperm & _). apply Permutation_length in Hperm.
  rewrite !length_app, length_seq in Hperm. lia.
Qed.

Lemma runPool_finishes schedule steps t (p : Pool) :
  poolInv pipeline questionIds cap p →
  length questionIds ≤ length (finished p) + steps →
  poolInv pipeline questionIds cap
    (runPool pipeline questionIds cap schedule steps t p)
  ∧ length (finished (runPool pipeline questionIds cap schedule steps t p))
    = length questionIds.
Proof.
  revert t p. induction steps as [|k IH]; intros t p Hinv Hlen; simpl.
  - split; [done|]. pose proof (poolInv_lengths p Hinv). lia.
  - destruct (poolStep_inv (schedule t) p Hinv) as [Hinv' Hgrow].
    apply IH; [done|].
    destruct (decide (running p = [])) as [Hnil|Hne].
    + pose proof (poolInv_lengths p Hinv) as Hl.
      destruct Hinv as (_ & _ & Hw & _). rewrite (Hw Hnil), Hnil in Hl.
      simpl in Hl.
      assert (finished (poolStep pipeline questionIds cap (schedule t) p)
              = finished p) as ->
        by (unfold poolStep, fillSlots, complete; by rewrite Hnil).
      lia.
    + rewrite (Hgrow Hne). lia.
Qed.

Lemma collect_all (res : gmap nat (Answer + ErrorKind)) (qs : list string) i :
  (∀ k q, qs !! k = Some q → res !! (i + k) = Some (pipeline q)) →
  collect res i qs = Some ((λ q, (q, pipeline q)) <$> qs).
Proof.
  revert i. induction qs as [|q qs IH]; intros i H; simpl; [done|].
  rewrite <- (Nat.add_0_r i) at 1. rewrite (H 0 q eq_refl).
  rewrite (IH (S i)); [done|].
  intros k q' Hk. replace (S i + k) with (i + S k) by lia. by apply H.
Qed.

Lemma startPool_inv :
  poolInv pipeline questionIds cap (startPool cap (length questionIds)).
Proof.
  apply fillSlots_inv; simpl.
  - by rewrite app_nil_r.
  - by intros j Hj%elem_of_nil.
  - lia.
Qed.

(** C3.  For a valid list of questions and a positive cap, whatever the
    order in which the pipelines complete, the batch returns one entry per
    question, in the order of the request, each holding what that
    question's own pipeline returned: an error for the question that failed
    and the Answer for every other. *)
Theorem batch_isolated_and_ordered (known : gset string)
    (schedule : nat → nat) :
  validate known questionIds = None →
  answerBatch known pipeline cap schedule questionIds
  = inl ((λ q, (q, pipeline q)) <$> questionIds).
Proof.
  intros Hvalid. unfold answerBatch. rewrite Hvalid.
  destruct (runPool_finishes schedule (length questionIds) 0
              (startPool cap (length questionIds)) startPool_inv)
    as [Hinv Hlen]; [lia|].
  set (final := runPool _ _ _ _ _ _ _) in *.
  pose proof (poolInv_lengths final Hinv) as Hl.
  destruct Hinv as (Hperm & Hres & _ & _).
  assert (Hw : waiting final = []) by (apply length_zero_iff_nil; lia).
  assert (Hr : running final = []) by (apply length_zero_iff_nil; lia).
  rewrite Hw, Hr in Hperm. simpl in Hperm.
  rewrite collect_all; [done|].
  intros k q Hk. simpl. rewrite Hres, Hk; [done|].
  rewrite Hperm. apply elem_of_seq. apply lookup_lt_Some in Hk. lia.
Qed.

End BatchFacts.

Section BatchExample.
Import Synthesizer Batch.

Lemma batch_isolated_and_ordered_witness :
  answerBatch (list_to_set fiveQuestions) thirdTimesOut 2 lastFirst fiveQuestions
  = inl [("q1", inl (answerFor "q1")); ("q2", inl (answerFor "q2"));
         ("q3", inr UpstreamTimeout);
         ("q4", inl (answerFor "q4")); ("q5", inl (answerFor "q5"))].
Proof.
  apply (batch_isolated_and_ordered thirdTimesOut fiveQuestions 2).
  - lia.
  - vm_compute. reflexivity.
Defined.

(** In that run the pipelines complete in the order 2, 3, 4, 5, 1. *)
Lemma five_complete_out_of_order : finished fiveFinal = [1; 2; 3; 4; 0].
Proof. vm_compute. reflexivity. Qed.

End BatchExample.

(** ** Rotation of the evidence (ranking and rotation, modelled from the
    specification) *)

Section RankFacts.
Import Synthesizer Rotation.
Local Open Scope Q_scope.

#[local] Instance byScore_transitive : Transitive byScore.
Proof. intros a b c Hab Hbc. unfold byScore in *. by eapply Qle_trans. Qed.

#[local] Instance byScore_total : Total byScore.
Proof.
  intros a b. unfold byScore.
  destruct (Qlt_le_dec a.2 b.2) as [H|H]; [right; by apply Qlt_le_weak | by left].
Qed.

Lemma eligible_all rel thr (candidates : list Fragment) :
  Forall (λ f, thr < rel f) candidates →
  eligible rel thr candidates = candidates.
Proof.
  intros H. unfold eligible. induction H as [|f l Hf _ IH]; [done|].
  rewrite filter_cons, decide_True, IH; [done|]. by apply Qlt_not_le.
Qed.

(** The first fragment of a ranking of two or more eligible candidates is
    one of them, and none of them scores higher. *)
Lemma primary_is_best rel thr dec rs n (candidates : list Fragment) :
  Forall (λ f, thr < rel f) candidates →
  (2 ≤ length candidates)%nat → (0 < n)%nat →
  ∃ p, primary n (rank rel thr dec rs candidates) = Some p
       ∧ p ∈ candidates
       ∧ ∀ g, g ∈ candidates → score rel dec rs g <= score rel dec rs p.
Proof.
  intros Hall Hlen Hn. unfold rank. rewrite (eligible_all _ _ _ Hall).
  destruct candidates as [|f1 [|f2 rest]]; [simpl in Hlen; lia..|].
  set (cs := f1 :: f2 :: rest) in *.
  set (scored := (λ f, (f, score rel dec rs f)) <$> cs).
  pose proof (merge_sort_Permutation byScore scored) as Hperm.
  pose proof (StronglySorted_merge_sort byScore scored) as Hsorted.
  destruct (merge_sort byScore scored) as [|x L] eqn:E.
  { apply Permutation_length in Hperm. unfold scored, cs in Hperm.
    rewrite length_fmap in Hperm. simpl in Hperm. lia. }
  assert (Hx : x ∈ scored) by (rewrite <- Hperm; apply list_elem_of_here).
  apply list_elem_of_fmap in Hx as (p & -> & Hp).
  exists p. split; [|split; [done|]].
  - unfold primary, select. destruct n; [lia|]. done.
  - intros g Hg.
    assert (Hgs : (g, score rel dec rs g) ∈ (p, score rel dec rs p) :: L).
    { rewrite Hperm. apply list_elem_of_fmap. by exists g. }
    apply elem_of_cons in Hgs as [[= -> _]|Hgs]; [apply Qle_refl|].
    apply StronglySorted_inv in Hsorted as [_ Hhd].
    rewrite Forall_forall in Hhd. exact (Hhd _ Hgs).
Qed.

Lemma advance_counter used (rs : RotationState) :
  counter (advance used rs) = S (counter rs).
Proof. done. Qed.

Lemma penalty_just_used dec (rs : RotationState) f :
  penalty dec (advance [f] rs) f = dec 0%nat.
Proof.
  unfold penalty, advance. simpl. rewrite lookup_insert_eq.
  by rewrite Nat.sub_diag.
Qed.

Lemma penalty_other dec (rs : RotationState) f g :
  f ≠ g → penalty dec (advance [f] rs) g
          = match lastUsed rs !! g with
            | None => 1
            | Some k => dec (S (counter rs) - k)%nat
            end.
Proof.
  intros Hne. unfold penalty, advance. simpl. by rewrite lookup_insert_ne.
Qed.

Lemma lastUsed_advance_other (rs : RotationState) f g :
  f ≠ g → lastUsed (advance [f] rs) !! g = lastUsed rs !! g.
Proof. intros Hne. unfold advance. simpl. by rewrite lookup_insert_ne. Qed.

Lemma lastUsed_advance_same (rs : RotationState) f :
  lastUsed (advance [f] rs) !! f = Some (S (counter rs)).
Proof. unfold advance. simpl. by rewrite lookup_insert_eq. Qed.

End RankFacts.

Section RotationFairness.
Import Synthesizer Rotation.
Local Open Scope Q_scope.

Variable cfg : Config.
Variables questionId fp : string.
Variables fa fb fc : Fragment.
Variable c0 : Core.

Lemma penalised_below (r d0 d1 g : Q) :
  0 <= r → d0 <= d1 → r * d1 < g → r * d0 < g * 1.
Proof.
  intros Hr Hd Hg. rewrite Qmult_1_r. eapply Qle_lt_trans; [|exact Hg].
  rewrite (Qmult_comm r d0), (Qmult_comm r d1). by apply Qmult_le_compat_r.
Qed.

Lemma answerOne_forced (candidates : list Fragment) (reply : ModelReply)
    (c : Core) (p : Fragment) (a : Answer) :
  primaryFor cfg questionId candidates c = Some p →
  synthesize questionId fp (Some (fragment_document p, fragment_page p)) reply
    = inl a →
  answerOne cfg true questionId fp candidates reply c
  = ({| cache := <[fp := a]> (cache c);
        rotation := <[questionId := advance [fragment_id p]
                                       (rotationOf questionId c)]> (rotation c) |},
     inl a).
Proof.
  intros Hp Hs. unfold answerOne. rewrite Hp. simpl. rewrite Hs.
  by destruct (cache c !! fp).
Qed.

(** The rotation advances once for an Answer that was generated, and the
    core is left as it was on a cache hit and on a failure. *)
Lemma answerOne_advances (force : bool) (candidates : list Fragment)
    (reply : ModelReply) (c : Core) :
  match (answerOne cfg force questionId fp candidates reply c).2 with
  | inl _ =>
      if force || bool_decide (cache c !! fp = None)
      then counter (rotationOf questionId
                      (answerOne cfg force questionId fp candidates reply c).1)
           = S (counter (rotationOf questionId c))
      else (answerOne cfg force questionId fp candidates reply c).1 = c
  | inr _ => (answerOne cfg force questionId fp candidates reply c).1 = c
  end.
Proof.
  unfold answerOne.
  destruct (cache c !! fp) as [a|] eqn:Ec; [destruct force|].
  - destruct (generate _ _ _ _); simpl; [|done].
    unfold rotationOf at 1. simpl. by rewrite lookup_insert_eq.
  - done.
  - destruct (generate _ _ _ _); simpl; [|done].
    rewrite orb_true_r.
    unfold rotationOf at 1. simpl. by rewrite lookup_insert_eq.
Qed.

Lemma third_candidate (p1 p2 : Fragment) :
  NoDup (fragment_id <$> [fa; fb; fc]) →
  ∃ g, g ∈ [fa; fb; fc] ∧ fragment_id g ≠ fragment_id p1
       ∧ fragment_id g ≠ fragment_id p2.
Proof.
  intros Hnd. simpl in Hnd.
  apply NoDup_cons in Hnd as [Ha Hnd]. apply NoDup_cons in Hnd as [Hb _].
  apply not_elem_of_cons in Ha as [Hab Ha].
  apply not_elem_of_cons in Ha as [Hac _].
  apply not_elem_of_cons in Hb as [Hbc _].
  destruct (decide (fragment_id fa = fragment_id p1)) as [Ea|Na];
    destruct (decide (fragment_id fa = fragment_id p2)) as [Ea'|Na'];
    destruct (decide (fragment_id fb = fragment_id p1)) as [Eb|Nb];
    destruct (decide (fragment_id fb = fragment_id p2)) as [Eb'|Nb'];
    try congruence.
  all: first
    [ exists fa; split; [by repeat constructor | split; congruence]
    | exists fb; split; [by repeat constructor | split; congruence]
    | exists fc; split; [by repeat constructor | split; congruence] ].
Qed.

Variables r1 r2 r3 : ModelReply.

Hypothesis distinct_ids : NoDup (fragment_id <$> [fa; fb; fc]).
Hypothesis above_threshold :
  Forall (λ f, threshold cfg < relevance cfg f) [fa; fb; fc].
Hypothesis threshold_nonneg : 0 <= threshold cfg.
Hypothesis none_dominates :
  Forall (λ f, Forall (λ g, fragment_id f ≠ fragment_id g →
                            relevance cfg f * decay cfg 1 < relevance cfg g)
                      [fa; fb; fc]) [fa; fb; fc].
Hypothesis decay_grows : decay cfg 0 <= decay cfg 1.
Hypothesis selects_some : (0 < topN cfg)%nat.
Hypothesis not_used_yet :
  Forall (λ f, lastUsed (rotationOf questionId c0) !! fragment_id f = None)
         [fa; fb; fc].
Hypothesis replies_well_formed :
  Forall (λ r, ∀ pr, ∃ a, synthesize questionId fp (Some pr) r = inl a)
         [r1; r2; r3].

Lemma relevance_nonneg (f : Fragment) :
  f ∈ [fa; fb; fc] → 0 <= relevance cfg f.
Proof.
  intros Hf. rewrite Forall_forall in above_threshold.
  eapply Qle_trans; [exact threshold_nonneg|].
  by apply Qlt_le_weak, above_threshold.
Qed.

Lemma balanced (f g : Fragment) :
  f ∈ [fa; fb; fc] → g ∈ [fa; fb; fc] → fragment_id f ≠ fragment_id g →
  relevance cfg f * decay cfg 1 < relevance cfg g.
Proof.
  intros Hf Hg. rewrite Forall_forall in none_dominates.
  specialize (none_dominates f Hf). rewrite Forall_forall in none_dominates.
  by apply none_dominates.
Qed.

(** C6, from a fresh rotation state.  Three fragments with different
    ids above a threshold that is not negative, none used before for the
    question, none dominating: a fragment used in one of the last two
    generations scores below any other fragment unpenalised, the penalty
    just after a use being no weaker than one generation later; at least
    one fragment is selected and the three replies are well formed.  Then
    three forced generations in a row succeed, cite three different
    fragments first, and advance the rotation counter by one each.  For
    any candidates, an Answer that was generated advances the counter by
    one, and a cache hit or a failure leaves the core as it was. *)
Theorem rotation_fairness :
  (∃ p1 p2 p3 c1 c2 c3 a1 a2 a3,
     primaryFor cfg questionId [fa; fb; fc] c0 = Some p1
     ∧ answerOne cfg true questionId fp [fa; fb; fc] r1 c0 = (c1, inl a1)
     ∧ primaryFor cfg questionId [fa; fb; fc] c1 = Some p2
     ∧ answerOne cfg true questionId fp [fa; fb; fc] r2 c1 = (c2, inl a2)
     ∧ primaryFor cfg questionId [fa; fb; fc] c2 = Some p3
     ∧ answerOne cfg true questionId fp [fa; fb; fc] r3 c2 = (c3, inl a3)
     ∧ NoDup [fragment_id p1; fragment_id p2; fragment_id p3]
     ∧ counter (rotationOf questionId c1) = S (counter (rotationOf questionId c0))
     ∧ counter (rotationOf questionId c2) = S (counter (rotationOf questionId c1))
     ∧ counter (rotationOf questionId c3) = S (counter (rotationOf questionId c2)))
  ∧ (∀ force candidates reply c,
       match (answerOne cfg force questionId fp candidates reply c).2 with
       | inl _ =>
           if force || bool_decide (cache c !! fp = None)
           then counter (rotationOf questionId
                  (answerOne cfg force questionId fp candidates reply c).1)
                = S (counter (rotationOf questionId c))
           else (answerOne cfg force questionId fp candidates reply c).1 = c
       | inr _ => (answerOne cfg force questionId fp candidates reply c).1 = c
       end).
Proof.
  split; [|intros; apply answerOne_advances].
  apply Forall_cons in replies_well_formed as [Hr1 Hr].
  apply Forall_cons in Hr as [Hr2 Hr]. apply Forall_cons in Hr as [Hr3 _].
  rewrite Forall_forall in not_used_yet.
  set (rs0 := rotationOf questionId c0) in *.
  (* first generation *)
  destruct (primary_is_best (relevance cfg) (threshold cfg) (decay cfg) rs0
              (topN cfg) [fa; fb; fc] above_threshold (ltac:(simpl; lia))
              selects_some) as (p1 & Hp1 & Hin1 & Hbest1).
  destruct (Hr1 (fragment_document p1, fragment_page p1)) as [a1 Ha1].
  pose proof (answerOne_forced [fa; fb; fc] r1 c0 p1 a1 Hp1 Ha1) as H1.
  set (c1 := {| cache := <[fp := a1]> (cache c0);
                rotation := <[questionId := advance [fragment_id p1] rs0]>
                              (rotation c0) |}) in *.
  assert (Hrs1 : rotationOf questionId c1 = advance [fragment_id p1] rs0)
    by (unfold rotationOf at 1; simpl; by rewrite lookup_insert_eq).
  (* second generation *)
  destruct (primary_is_best (relevance cfg) (threshold cfg) (decay cfg)
              (rotationOf questionId c1) (topN cfg) [fa; fb; fc]
              above_threshold (ltac:(simpl; lia)) selects_some)
    as (p2 & Hp2 & Hin2 & Hbest2).
  destruct (Hr2 (fragment_document p2, fragment_page p2)) as [a2 Ha2].
  pose proof (answerOne_forced [fa; fb; fc] r2 c1 p2 a2 Hp2 Ha2) as H2.
  set (c2 := {| cache := <[fp := a2]> (cache c1);
                rotation := <[questionId := advance [fragment_id p2]
                                               (rotationOf questionId c1)]>
                              (rotation c1) |}) in *.
  assert (Hrs2 : rotationOf questionId c2
                 = advance [fragment_id p2] (advance [fragment_id p1] rs0))
    by (unfold rotationOf at 1; simpl; by rewrite lookup_insert_eq, Hrs1).
  (* third generation *)
  destruct (primary_is_best (relevance cfg) (threshold cfg) (decay cfg)
              (rotationOf questionId c2) (topN cfg) [fa; fb; fc]
              above_threshold (ltac:(simpl; lia)) selects_some)
    as (p3 & Hp3 & Hin3 & Hbest3).
  destruct (Hr3 (fragment_document p3, fragment_page p3)) as [a3 Ha3].
  pose proof (answerOne_forced [fa; fb; fc] r3 c2 p3 a3 Hp3 Ha3) as H3.
  set (c3 := {| cache := <[fp := a3]> (cache c2);
                rotation := <[questionId := advance [fragment_id p3]
                                               (rotationOf questionId c2)]>
                              (rotation c2) |}) in *.
  assert (Hrs3 : rotationOf questionId c3
                 = advance [fragment_id p3] (rotationOf questionId c2))
    by (unfold rotationOf at 1; simpl; by rewrite lookup_insert_eq).
  (* the second is not the first *)
  assert (H21 : fragment_id p2 ≠ fragment_id p1).
  { intros Heq.
    destruct (third_candidate p1 p1 distinct_ids) as (g & Hg & Hgp & _).
    specialize (Hbest2 g Hg). revert Hbest2. apply Qlt_not_le.
    rewrite Hrs1. unfold score.
    rewrite Heq, penalty_just_used, penalty_other by done.
    rewrite (not_used_yet g Hg).
    apply (penalised_below _ _ (decay cfg 1));
      [by apply relevance_nonneg | done |].
    apply balanced; [done | done | congruence]. }
  (* the third is neither *)
  assert (Hthird : fragment_id p3 ≠ fragment_id p1
                   ∧ fragment_id p3 ≠ fragment_id p2).
  { destruct (third_candidate p1 p2 distinct_ids) as (g & Hg & Hg1 & Hg2).
    assert (Hsg : score (relevance cfg) (decay cfg) (rotationOf questionId c2) g
                  == relevance cfg g * 1).
    { rewrite Hrs2. unfold score.
      rewrite penalty_other, lastUsed_advance_other by done.
      by rewrite (not_used_yet g Hg). }
    split; intros Heq; specialize (Hbest3 g Hg); revert Hbest3;
      apply Qlt_not_le; rewrite Hsg; unfold score; rewrite Hrs2, Heq.
    - rewrite penalty_other, lastUsed_advance_same, advance_counter by done.
      replace (S (S (counter rs0)) - S (counter rs0))%nat with 1%nat by lia.
      rewrite Qmult_1_r. apply balanced; [done | done | congruence].
    - rewrite penalty_just_used.
      apply (penalised_below _ _ (decay cfg 1));
      [by apply relevance_nonneg | done |].
      apply balanced; [done | done | congruence]. }
  destruct Hthird as [H31 H32].
  exists p1, p2, p3, c1, c2, c3, a1, a2, a3.
  repeat split; try done.
  - apply NoDup_cons. split.
    + intros [?|[?|?%elem_of_nil]%elem_of_cons]%elem_of_cons; congruence.
    + apply NoDup_cons. split; [|apply NoDup_singleton].
      intros ?%list_elem_of_singleton. congruence.
  - by rewrite Hrs1.
  - by rewrite Hrs2, Hrs1.
  - by rewrite Hrs3.
Qed.

End RotationFairness.

Section RotationExample.
Import Synthesizer Rotation.
Local Open Scope Q_scope.

Lemma rotation_fairness_witness :
  ∃ p1 p2 p3 c1 c2 c3 a1 a2 a3,
    primaryFor sampleConfig "q1" [fragmentA; fragmentB; fragmentC] emptyCore
      = Some p1
    ∧ answerOne sampleConfig true "q1" "fp1" [fragmentA; fragmentB; fragmentC]
        sampleReply emptyCore = (c1, inl a1)
    ∧ primaryFor sampleConfig "q1" [fragmentA; fragmentB; fragmentC] c1
      = Some p2
    ∧ answerOne sampleConfig true "q1" "fp1" [fragmentA; fragmentB; fragmentC]
        sampleReply c1 = (c2, inl a2)
    ∧ primaryFor sampleConfig "q1" [fragmentA; fragmentB; fragmentC] c2
      = Some p3
    ∧ answerOne sampleConfig true "q1" "fp1" [fragmentA; fragmentB; fragmentC]
        sampleReply c2 = (c3, inl a3)
    ∧ NoDup [fragment_id p1; fragment_id p2; fragment_id p3]
    ∧ counter (rotationOf "q1" c1) = S (counter (rotationOf "q1" emptyCore))
    ∧ counter (rotationOf "q1" c2) = S (counter (rotationOf "q1" c1))
    ∧ counter (rotationOf "q1" c3) = S (counter (rotationOf "q1" c2)).
Proof.
  apply (rotation_fairness sampleConfig "q1" "fp1"
           fragmentA fragmentB fragmentC emptyCore
           sampleReply sampleReply sampleReply).
  - compute_done.
  - repeat constructor.
  - discriminate.
  - repeat constructor; intros H; reflexivity || by destruct H.
  - discriminate.
  - simpl. lia.
  - repeat constructor.
  - repeat constructor; intros pr; eexists; reflexivity.
Defined.

(** With the sample relevances 10, 9 and 8 the rotation goes A, B, C and
    comes back to A at the fourth generation. *)
Lemma rotation_sample_order :
  let cands := [fragmentA; fragmentB; fragmentC] in
  let next c := (answerOne sampleConfig true "q1" "fp1" cands sampleReply c).1 in
  fragment_id <$> primaryFor sampleConfig "q1" cands emptyCore = Some "A"
  ∧ fragment_id <$> primaryFor sampleConfig "q1" cands (next emptyCore)
    = Some "B"
  ∧ fragment_id <$> primaryFor sampleConfig "q1" cands (next (next emptyCore))
    = Some "C"
  ∧ fragment_id <$> primaryFor sampleConfig "q1" cands
                      (next (next (next emptyCore))) = Some "A".
Proof. repeat split; vm_compute; reflexivity. Qed.

(** C6 as worded fails once fragments have been used.  The sample
    fragments all exceed the threshold and none dominates (a fragment
    used in one of the last two generations scores below every other
    fragment unpenalised: [10 * 2/3 < 8]), yet the three forced
    generations that follow the first three cite A, then B, then A
    again. *)
Lemma rotation_repeats_once_used :
  let cands := [fragmentA; fragmentB; fragmentC] in
  let next c := (answerOne sampleConfig true "q1" "fp1" cands sampleReply c).1 in
  let used := next (next (next emptyCore)) in
  Forall (λ f, threshold sampleConfig < relevance sampleConfig f) cands ∧
  Forall (λ f, Forall (λ g, fragment_id f ≠ fragment_id g →
                 relevance sampleConfig f * decay sampleConfig 1
                 < relevance sampleConfig g) cands) cands ∧
  ¬ (∃ p1 p2 p3,
       primaryFor sampleConfig "q1" cands used = Some p1 ∧
       primaryFor sampleConfig "q1" cands (next used) = Some p2 ∧
       primaryFor sampleConfig "q1" cands (next (next used)) = Some p3 ∧
       NoDup [fragment_id p1; fragment_id p2; fragment_id p3]).
Proof.
  cbn zeta. split_and!.
  - repeat constructor.
  - repeat constructor; intros H; reflexivity || by destruct H.
  - intros (p1 & p2 & p3 & H1 & H2 & H3 & Hnd).
    vm_compute in H1. vm_compute in H3.
    injection H1 as <-. injection H3 as <-.
    apply NoDup_cons in Hnd as [Hnd _]. apply Hnd.
    apply list_elem_of_further, list_elem_of_here.
Qed.

End RotationExample.


(** * FolderContents.js: the document list *)

Section DocumentFacts.
Import FolderContents FolderDocuments.

Lemma unchecked_nil (seen : gset string) : unchecked seen [] = [].
Proof. done. Qed.

Lemma unchecked_cons (seen : gset string) (d : Doc) (rest : list Doc) :
  unchecked seen (d :: rest) =
  if decide (doc_id d ∈ seen) then unchecked seen rest
  else doc_id d :: unchecked seen rest.
Proof.
  unfold unchecked. rewrite fmap_cons, filter_cons.
  destruct (decide (doc_id d ∈ seen)), (decide (doc_id d ∉ seen)); done.
Qed.

(** The loop of handleRefresh: which requests it sends and what it does
    to each cell. *)
Lemma checkAll_cells (seen : gset string) (docs : list Doc) (s : State) :
  (checkAll seen docs s).2 = GetStatus <$> unchecked seen docs ∧
  statusCheckInProgress (checkAll seen docs s).1 =
    statusCheckInProgress s ∪ list_to_set (unchecked seen docs) ∧
  documentStatuses (checkAll seen docs s).1 = documentStatuses s ∧
  loading (checkAll seen docs s).1 = loading s ∧
  uploading (checkAll seen docs s).1 = uploading s ∧
  uploadQueue (checkAll seen docs s).1 = uploadQueue s ∧
  currentUpload (checkAll seen docs s).1 = currentUpload s.
Proof.
  revert s. induction docs as [|d rest IH]; intros s.
  - cbn. rewrite union_empty_r_L. done.
  - cbn [checkAll]. rewrite unchecked_cons. unfold checkDocumentStatus.
    destruct (decide (doc_id d ∈ seen)) as [Hin|Hin].
    + destruct (checkAll seen rest s) as [s2 r2] eqn:E.
      specialize (IH s). rewrite E in IH. exact IH.
    + destruct (checkAll seen rest _) as [s2 r2] eqn:E.
      match type of E with checkAll _ _ ?s0 = _ => specialize (IH s0) end.
      rewrite E in IH. cbn in IH |- *.
      destruct IH as (-> & -> & -> & -> & -> & -> & ->).
      rewrite (assoc_L (∪)). done.
Qed.

Lemma settleChecks_snoc (statusResp : string → StatusResponse)
    (order : list string) (d : string) (s : State) :
  settleChecks statusResp (order ++ [d]) s =
  checkDocumentStatus_resume d (statusOf (statusResp d))
    (settleChecks statusResp order s).
Proof. unfold settleChecks. by rewrite foldl_app. Qed.

(** X1 (handleDeleteDocument).  Whatever the user answers and whatever
    the server returns, deleting never reorders the list and removes
    nothing but documents with the given id, and it removes those exactly
    when the user confirmed and the response was [ok]; in that case the
    status entry of the id is dropped as well and every other entry is
    kept.  The [DELETE] request is sent exactly when the user confirmed,
    and the failure alert is shown exactly when a confirmed deletion did
    not succeed. *)
Theorem delete_document_effect (confirmed : bool) (docId docTitle : string)
    (resp : DeleteResponse) (s : State) :
  let r := handleDeleteDocument confirmed docId docTitle resp s in
  let removed := bool_decide (confirmed = true ∧ resp = DeleteOk) in
  documents r.1 `sublist_of` documents s ∧
  (∀ d, d ∈ documents r.1 ↔
        d ∈ documents s ∧ (removed = true → doc_id d ≠ docId)) ∧
  (∀ k, documentStatuses r.1 !! k =
        if removed && bool_decide (k = docId) then None
        else documentStatuses s !! k) ∧
  (DeleteDocument docId ∈ r.2 ↔ confirmed = true) ∧
  (Alert "Failed to delete document. Please try again." ∈ r.2 ↔
     confirmed = true ∧ resp ≠ DeleteOk) ∧
  statusCheckInProgress r.1 = statusCheckInProgress s ∧
  uploadQueue r.1 = uploadQueue s.
Proof.
  assert (Hno : ∀ m t, Alert m ∉ [Confirm t; DeleteDocument docId]).
  { intros m t Hin. apply elem_of_cons in Hin as [?|Hin]; [done|].
    by apply list_elem_of_singleton in Hin. }
  assert (Hsame : ∀ (P : Prop) d, d ∈ documents s ↔ d ∈ documents s ∧ (false = true → P)).
  { intros P d. split; [intros ?; by split|by intros []]. }
  assert (Hsent : ∀ t rest, DeleteDocument docId ∈ Confirm t :: DeleteDocument docId :: rest).
  { intros. by repeat constructor. }
  destruct confirmed; [destruct resp|]; cbn.
  - split_and!; try done.
    + split; [done|]. intros _. by repeat constructor.
  - split_and!; try done.
    + split; [done|]. intros _. by repeat constructor.
  - split_and!; try done.
    + apply sublist_filter.
    + intros d. rewrite list_elem_of_filter. split.
      * intros [? ?]; by split.
      * intros [? Hd]; split; [by apply Hd|done].
    + intros k. rewrite bool_decide_true by done. cbn.
      case_bool_decide as Hk.
      * rewrite Hk. apply lookup_delete_eq.
      * apply lookup_delete_ne. congruence.
    + split; [intros Hin; by apply Hno in Hin|by intros [_ ?]].
  - split_and!; try done.
    + split; [|done]. intros Hin.
      by apply list_elem_of_singleton in Hin.
    + split; [|by intros []]. intros Hin.
      by apply list_elem_of_singleton in Hin.
Qed.

(** X2 (handleDeleteDocument).  Deleting is idempotent on the state: a
    second successful deletion of the same id changes nothing. *)
Theorem delete_document_twice (docId t1 t2 : string) (s : State) :
  let s1 := (handleDeleteDocument true docId t1 DeleteOk s).1 in
  (handleDeleteDocument true docId t2 DeleteOk s1).1 = s1.
Proof.
  cbn. unfold setDocumentStatuses, setDocuments; cbn. f_equal.
  - rewrite list_filter_filter. apply list_filter_iff. tauto.
  - apply delete_delete_eq.
Qed.

(** X3 (handleDeleteDocument, checkDocumentStatus).  Deleting a document
    does not cancel a status check of it that is in flight: when that
    check returns after the deletion it stores a status for the id again,
    although no listed document has the id. *)
Theorem delete_then_status_arrives (docId docTitle st : string) (s : State) :
  let s1 := (handleDeleteDocument true docId docTitle DeleteOk s).1 in
  let s2 := checkDocumentStatus_resume docId (Some st) s1 in
  documentStatuses s1 !! docId = None ∧
  documentStatuses s2 !! docId = Some st ∧
  (∀ d, d ∈ documents s2 → doc_id d ≠ docId) ∧
  docId ∉ statusCheckInProgress s2.
Proof.
  cbn. split_and!.
  - apply lookup_delete_eq.
  - apply lookup_insert_eq.
  - intros d Hd. by apply list_elem_of_filter in Hd as [? _].
  - apply not_elem_of_difference. right. by apply elem_of_singleton.
Qed.

(** What the continuations of status checks do to the cells, in whatever
    order they run. *)
Lemma settleChecks_cells (statusResp : string → StatusResponse)
    (order : list string) (s : State) :
  let s' := settleChecks statusResp order s in
  (∀ d, documentStatuses s' !! d =
        if decide (d ∈ order)
        then from_option Some (documentStatuses s !! d)
                         (statusOf (statusResp d))
        else documentStatuses s !! d) ∧
  statusCheckInProgress s' = statusCheckInProgress s ∖ list_to_set order ∧
  documents s' = documents s ∧ loading s' = loading s ∧
  lastRefreshTime s' = lastRefreshTime s ∧ uploading s' = uploading s ∧
  uploadQueue s' = uploadQueue s ∧ currentUpload s' = currentUpload s.
Proof.
  cbn zeta. induction order as [|d order IH] using rev_ind.
  - cbn. split_and!; try done.
    by rewrite difference_empty_L.
  - rewrite settleChecks_snoc.
    destruct IH as (Hst & Hin & Hd & Hl & Ht & Hu & Hq & Hc).
    set (s1 := settleChecks statusResp order s) in *.
    assert (Hcells : ∀ k o,
      statusCheckInProgress (checkDocumentStatus_resume k o s1) =
        statusCheckInProgress s1 ∖ {[k]} ∧
      documents (checkDocumentStatus_resume k o s1) = documents s1 ∧
      loading (checkDocumentStatus_resume k o s1) = loading s1 ∧
      lastRefreshTime (checkDocumentStatus_resume k o s1)
        = lastRefreshTime s1 ∧
      uploading (checkDocumentStatus_resume k o s1) = uploading s1 ∧
      uploadQueue (checkDocumentStatus_resume k o s1) = uploadQueue s1 ∧
      currentUpload (checkDocumentStatus_resume k o s1) = currentUpload s1).
    { intros k [o|]; done. }
    destruct (Hcells d (statusOf (statusResp d)))
      as (-> & -> & -> & -> & -> & -> & ->).
    split_and!; try done.
    + intros k. specialize (Hst k).
      destruct (decide (k = d)) as [->|Hne].
      * rewrite decide_True by (apply elem_of_app; right; by constructor).
        destruct (statusOf (statusResp d)) as [st|] eqn:Est; cbn.
        -- apply lookup_insert_eq.
        -- rewrite Hst. by destruct (decide (d ∈ order)).
      * assert (documentStatuses
                  (checkDocumentStatus_resume d (statusOf (statusResp d)) s1)
                  !! k = documentStatuses s1 !! k) as ->.
        { destruct (statusOf (statusResp d)); cbn; [|done].
          by apply lookup_insert_ne. }
        rewrite Hst.
        destruct (decide (k ∈ order)) as [Hk|Hk].
        -- rewrite decide_True by (apply elem_of_app; by left). done.
        -- rewrite decide_False; [done|].
           intros [?|Hk']%elem_of_app; [done|].
           by apply list_elem_of_singleton in Hk'.
    + rewrite Hin, list_to_set_app_L. cbn.
      rewrite union_empty_r_L. apply set_eq. intros x.
      rewrite !elem_of_difference, elem_of_union. tauto.
Qed.

(** X4 (handleRefresh).  A refresh that passes the debounce check with a
    folder selected sends the document request followed by one status
    request for each listed document that was not being checked, in list
    order; when it returns the list shown is the one received (empty for
    a null body, a response that is not [ok] or a rejected request),
    [loading] is off, the refresh time is [now], the checks it started
    are marked in progress and no status has changed yet. *)
Theorem refresh_accepted_outcome (f : Folder) (now : Z)
    (resp : DocumentsResponse) (s : State) :
  (1000 ≤ now - lastRefreshTime s)%Z →
  let r := handleRefresh (Some f) now resp s in
  let started := unchecked (statusCheckInProgress s) (listed resp) in
  r.2 = GetDocuments (folder_id f) :: (GetStatus <$> started) ∧
  documents r.1 = listed resp ∧
  loading r.1 = false ∧
  lastRefreshTime r.1 = now ∧
  statusCheckInProgress r.1 = statusCheckInProgress s ∪ list_to_set started ∧
  documentStatuses r.1 = documentStatuses s ∧
  uploadQueue r.1 = uploadQueue s.
Proof.
  intros Hnow. cbn zeta. unfold handleRefresh.
  rewrite decide_False by lia.
  destruct resp as [| |[data|]]; cbn [listed];
    try (rewrite unchecked_nil; cbn; rewrite union_empty_r_L; done).
  destruct (checkAll _ data _) as [s4 checks] eqn:E.
  match type of E with checkAll ?a ?b ?c = _ =>
    pose proof (checkAll_cells a b c) as Hc;
    pose proof (checkAll_spec a b c) as Hs end.
  rewrite E in Hc, Hs. cbn in Hc, Hs |- *.
  destruct Hc as (-> & -> & -> & _ & _ & -> & _).
  destruct Hs as (-> & -> & _). done.
Qed.

Lemma refresh_accepted_outcome_witness :
  let r := handleRefresh (Some RefreshExamples.policies) 5000
             (DocsOk (Some [RefreshExamples.handbook; DocumentExamples.guide]))
             DocumentExamples.checkingGuide in
  let started :=
    unchecked (statusCheckInProgress DocumentExamples.checkingGuide)
      (listed (DocsOk (Some [RefreshExamples.handbook;
                             DocumentExamples.guide]))) in
  r.2 = GetDocuments "healthcare" :: (GetStatus <$> started) ∧
  documents r.1 = [RefreshExamples.handbook; DocumentExamples.guide] ∧
  loading r.1 = false ∧
  lastRefreshTime r.1 = 5000%Z ∧
  statusCheckInProgress r.1 =
    statusCheckInProgress DocumentExamples.checkingGuide
    ∪ list_to_set started ∧
  documentStatuses r.1 = documentStatuses DocumentExamples.checkingGuide ∧
  uploadQueue r.1 = uploadQueue DocumentExamples.checkingGuide.
Proof.
  apply (refresh_accepted_outcome RefreshExamples.policies 5000
           (DocsOk (Some [RefreshExamples.handbook; DocumentExamples.guide]))
           DocumentExamples.checkingGuide).
  cbn. lia.
Defined.

(** X5 (handleRefresh, checkDocumentStatus).  Once the status checks
    that an accepted refresh started have all returned, in whatever
    order, the set of checks in progress is what it was before the
    refresh; a listed document that was not being checked has the status
    the server returned for it when the response was [ok]; the entry of
    every id whose check failed, was not started or is not listed is what
    it was (entries of documents no longer listed are never pruned); the
    list and the other cells are as the refresh left them. *)
Theorem refresh_checks_settled (f : Folder) (now : Z)
    (resp : DocumentsResponse) (statusResp : string → StatusResponse)
    (order : list string) (s : State) :
  (1000 ≤ now - lastRefreshTime s)%Z →
  let r := handleRefresh (Some f) now resp s in
  order ≡ₚ statusRequests r.2 →
  let s' := settleChecks statusResp order r.1 in
  statusCheckInProgress s' = statusCheckInProgress s ∧
  (∀ d st, d ∈ listed resp → doc_id d ∉ statusCheckInProgress s →
           statusResp (doc_id d) = StatusOk st →
           documentStatuses s' !! doc_id d = Some st) ∧
  (∀ k, statusOf (statusResp k) = None ∨ k ∈ statusCheckInProgress s ∨
        k ∉ doc_id <$> listed resp →
        documentStatuses s' !! k = documentStatuses s !! k) ∧
  documents s' = listed resp ∧ loading s' = false ∧
  lastRefreshTime s' = now.
Proof.
  intros Hnow r Hperm.
  set (started := unchecked (statusCheckInProgress s) (listed resp)).
  assert (Hr : r.2 = GetDocuments (folder_id f) :: (GetStatus <$> started) ∧
    documents r.1 = listed resp ∧ loading r.1 = false ∧
    lastRefreshTime r.1 = now ∧
    statusCheckInProgress r.1
      = statusCheckInProgress s ∪ list_to_set started ∧
    documentStatuses r.1 = documentStatuses s).
  { subst r started. unfold handleRefresh.
    rewrite decide_False by lia.
    destruct resp as [| |[data|]]; cbn [listed];
      try (rewrite unchecked_nil; cbn; rewrite union_empty_r_L; done).
    destruct (checkAll _ data _) as [s4 checks] eqn:E.
    match type of E with checkAll ?a ?b ?c = _ =>
      pose proof (checkAll_cells a b c) as Hc;
      pose proof (checkAll_spec a b c) as Hs end.
    rewrite E in Hc, Hs. cbn in Hc, Hs |- *.
    destruct Hc as (-> & -> & -> & _).
    destruct Hs as (-> & -> & _). done. }
  destruct Hr as (Hreq & Hdocs & Hload & Htime & Hprog & Hstat).
  assert (Horder : ∀ k, k ∈ order ↔ k ∈ started).
  { intros k. rewrite Hperm, Hreq. unfold statusRequests. cbn.
    clear. induction started as [|x l IH]; [done|].
    cbn. rewrite !elem_of_cons, IH. done. }
  assert (Hstarted : ∀ k, k ∈ started ↔
            k ∈ doc_id <$> listed resp ∧ k ∉ statusCheckInProgress s).
  { intros k. unfold started, unchecked. rewrite list_elem_of_filter. tauto. }
  cbn zeta.
  destruct (settleChecks_cells statusResp order r.1)
    as (Hst' & Hprog' & Hdocs' & Hload' & Htime' & _).
  split_and!.
  - rewrite Hprog', Hprog. apply set_eq. intros k.
    rewrite elem_of_difference, elem_of_union, !elem_of_list_to_set.
    rewrite Horder, Hstarted. tauto.
  - intros d st Hd Hnew Hok. rewrite Hst'.
    rewrite decide_True.
    + by rewrite Hok.
    + apply Horder, Hstarted. split; [|done].
      by apply list_elem_of_fmap_2.
  - intros k Hk. rewrite Hst', Hstat.
    destruct (decide (k ∈ order)) as [Hin|]; [|done].
    apply Horder, Hstarted in Hin as [Hl Hs].
    destruct Hk as [->|[?|?]]; done.
  - by rewrite Hdocs'.
  - by rewrite Hload'.
  - by rewrite Htime'.
Qed.

Lemma refresh_checks_settled_witness :
  let s := DocumentExamples.checkingGuide in
  let resp := DocsOk (Some [RefreshExamples.handbook;
                            DocumentExamples.guide]) in
  let r := handleRefresh (Some RefreshExamples.policies) 5000 resp s in
  let s' := settleChecks DocumentExamples.statusServer ["d1"] r.1 in
  statusCheckInProgress s' = statusCheckInProgress s ∧
  (∀ d st, d ∈ listed resp → doc_id d ∉ statusCheckInProgress s →
           DocumentExamples.statusServer (doc_id d) = StatusOk st →
           documentStatuses s' !! doc_id d = Some st) ∧
  (∀ k, statusOf (DocumentExamples.statusServer k) = None ∨
        k ∈ statusCheckInProgress s ∨ k ∉ doc_id <$> listed resp →
        documentStatuses s' !! k = documentStatuses s !! k) ∧
  documents s' = listed resp ∧ loading s' = false ∧
  lastRefreshTime s' = 5000%Z.
Proof.
  apply (refresh_checks_settled RefreshExamples.policies 5000
           (DocsOk (Some [RefreshExamples.handbook; DocumentExamples.guide]))
           DocumentExamples.statusServer ["d1"]
           DocumentExamples.checkingGuide).
  - cbn. lia.
  - vm_compute. reflexivity.
Defined.

End DocumentFacts.


(** * FolderContents.js: one upload run from start to end *)

Section UploadRunFacts.
Import JsString FolderContents UploadQueue FolderDocuments UploadView.

Variable clock : nat → Z.
Variable outcome : nat → option string.

Lemma sends_app (a b : list Action) : sends (a ++ b) = sends a ++ sends b.
Proof. apply omap_app. Qed.

Lemma sends_loop (f : Folder) (queue : list QueueItem) :
  sends (queue ≫= uploadOne f outcome)
  = uploadSingleFile f <$> (item_file <$> queue).
Proof.
  induction queue as [|it queue IH]; [done|].
  rewrite bind_cons, sends_app, IH. cbn.
  by destruct (outcome (index (item_id it))).
Qed.

Lemma sends_reload (f : Folder) (resp : DocumentsResponse) :
  sends (reloadDocuments f resp) = [GetDocuments (folder_id f)].
Proof. by destruct resp as [| |[data|]]. Qed.

(** The loop touches the queue and [currentUpload] only. *)
Lemma loop_frame (f : Folder) (queue : list QueueItem) (s : State) :
  let s' := run (queue ≫= uploadOne f outcome) s in
  uploading s' = uploading s ∧ loading s' = loading s ∧
  documents s' = documents s ∧
  documentStatuses s' = documentStatuses s ∧
  statusCheckInProgress s' = statusCheckInProgress s ∧
  lastRefreshTime s' = lastRefreshTime s.
Proof.
  cbn zeta. revert s. induction queue as [|it queue IH]; intros s; [done|].
  rewrite bind_cons, run_app.
  destruct (IH (run (uploadOne f outcome it) s))
    as (-> & -> & -> & -> & -> & ->).
  unfold uploadOne, run. cbn. by destruct (outcome (index (item_id it))).
Qed.

Lemma reload_cells (f : Folder) (resp : DocumentsResponse) (s : State) :
  let s' := run (reloadDocuments f resp) s in
  documents s' = listed resp ∧ loading s' = false ∧
  uploading s' = uploading s ∧ uploadQueue s' = uploadQueue s ∧
  documentStatuses s' = documentStatuses s ∧
  statusCheckInProgress s' = statusCheckInProgress s ∧
  lastRefreshTime s' = lastRefreshTime s.
Proof. by destruct resp as [| |[data|]]. Qed.

Lemma enqueue_lookup (k i : nat) (files : list File) (file : File) :
  files !! i = Some file →
  enqueue clock k files !! i =
  Some {| item_id := {| stamp := clock (k + i); index := k + i |};
          item_file := file; item_status := "pending";
          item_progress := 0; item_error := None |}.
Proof.
  revert k i. induction files as [|x files IH]; intros k [|i] Hi; try done.
  - injection Hi as ->. cbn. by rewrite Nat.add_0_r.
  - cbn [enqueue]. etrans; [exact (IH (S k) i Hi)|].
    replace (S k + i) with (k + S i) by lia. done.
Qed.

Lemma enqueue_length (k : nat) (files : list File) :
  length (enqueue clock k files) = length files.
Proof. revert k. induction files; intros k; cbn; [done|]. by f_equal. Qed.

(** The queue the body of a run leaves behind. *)
Lemma body_queue (f : Folder) (resp : DocumentsResponse)
    (files : list File) (s0 : State) :
  uploadQueue (run (uploadBody f clock outcome resp files) s0)
  = queueAfter outcome (enqueue clock 0 files) (2 * length files).
Proof.
  set (queue := enqueue clock 0 files).
  set (s1 := run [SetUploadQueue queue; SetUploading true] s0).
  assert (run (uploadBody f clock outcome resp files) s0
          = run (reloadDocuments f resp)
              (run (queue ≫= uploadOne f outcome) s1)) as ->.
  { unfold uploadBody. fold queue. by rewrite !run_app. }
  destruct (reload_cells f resp (run (queue ≫= uploadOne f outcome) s1))
    as (_ & _ & _ & -> & _).
  destruct (loop_progress clock outcome f queue files 0 s1) as [_ Hq];
    [| |exact Hq].
  - apply enqueue_stamped.
  - change (uploadQueue s1) with queue.
    unfold queueAfter. rewrite <- (list_fmap_id queue) at 1.
    apply list_fmap_ext. intros i it _. unfold itemAfter.
    by rewrite decide_True by lia.
Qed.

Lemma itemAfter_late (p : nat) (it : QueueItem) :
  2 * index (item_id it) + 2 ≤ p →
  itemAfter outcome p it =
  match outcome (index (item_id it)) with
  | None => withStatus "completed" 100 (item_error it) it
  | Some msg => withStatus "error" (item_progress it) (Some msg) it
  end.
Proof. intros Hp. unfold itemAfter. repeat case_decide; try lia. done. Qed.

Lemma completed_after (k p : nat) (files : list File) :
  2 * (k + length files) ≤ p →
  completedCount (queueAfter outcome (enqueue clock k files) p)
  = successes outcome k (length files).
Proof.
  revert k. induction files as [|x files IH]; intros k Hp; [done|].
  cbn [length] in Hp.
  unfold completedCount, successes, queueAfter in *.
  cbn [enqueue length seq]. rewrite fmap_cons, !filter_cons.
  rewrite itemAfter_late by (cbn; lia). cbn [index item_id].
  specialize (IH (S k)).
  destruct (outcome k) as [msg|] eqn:Ek; cbn [withStatus item_status].
  - rewrite decide_False by done. rewrite decide_False by done.
    apply IH. lia.
  - rewrite decide_True by done. rewrite decide_True by done.
    cbn [length]. f_equal. apply IH. lia.
Qed.

Lemma successes_all (k n : nat) :
  (∀ i, k ≤ i < k + n → outcome i = None) → successes outcome k n = n.
Proof.
  unfold successes. revert k. induction n as [|n IH]; intros k Hall; [done|].
  cbn [seq]. rewrite filter_cons_True by (apply Hall; lia).
  cbn [length]. f_equal. apply IH. intros i Hi. apply Hall. lia.
Qed.

(** The successive values of [uploadQueue] during the body of a run are
    the queue after 0, 1, 2, ... updates. *)
Lemma body_progress (f : Folder) (resp : DocumentsResponse)
    (files : list File) (s0 : State) :
  Progress (queueAfter outcome (enqueue clock 0 files)) 0
    (trace (uploadBody f clock outcome resp files) s0) (2 * length files).
Proof.
  set (queue := enqueue clock 0 files).
  assert (H0 : queueAfter outcome queue 0 = queue).
  { unfold queueAfter. rewrite <- (list_fmap_id queue) at 2.
    apply list_fmap_ext. intros i it _. unfold itemAfter.
    by rewrite decide_True by lia. }
  set (s1 := apply (SetUploading true) (apply (SetUploadQueue queue) s0)).
  destruct (loop_progress clock outcome f queue files 0 s1) as [HP Hrun].
  { apply enqueue_stamped. }
  { by change (2 * 0) with 0; rewrite H0. }
  fold queue in HP, Hrun.
  change (0 + length files) with (length files) in HP, Hrun.
  change (2 * 0) with 0 in HP.
  set (sl := run (queue ≫= uploadOne f outcome) s1) in *.
  assert (HT : trace (uploadBody f clock outcome resp files) s0
               = queue :: queue ::
                 trace (queue ≫= uploadOne f outcome) s1
                 ++ replicate (length (reloadDocuments f resp))
                      (queueAfter outcome queue (2 * length files))).
  { unfold uploadBody. fold queue. cbn [app trace]. fold s1.
    do 2 f_equal. rewrite trace_app. fold sl. f_equal.
    destruct (trace_neutral _ sl (reloadDocuments_neutral f resp)) as [-> _].
    by rewrite Hrun. }
  rewrite HT.
  assert (HP0 : Progress (queueAfter outcome queue) 0
            (queueAfter outcome queue 0 :: queueAfter outcome queue 0 ::
             trace (queue ≫= uploadOne f outcome) s1
             ++ replicate (length (reloadDocuments f resp))
                  (queueAfter outcome queue (2 * length files)))
            (2 * length files)).
  { do 2 apply Progress_stay. eapply Progress_app; [exact HP|].
    apply Progress_replicate. }
  by rewrite H0 in HP0.
Qed.

(** X7 (uploadMultipleFiles, uploadSingleFile).  A run posts every
    selected file once, in the order of the selection and with the title
    computed from its name, whether earlier uploads succeeded or failed,
    and then asks for the document list once; without a folder it sends
    nothing. *)
Theorem upload_run_requests (folder : option Folder)
    (resp : DocumentsResponse) (files : list File) :
  sends (uploadMultipleFiles folder clock outcome resp files) =
  match folder with
  | None => []
  | Some f =>
      ((λ file, PostDocument (folder_id f) (UploadTitle.title (file_name file)))
         <$> files) ++ [GetDocuments (folder_id f)]
  end.
Proof.
  destruct folder as [f|]; [|done].
  unfold uploadMultipleFiles, uploadBody.
  rewrite !sends_app, sends_loop, sends_reload.
  destruct (enqueue_pending clock 0 files) as [_ ->].
  cbn. by rewrite app_nil_r.
Qed.

(** X8 (uploadMultipleFiles).  When the body of a run has finished the
    queue holds one item per selected file, in order: completed with
    progress 100 when its upload succeeded, error with the message of the
    failure and progress 0 otherwise; a failure does not stop the later
    files.  The document list is the reloaded one.  After the timer
    callback the queue is empty, no upload is current and [uploading] is
    off; statuses and the refresh time are untouched throughout. *)
Theorem upload_run_result (f : Folder) (resp : DocumentsResponse)
    (files : list File) (s0 : State) :
  let body := run (uploadBody f clock outcome resp files) s0 in
  let final := run uploadCleanup body in
  uploadQueue body = imap (finished clock outcome) files ∧
  uploading body = true ∧ loading body = false ∧
  documents body = listed resp ∧
  uploadQueue final = [] ∧ currentUpload final = None ∧
  uploading final = false ∧ documents final = listed resp ∧
  documentStatuses final = documentStatuses s0 ∧
  lastRefreshTime final = lastRefreshTime s0.
Proof.
  cbn zeta. rewrite body_queue.
  set (queue := enqueue clock 0 files).
  set (s1 := run [SetUploadQueue queue; SetUploading true] s0).
  assert (run (uploadBody f clock outcome resp files) s0
          = run (reloadDocuments f resp)
              (run (queue ≫= uploadOne f outcome) s1)) as ->.
  { unfold uploadBody. fold queue. by rewrite !run_app. }
  destruct (reload_cells f resp (run (queue ≫= uploadOne f outcome) s1))
    as (Hd & Hl & Hu & _ & Hs & _ & Ht).
  destruct (loop_frame f queue s1) as (Hu' & _ & _ & Hs' & _ & Ht').
  split_and!.
  - apply list_eq. intros i. unfold queueAfter.
    rewrite list_lookup_fmap, list_lookup_imap.
    destruct (files !! i) as [file|] eqn:Ei.
    + pose proof (enqueue_lookup 0 i files file Ei) as Eq.
      fold queue in Eq. rewrite Eq. cbn [fmap option_fmap option_map].
      rewrite itemAfter_late.
      * cbn [index item_id Nat.add]. unfold finished.
        by destruct (outcome i).
      * apply lookup_lt_Some in Ei. cbn. lia.
    + apply lookup_ge_None in Ei.
      rewrite (proj2 (lookup_ge_None _ i)); [done|].
      unfold queue. by rewrite enqueue_length.
  - by rewrite Hu, Hu'.
  - done.
  - done.
  - done.
  - done.
  - done.
  - exact Hd.
  - change (documentStatuses (run uploadCleanup ?s))
      with (documentStatuses s). by rewrite Hs, Hs'.
  - change (lastRefreshTime (run uploadCleanup ?s))
      with (lastRefreshTime s). by rewrite Ht, Ht'.
Qed.

(** X9 (upload button label).  At the end of a run, until the timer
    clears the queue, the counter on the button reads one more than the
    number of files uploaded successfully, over the number of files: when
    every upload has succeeded it reads n+1 of n.  The counter in the
    title of the progress list reads the number of successes over n. *)
Theorem upload_button_counter (f : Folder) (resp : DocumentsResponse)
    (files : list File) (s0 : State) :
  files ≠ [] →
  let body := run (uploadBody f clock outcome resp files) s0 in
  let n := length files in
  uploading body = true ∧
  buttonCounter (uploadQueue body) = Some (successes outcome 0 n + 1, n) ∧
  titleCounter (uploadQueue body) = (successes outcome 0 n, n) ∧
  ((∀ i, i < n → outcome i = None) →
   buttonCounter (uploadQueue body) = Some (n + 1, n)).
Proof.
  intros Hne. cbn zeta. rewrite body_queue.
  assert (Hlen : length (queueAfter outcome (enqueue clock 0 files)
                           (2 * length files)) = length files).
  { unfold queueAfter. by rewrite length_fmap, enqueue_length. }
  assert (Hc := completed_after 0 (2 * length files) files (le_n _)).
  assert (Hpos : 0 < length files) by (destruct files; [done|cbn; lia]).
  assert (Hb : buttonCounter (queueAfter outcome (enqueue clock 0 files)
                                (2 * length files))
               = Some (successes outcome 0 (length files) + 1, length files)).
  { unfold buttonCounter. rewrite Hlen, Hc. by rewrite decide_True. }
  split_and!.
  - set (queue := enqueue clock 0 files).
    set (s1 := run [SetUploadQueue queue; SetUploading true] s0).
    assert (run (uploadBody f clock outcome resp files) s0
            = run (reloadDocuments f resp)
                (run (queue ≫= uploadOne f outcome) s1)) as ->.
    { unfold uploadBody. fold queue. by rewrite !run_app. }
    destruct (reload_cells f resp (run (queue ≫= uploadOne f outcome) s1))
      as (_ & _ & -> & _).
    by destruct (loop_frame f queue s1) as (-> & _).
  - exact Hb.
  - unfold titleCounter. by rewrite Hlen, Hc.
  - intros Hall. rewrite Hb. do 3 f_equal.
    apply successes_all. intros i Hi. apply Hall. lia.
Qed.

Lemma enqueue_fresh (k : nat) (files : list File) :
  Forall (λ it, item_status it = "pending" ∧ item_progress it = 0 ∧
                item_error it = None) (enqueue clock k files).
Proof.
  revert k. induction files as [|x files IH]; intros k; cbn; [done|].
  constructor; [done|apply IH].
Qed.

(** X10 (upload progress list).  In every value the queue takes during
    the body of a run, the bar of an item shows 50 while it is uploading,
    100 once completed and 0 while pending or after an error, and an item
    carries an error message exactly when its status is error; the
    message is the one its upload failed with. *)
Theorem upload_item_display (f : Folder) (resp : DocumentsResponse)
    (files : list File) (s0 : State) (q : list QueueItem) (it : QueueItem) :
  q ∈ trace (uploadBody f clock outcome resp files) s0 → it ∈ q →
  shownProgress it =
    (if decide (item_status it = "uploading") then 50
     else if decide (item_status it = "completed") then 100 else 0) ∧
  (is_Some (item_error it) ↔ item_status it = "error") ∧
  (item_status it = "error" →
   item_error it = outcome (index (item_id it))).
Proof.
  intros Hq Hit.
  destruct (Progress_elem _ _ _ _ _ (body_progress f resp files s0) Hq)
    as [r ->].
  unfold queueAfter in Hit. apply list_elem_of_fmap in Hit as (it0 & -> & Hit0).
  pose proof (enqueue_fresh 0 files) as Hfresh.
  rewrite Forall_forall in Hfresh.
  destruct (Hfresh it0 Hit0) as (Hs & Hp & He).
  unfold itemAfter, shownProgress.
  destruct (decide (r ≤ 2 * index (item_id it0))) as [?|?].
  - rewrite Hs, Hp, He. split_and!; [done| |done].
    split; [by intros [? ?]|done].
  - destruct (decide (r = 2 * index (item_id it0) + 1)) as [?|?].
    + cbn. rewrite He. split_and!; [done| |done].
      split; [by intros [? ?]|done].
    + destruct (outcome (index (item_id it0))) as [msg|] eqn:Eo; cbn.
      * rewrite Hp. split_and!; [done| |by rewrite Eo]. by split.
      * rewrite He. split_and!; [done| |done].
        split; [by intros [? ?]|done].
Qed.

End UploadRunFacts.

Section UploadRunExamples.
Import JsString FolderContents UploadQueue FolderDocuments UploadView.

Lemma upload_button_counter_witness :
  let body := run (uploadBody RefreshExamples.policies (λ _, 1000%Z)
                     (λ _, None) (DocsOk (Some []))
                     [UploadExamples.file_a; UploadExamples.file_b])
                  initial in
  uploading body = true ∧
  buttonCounter (uploadQueue body)
    = Some (successes (λ _, None) 0 2 + 1, 2) ∧
  titleCounter (uploadQueue body) = (successes (λ _, None) 0 2, 2) ∧
  ((∀ i, i < 2 → (λ _ : nat, @None string) i = None) →
   buttonCounter (uploadQueue body) = Some (2 + 1, 2)).
Proof.
  apply (upload_button_counter (λ _, 1000%Z) (λ _, None)
           RefreshExamples.policies (DocsOk (Some []))
           [UploadExamples.file_a; UploadExamples.file_b] initial).
  done.
Defined.

Lemma upload_item_display_witness :
  let it := {| item_id := {| stamp := 1000; index := 0 |};
               item_file := UploadExamples.file_a;
               item_status := "uploading"; item_progress := 0;
               item_error := None |} in
  shownProgress it =
    (if decide (item_status it = "uploading") then 50
     else if decide (item_status it = "completed") then 100 else 0) ∧
  (is_Some (item_error it) ↔ item_status it = "error") ∧
  (item_status it = "error" →
   item_error it = (λ _ : nat, @None string) (index (item_id it))).
Proof.
  apply (upload_item_display (λ _, 1000%Z) (λ _, None)
           RefreshExamples.policies (DocsOk (Some []))
           [UploadExamples.file_a] initial
           [{| item_id := {| stamp := 1000; index := 0 |};
               item_file := UploadExamples.file_a;
               item_status := "uploading"; item_progress := 0;
               item_error := None |}]).
  - cbn. do 3 apply list_elem_of_further. apply list_elem_of_here.
  - apply list_elem_of_here.
Defined.

End UploadRunExamples.


(** * QuestionnairePanel.js: the marker, the stored answers, the list *)

Section PanelMarkerFacts.
Import QuestionnairePanel PanelExamples.

Lemma elem_of_delete_NoDup {A} (l : list A) (i : nat) (x y : A) :
  NoDup l → l !! i = Some x → y ∈ delete i l ↔ y ∈ l ∧ y ≠ x.
Proof.
  intros Hnd. revert i. induction Hnd as [|z l Hz Hnd IH]; intros i Hi; [done|].
  destruct i as [|i]; cbn in Hi |- *.
  - injection Hi as ->. rewrite elem_of_cons. split.
    + intros Hy. split; [by right|]. by intros ->.
    + by intros [[?|?] ?].
  - rewrite !elem_of_cons, (IH i Hi). split.
    + intros [->|[? ?]]; [|by split; [right|]].
      split; [by left|]. intros ->. apply Hz.
      by eapply list_elem_of_lookup_2.
    + intros [[->|?] ?]; [by left|by right].
Qed.

(** The marker set is exactly the set of questions with an invocation in
    flight, and no question has two. *)
Lemma marker_invariant (p : Props) (stored : gmap string (Value Answer))
    (u : Panel) :
  reachable p stored u →
  NoDup (inFlight u) ∧
  ∀ id, id ∈ answeringQuestions (panel_state u) ↔ id ∈ inFlight u.
Proof.
  induction 1 as [|u u' _ [Hnd Hin] Hstep].
  - split; [apply NoDup_nil_2|]. intros id. cbn. split.
    + by intros ?%not_elem_of_empty.
    + by intros ?%elem_of_nil.
  - destruct Hstep as [q u _ Hq | i w u Hi | p' u | e l u]; [| |done|done].
    + split; [by apply click_invariant; [| |intros id; apply Hin]|].
      intros id. unfold click.
      pose proof (start_answering (panel_state u) q (panel_state u)) as Ha.
      destruct (start (panel_state u) q (panel_state u))
        as [[s1 calls] goesOn].
      cbn in Ha. unfold inFlight in *. cbn. rewrite Ha. destruct goesOn.
      * rewrite fmap_app, elem_of_app, elem_of_union, Hin. cbn.
        by rewrite elem_of_singleton, list_elem_of_singleton.
      * rewrite elem_of_difference, elem_of_singleton, <- Hin.
        split; [by intros [? _]|]. intros Hid. split; [done|].
        by intros ->.
    + split; [by apply settle_invariant; [|intros id; apply Hin]|].
      intros id. unfold settle.
      destruct (flights u !! i) as [[closure q]|] eqn:Ei.
      2:{ apply lookup_ge_None in Ei. lia. }
      pose proof (resume_answering closure q w (panel_state u)) as Ha.
      destruct (resume closure q w (panel_state u)) as [s1 calls].
      cbn in Ha. unfold inFlight in *. cbn. rewrite Ha, list_fmap_delete.
      rewrite (elem_of_delete_NoDup _ i (question_id q) id Hnd).
      * by rewrite elem_of_difference, elem_of_singleton, Hin.
      * by rewrite list_lookup_fmap, Ei.
Qed.

(** X11 (handleAnswerQuestion, renderAnswer, AnswerButton).  In every
    state the panel can reach, a question shows the thinking state and
    has its button disabled, which is what membership in
    [answeringQuestions] does, exactly while an invocation for it is in
    flight; once nothing is in flight the set is empty. *)
Theorem thinking_iff_in_flight (p : Props)
    (stored : gmap string (Value Answer)) (u : Panel) :
  reachable p stored u →
  (∀ id, id ∈ answeringQuestions (panel_state u) ↔ id ∈ inFlight u) ∧
  (flights u = [] → answeringQuestions (panel_state u) = ∅).
Proof.
  intros Hr. destruct (marker_invariant p stored u Hr) as [_ Hin].
  split; [exact Hin|]. intros Hf. apply set_eq. intros id.
  rewrite Hin. unfold inFlight. rewrite Hf. cbn. split.
  - by intros ?%elem_of_nil.
  - by intros ?%not_elem_of_empty.
Qed.

Lemma thinking_iff_in_flight_witness :
  (∀ id, id ∈ answeringQuestions
                (panel_state (click question1 (mount overlay ∅)))
         ↔ id ∈ inFlight (click question1 (mount overlay ∅))) ∧
  (flights (click question1 (mount overlay ∅)) = [] →
   answeringQuestions (panel_state (click question1 (mount overlay ∅))) = ∅).
Proof.
  apply (thinking_iff_in_flight overlay ∅ (click question1 (mount overlay ∅))).
  eapply reachable_step; [apply reachable_mount|].
  apply step_click; [apply list_elem_of_here | apply not_elem_of_empty].
Defined.

End PanelMarkerFacts.


Section PanelAnswerFacts.
Import QuestionnairePanel PanelExamples.

(** X12 (handleAnswerQuestion with services/api.js as it is).  For a
    question the handler goes on for, it sends the generation request
    twice and never an evidence request: the call of
    findEvidenceForQuestion, which the module does not export, throws
    while the array for the parallel call is built, and the catch block
    asks for the answer again.  What is stored, if the repeated request
    gives a usable answer, carries no evidence data; the invocation
    ends in the error state with the marker cleared; and the question
    list is left as it was, so the question is never flagged answered by
    answering it. *)
Theorem answer_outcome (q : Question) (w : World) (s : State) :
  unanswered q s →
  let r := handleAnswerQuestion q w s in
  let id := question_id q in
  r.2 = [AnswerAuditQuestion id; AnswerAuditQuestion id] ∧
  (∀ k, FindEvidenceForQuestion k ∉ r.2) ∧
  (∀ v, questionAnswers r.1 !! id = Some v →
        ∃ a, v = Ref a ∧ evidence_data a = None) ∧
  error r.1 = failure (type_error w) ∧
  answeringQuestions r.1 = answeringQuestions s ∖ {[id]} ∧
  shownQuestions r.1 = shownQuestions s ∧
  internalQuestions r.1 = internalQuestions s ∧
  props r.1 = props s.
Proof.
  intros [Hg He]. cbn zeta.
  assert (Hown : questionAnswers s !! question_id q = None).
  { unfold get in Hg. by destruct (questionAnswers s !! question_id q). }
  unfold handleAnswerQuestion, start. rewrite Hg, He, resume_eq.
  assert (Hset : (answeringQuestions s ∪ {[question_id q]})
                   ∖ {[question_id q]}
                 = answeringQuestions s ∖ {[question_id q]}).
  { apply set_eq. intros x.
    rewrite !elem_of_difference, elem_of_union.
    split; [intros [[?|?] ?]; [by split|done]
           |intros [? ?]; split; [by left|done]]. }
  unfold afterRetry.
  destruct (usable (resolved (retry_answer w))) as [[res a]|]; cbn.
  - split_and!; try done.
    + intros k Hin. apply elem_of_cons in Hin as [?|Hin]; [done|].
      by apply list_elem_of_singleton in Hin.
    + intros v. rewrite lookup_insert_eq. intros [= <-]. by eexists.
  - split_and!; try done.
    + intros k Hin. apply elem_of_cons in Hin as [?|Hin]; [done|].
      by apply list_elem_of_singleton in Hin.
    + intros v Hv. by rewrite Hown in Hv.
Qed.

Lemma answer_outcome_witness :
  let r := handleAnswerQuestion question1 allGood mounted in
  let id := question_id question1 in
  r.2 = [AnswerAuditQuestion id; AnswerAuditQuestion id] ∧
  (∀ k, FindEvidenceForQuestion k ∉ r.2) ∧
  (∀ v, questionAnswers r.1 !! id = Some v →
        ∃ a, v = Ref a ∧ evidence_data a = None) ∧
  error r.1 = failure (type_error allGood) ∧
  answeringQuestions r.1 = answeringQuestions mounted ∖ {[id]} ∧
  shownQuestions r.1 = shownQuestions mounted ∧
  internalQuestions r.1 = internalQuestions mounted ∧
  props r.1 = props mounted.
Proof.
  apply (answer_outcome question1 allGood mounted). split; reflexivity.
Defined.

(** X13 (handleAnswerQuestion).  Whatever the requests do, an invocation
    changes no stored answer of another question and replaces no answer
    that is already stored: only an id without a stored answer can get
    one, and only the id of the question asked. *)
Theorem answer_keeps_stored_answers (q : Question) (w : World) (s : State)
    (k : string) :
  k ≠ question_id q ∨ is_Some (questionAnswers s !! k) →
  questionAnswers (handleAnswerQuestion q w s).1 !! k
  = questionAnswers s !! k.
Proof.
  intros Hk. unfold handleAnswerQuestion, start.
  destruct (get (questionAnswers s) (question_id q)) as [v0|] eqn:Eg;
    [done|].
  assert (Hown : questionAnswers s !! question_id q = None).
  { unfold get in Eg. by destruct (questionAnswers s !! question_id q). }
  assert (Hne : question_id q ≠ k).
  { destruct Hk as [?|[a Ha]]; [done|]. intros <-. by rewrite Hown in Ha. }
  destruct (existingAnswer q) as [v1|].
  - cbn. by rewrite lookup_insert_ne.
  - rewrite resume_eq. unfold afterRetry.
    destruct (usable (resolved (retry_answer w))) as [[? ?]|]; cbn;
      [by rewrite lookup_insert_ne|done].
Qed.

Lemma answer_keeps_stored_answers_witness :
  let r := handleAnswerQuestion question3 timeoutThenAnswer answeredTwo in
  (questionAnswers r.1 !! "q1" = questionAnswers answeredTwo !! "q1"
   ∧ questionAnswers r.1 !! "q2" = questionAnswers answeredTwo !! "q2")
  ∧ questionAnswers answeredTwo !! "q1" = Some (Ref yes90)
  ∧ questionAnswers answeredTwo !! "q2" = Some (Ref no50)
  ∧ questionAnswers r.1 !! "q3" = Some (Ref (withEvidence yes90 None)).
Proof.
  cbn zeta. split_and!.
  - apply (answer_keeps_stored_answers question3 timeoutThenAnswer
             answeredTwo "q1").
    left. discriminate.
  - apply (answer_keeps_stored_answers question3 timeoutThenAnswer
             answeredTwo "q2").
    right. vm_compute. by eexists.
  - vm_compute. reflexivity.
  - vm_compute. reflexivity.
  - vm_compute. reflexivity.
Defined.

Lemma start_list (closure : State) (q : Question) (s : State) :
  props (start closure q s).1.1 = props s ∧
  internalQuestions (start closure q s).1.1 = internalQuestions s.
Proof.
  unfold start.
  destruct (get (questionAnswers closure) (question_id q)); [done|].
  by destruct (existingAnswer q).
Qed.

Lemma resume_list (closure : State) (q : Question) (w : World) (s : State) :
  props (resume closure q w s).1 = props s ∧
  internalQuestions (resume closure q w s).1 = internalQuestions s.
Proof.
  rewrite resume_eq. unfold afterRetry.
  by destruct (usable (resolved (retry_answer w))) as [[? ?]|].
Qed.

(** X14 (handleAnswerQuestion and the question list).  Neither a click
    on an Answer button nor the return of a request changes the list of
    questions the panel shows, its [internalQuestions] or its props: the
    update that would flag the question answered (lines 853-867) is
    never reached.  The list shown changes only when the parent hands
    the panel a new one or another handler of the panel stores one. *)
Theorem answering_keeps_question_list (q : Question) (i : nat) (w : World)
    (u : Panel) :
  let same u' :=
    props (panel_state u') = props (panel_state u) ∧
    internalQuestions (panel_state u') = internalQuestions (panel_state u) ∧
    shownQuestions (panel_state u') = shownQuestions (panel_state u) in
  same (click q u) ∧ same (settle i w u).
Proof.
  cbn zeta. split.
  - unfold click.
    pose proof (start_list (panel_state u) q (panel_state u)) as [Hp Hi].
    destruct (start (panel_state u) q (panel_state u)) as [[s1 c] g].
    cbn in Hp, Hi |- *. split_and!; [done..|].
    unfold shownQuestions. by rewrite Hp, Hi.
  - unfold settle. destruct (flights u !! i) as [[closure q']|]; [|done].
    pose proof (resume_list closure q' w (panel_state u)) as [Hp Hi].
    destruct (resume closure q' w (panel_state u)) as [s1 c].
    cbn in Hp, Hi |- *. split_and!; [done..|].
    unfold shownQuestions. by rewrite Hp, Hi.
Qed.

End PanelAnswerFacts.


(** * QuestionnairePanel.js: loading, uploading and opening questionnaires *)

Section QuestionnaireListFacts.
Import JsObject QuestionnaireList.

Lemma answerMap_snoc (l : list (string * Answer)) (p : string * Answer) :
  answerMap (l ++ [p]) = assign (answerMap l) p.
Proof. unfold answerMap. by rewrite foldl_app. Qed.

(** The own properties of the map: for every name but [__proto__], the
    last answer listed for it. *)
Lemma answerMap_own (l : list (string * Answer)) (k : string) :
  own (answerMap l) !! k
  = if decide (k = "__proto__") then None
    else snd <$> last (filter (λ p, p.1 = k) l).
Proof.
  induction l as [|p l IH] using rev_ind.
  { cbn. rewrite lookup_empty. by destruct (decide _). }
  rewrite answerMap_snoc, filter_app. unfold assign.
  destruct (decide (p.1 = "__proto__")) as [Hp|Hp]; cbn [own].
  - rewrite IH. destruct (decide (k = "__proto__")) as [Hk|Hk]; [done|].
    rewrite filter_cons_False by congruence.
    by rewrite filter_nil, app_nil_r.
  - destruct (decide (p.1 = k)) as [Hk|Hk].
    + rewrite filter_cons_True by done. rewrite filter_nil, last_snoc.
      rewrite Hk, lookup_insert_eq.
      destruct (decide (k = "__proto__")); [congruence|done].
    + rewrite filter_cons_False by done. rewrite filter_nil, app_nil_r.
      by rewrite lookup_insert_ne.
Qed.

(** The prototype of the map: the last answer listed for [__proto__]. *)
Lemma answerMap_proto (l : list (string * Answer)) :
  proto (answerMap l) = snd <$> last (filter (λ p, p.1 = "__proto__") l).
Proof.
  induction l as [|p l IH] using rev_ind; [done|].
  rewrite answerMap_snoc, filter_app. unfold assign.
  destruct (decide (p.1 = "__proto__")) as [Hp|Hp]; cbn [proto].
  - rewrite filter_cons_True by done. by rewrite filter_nil, last_snoc.
  - rewrite filter_cons_False by done. by rewrite filter_nil, app_nil_r.
Qed.

(** What [answerMap[k]] gives after the answers [l] have been entered. *)
Lemma answerMap_lookup (truthy : Answer → string → bool)
    (l : list (string * Answer)) (k : string) :
  lookupAnswer truthy (answerMap l) k
  = match last (filter (λ p, p.1 = k) l),
          last (filter (λ p, p.1 = "__proto__") l) with
    | Some p, _ => Some (Ref p.2)
    | None, Some p => if truthy p.2 k then Some Alien else None
    | None, None => if inherited k then Some Alien else None
    end.
Proof.
  unfold lookupAnswer. rewrite answerMap_own, answerMap_proto.
  destruct (decide (k = "__proto__")) as [->|Hk].
  - by destruct (last (filter (λ p, p.1 = "__proto__") l)) as [p|].
  - destruct (last (filter (λ p, p.1 = k) l)) as [p|]; [done|].
    by destruct (last (filter (λ p, p.1 = "__proto__") l)) as [p|].
Qed.

(** X15 (handleViewQuestions).  The questions handed to the list view
    are the questions received, in the same order and with the same ids
    and texts.  A question for whose id the answers request listed an
    answer carries the last such answer as [existingAnswer] and is
    flagged answered, whatever it carried before.  A question without a
    listed answer carries what the empty object [answerMap] gives for
    its id: nothing for an ordinary id, where the flag stays as it was,
    and a member of [Object.prototype] for an id that names one, which
    flags the question answered; when an answer was listed under the id
    [__proto__], that answer has become the prototype of the map, and
    its property of that name decides instead. *)
Theorem view_questions_merge (truthy : Answer → string → bool)
    (questions : list Question) (existingAnswers : list (string * Answer)) :
  let merged := questionsWithAnswers truthy questions existingAnswers in
  QuestionnairePanel.question_id <$> merged
    = QuestionnairePanel.question_id <$> questions ∧
  QuestionnairePanel.question_text <$> merged
    = QuestionnairePanel.question_text <$> questions ∧
  ∀ i q, questions !! i = Some q →
    ∃ q', merged !! i = Some q' ∧
      let id := QuestionnairePanel.question_id q in
      match last (filter (λ p, p.1 = id) existingAnswers),
            last (filter (λ p, p.1 = "__proto__") existingAnswers) with
      | Some p, _ =>
          QuestionnairePanel.existingAnswer q' = Some (Ref p.2) ∧
          QuestionnairePanel.answered q' = true
      | None, Some p =>
          QuestionnairePanel.existingAnswer q'
            = (if truthy p.2 id then Some Alien else None) ∧
          QuestionnairePanel.answered q'
            = truthy p.2 id || QuestionnairePanel.answered q
      | None, None =>
          QuestionnairePanel.existingAnswer q'
            = (if inherited id then Some Alien else None) ∧
          QuestionnairePanel.answered q'
            = inherited id || QuestionnairePanel.answered q
      end.
Proof.
  cbn zeta. unfold questionsWithAnswers. split_and!.
  - rewrite <- list_fmap_compose. by apply list_fmap_ext.
  - rewrite <- list_fmap_compose. by apply list_fmap_ext.
  - intros i q Hq. eexists. rewrite list_lookup_fmap, Hq.
    split; [done|]. cbn. rewrite answerMap_lookup.
    destruct (last (filter _ existingAnswers)) as [p|]; [done|].
    destruct (last (filter _ existingAnswers)) as [p|].
    + destruct (truthy p.2 _); cbn; [done|]. by rewrite orb_false_r.
    + destruct (inherited _); cbn; [done|]. by rewrite orb_false_r.
Qed.

Lemma view_questions_merge_witness :
  let questions :=
    [PanelExamples.question1; PanelExamples.questionConstructor] in
  let existingAnswers := [("q1", PanelExamples.yes90)] in
  let merged := questionsWithAnswers (λ _ _, false) questions
                  existingAnswers in
  (QuestionnairePanel.question_id <$> merged
     = QuestionnairePanel.question_id <$> questions ∧
   QuestionnairePanel.question_text <$> merged
     = QuestionnairePanel.question_text <$> questions ∧
   ∀ i q, questions !! i = Some q →
     ∃ q', merged !! i = Some q' ∧
       let id := QuestionnairePanel.question_id q in
       match last (filter (λ p, p.1 = id) existingAnswers),
             last (filter (λ p, p.1 = "__proto__") existingAnswers) with
       | Some p, _ =>
           QuestionnairePanel.existingAnswer q' = Some (Ref p.2) ∧
           QuestionnairePanel.answered q' = true
       | None, Some p =>
           QuestionnairePanel.existingAnswer q' = None ∧
           QuestionnairePanel.answered q'
             = false || QuestionnairePanel.answered q
       | None, None =>
           QuestionnairePanel.existingAnswer q'
             = (if inherited id then Some Alien else None) ∧
           QuestionnairePanel.answered q'
             = inherited id || QuestionnairePanel.answered q
       end) ∧
  QuestionnairePanel.existingAnswer <$> merged
    = [Some (Ref PanelExamples.yes90); Some Alien].
Proof.
  split; [|vm_compute; reflexivity].
  exact (view_questions_merge (λ _ _, false)
           [PanelExamples.question1; PanelExamples.questionConstructor]
           [("q1", PanelExamples.yes90)]).
Defined.

(** X16 (handleViewQuestions).  Opening a questionnaire always asks for
    its questions and asks for its answers exactly when the questions
    request resolved; it always ends with [loadingQuestions] off.  When
    both requests give what is needed the merged list goes to the
    parent's callback if there is one and to the panel's own state
    otherwise, and no error is shown; in every other case the error
    message is set, nothing is handed to the parent and the selection in
    the panel's own state stays as it was. *)
Theorem view_questions_outcome (truthy : Answer → string → bool)
    (onView : bool) (qn : Questionnaire)
    (data : Settled (option (list Question)))
    (existing : Settled (option (list (string * Answer)))) (s : State) :
  let r := handleViewQuestions truthy onView qn data existing s in
  let id := questionnaire_id qn in
  loadingQuestions r.1 = false ∧
  head r.2 = Some (GetQuestionsFormatted id) ∧
  (GetAuditAnswers id ∈ r.2 ↔ ∃ qs, data = QuestionnairePanel.Resolved qs) ∧
  questionnaires r.1 = questionnaires s ∧
  match loadedQuestions truthy data existing with
  | Some merged =>
      error r.1 = None ∧
      (OnViewQuestions qn merged ∈ r.2 ↔ onView = true) ∧
      internalQuestions r.1
        = (if onView then internalQuestions s else merged) ∧
      internalSelectedQuestionnaire r.1
        = (if onView then internalSelectedQuestionnaire s else Some qn)
  | None =>
      error r.1 = Some "Failed to load questions. Please try again." ∧
      (∀ q l, OnViewQuestions q l ∉ r.2) ∧
      internalQuestions r.1 = internalQuestions s ∧
      internalSelectedQuestionnaire r.1 = internalSelectedQuestionnaire s
  end.
Proof.
  assert (H1 : ∀ id q l, OnViewQuestions q l ∉ [GetQuestionsFormatted id]).
  { intros id q l Hin. by apply list_elem_of_singleton in Hin. }
  assert (H2 : ∀ id q l,
            OnViewQuestions q l ∉ [GetQuestionsFormatted id;
                                   GetAuditAnswers id]).
  { intros id q l Hin. apply elem_of_cons in Hin as [?|Hin]; [done|].
    by apply list_elem_of_singleton in Hin. }
  assert (H3 : ∀ id, GetAuditAnswers id ∉ [GetQuestionsFormatted id]).
  { intros id Hin. by apply list_elem_of_singleton in Hin. }
  assert (H4 : ∀ id rest,
            GetAuditAnswers id
            ∈ GetQuestionsFormatted id :: GetAuditAnswers id :: rest).
  { intros. by repeat constructor. }
  cbn zeta. unfold handleViewQuestions, loadedQuestions.
  destruct data as [[qs|]|m].
  - destruct existing as [[answers|]|m'].
    + destruct onView; cbn; split_and!; try done.
      * split; [by eexists|done].
      * split; [done|]. intros _. by repeat constructor.
      * split; [by eexists|done].
      * split; [by intros ?%H2|done].
    + cbn; split_and!; try done. split; [by eexists|done].
    + cbn; split_and!; try done. split; [by eexists|done].
  - destruct existing as [[answers|]|m']; cbn; split_and!; try done;
      (split; [by eexists|done]).
  - cbn; split_and!; try done. split; [by intros ?%H3|by intros [? ?]].
Qed.

(** X17 (handleFileUpload, loadQuestionnaires).  Nothing is uploaded
    unless a file of type application/pdf was chosen, and then the state
    is untouched.  For a PDF the upload request is sent first and the
    handler ends with [uploading] off and the file input reset.  The
    list is reloaded and the success alert shown exactly when the upload
    request succeeded, also when the reload then fails: in that case the
    error shown is the one of the reload and the list is empty.  When the
    upload fails the list stays as it was and the upload error is
    shown. *)
Theorem questionnaire_upload_outcome (file : option PickedFile)
    (up : Settled unit) (reload : Settled (option (list Questionnaire)))
    (s : State) :
  let r := handleFileUpload file up reload s in
  let pdf := ∃ f, file = Some f ∧ picked_type f = "application/pdf" in
  let uploaded :=
    match up with QuestionnairePanel.Resolved _ => true | _ => false end in
  (¬ pdf → r.1 = s ∧ ∀ f, UploadQuestionnaire f ∉ r.2) ∧
  (pdf →
   (∃ f, file = Some f ∧ head r.2 = Some (UploadQuestionnaire f)) ∧
   last r.2 = Some ResetFileInput ∧
   uploading r.1 = false ∧
   (GetQuestionnaires ∈ r.2 ↔ uploaded = true) ∧
   (Alert "Questionnaire uploaded successfully!" ∈ r.2 ↔ uploaded = true) ∧
   questionnaires r.1
     = (if uploaded
        then match reload with
             | QuestionnairePanel.Resolved data => default [] data
             | QuestionnairePanel.Rejected _ => []
             end
        else questionnaires s) ∧
   error r.1
     = (if uploaded
        then match reload with
             | QuestionnairePanel.Resolved _ => None
             | QuestionnairePanel.Rejected _ =>
                 Some "Failed to load questionnaires. Please check your connection."
             end
        else Some "Failed to upload questionnaire. Please try again.")).
Proof.
  cbn zeta. unfold handleFileUpload. destruct file as [f|].
  2:{ split; [|by intros (? & ? & _)]. intros _. split; [done|].
      intros f' Hin. by apply elem_of_nil in Hin. }
  destruct (decide (picked_type f ≠ "application/pdf")) as [Hne|Heq].
  - split; [|by intros (f' & [= <-] & ?)]. intros _. split; [done|].
    intros f' Hin. by apply list_elem_of_singleton in Hin.
  - apply dec_stable in Heq. split; [intros Hn; destruct Hn; eauto|].
    intros _.
    destruct up as [[]|m].
    + unfold loadQuestionnaires. destruct reload as [data|m'];
        cbn; (split_and!; try done; [by eexists| |]);
        (split; [done|]; intros _; by repeat constructor).
    + cbn. split_and!; try done; [by eexists| |].
      * split; [|done]. intros Hin.
        apply elem_of_cons in Hin as [?|Hin]; [done|].
        by apply list_elem_of_singleton in Hin.
      * split; [|done]. intros Hin.
        apply elem_of_cons in Hin as [?|Hin]; [done|].
        by apply list_elem_of_singleton in Hin.
Qed.

Lemma questionnaire_upload_outcome_witness :
  let file := Some {| picked_name := "audit.pdf";
                      picked_type := "application/pdf" |} in
  let r := handleFileUpload file (QuestionnairePanel.Resolved ())
             (QuestionnairePanel.Rejected "Network Error") initial in
  (¬ (∃ f, file = Some f ∧ picked_type f = "application/pdf") →
   r.1 = initial ∧ ∀ f, UploadQuestionnaire f ∉ r.2) ∧
  ((∃ f, file = Some f ∧ picked_type f = "application/pdf") →
   (∃ f, file = Some f ∧ head r.2 = Some (UploadQuestionnaire f)) ∧
   last r.2 = Some ResetFileInput ∧
   uploading r.1 = false ∧
   (GetQuestionnaires ∈ r.2 ↔ true = true) ∧
   (Alert "Questionnaire uploaded successfully!" ∈ r.2 ↔ true = true) ∧
   questionnaires r.1 = [] ∧
   error r.1
     = Some "Failed to load questionnaires. Please check your connection.").
Proof.
  exact (questionnaire_upload_outcome
           (Some {| picked_name := "audit.pdf";
                    picked_type := "application/pdf" |})
           (QuestionnairePanel.Resolved ())
           (QuestionnairePanel.Rejected "Network Error") initial).
Defined.

End QuestionnaireListFacts.


(** * MainLayout.js: navigation between the panels *)

Section NavigationFacts.
Import Navigation.

Lemma step_invariant (s : State) (e : Event) :
  (showQuestions s = true ↔ is_Some (selectedQuestionnaire s)) →
  (showQuestions s = false → questions s = []) →
  (showQuestions (step s e) = true ↔ is_Some (selectedQuestionnaire (step s e)))
  ∧ (showQuestions (step s e) = false → questions (step s e) = []).
Proof.
  intros H1 H2. destruct e as [f| |qn qs|]; cbn; [done|done| |].
  - split; [|done]. split; [by eexists|done].
  - split; [|done]. split; [done|by intros [? ?]].
Qed.

(** X18 (MainLayout: handleFolderSelect, handleBackToFolders,
    handleViewQuestions, handleCloseQuestions).  After any sequence of
    navigation events the overlay is shown exactly when a questionnaire
    is selected, so whenever it is shown it lists questions and never
    falls through to the upload view; while it is closed the parent
    holds no questions.  The right panel shows the contents of a folder
    exactly when one is selected, and opening a questionnaire deselects
    the folder. *)
Theorem navigation_invariant (events : list Event) :
  let s := run events in
  (showQuestions s = true ↔ is_Some (selectedQuestionnaire s)) ∧
  (showQuestions s = false → questions s = []) ∧
  overlayLists s = showQuestions s ∧
  (is_Some (overlayProps s) ↔ is_Some (selectedQuestionnaire s)) ∧
  (∀ qn qs, rightPanel (step s (ViewQuestions qn qs)) = QuestionnaireView).
Proof.
  cbn zeta.
  assert (Hinv : (showQuestions (run events) = true
                  ↔ is_Some (selectedQuestionnaire (run events)))
                 ∧ (showQuestions (run events) = false
                    → questions (run events) = [])).
  { unfold run. induction events as [|e events IH] using rev_ind.
    - cbn. split; [|done]. split; [done|by intros [? ?]].
    - rewrite foldl_app. cbn [foldl]. destruct IH as [IH1 IH2].
      by apply step_invariant. }
  destruct Hinv as [H1 H2]. split_and!; try done.
  - unfold overlayLists. destruct (showQuestions (run events)) eqn:E; [|done].
    cbn. apply bool_decide_true. by apply H1.
  - unfold overlayProps. rewrite <- H1.
    destruct (showQuestions (run events)); split;
      first [done | by eexists | by intros [? ?]].
Qed.

(** X19 (QuestionnairePanel handleViewQuestions, MainLayout
    handleViewQuestions, renderAnswer, handleAnswerQuestion).  When the
    questions and the answers of a questionnaire load, the right panel
    keeps showing the questionnaires and the overlay lists the merged
    questions.  For every listed question with an answer in the database
    whose id is not the name of a member of [Object.prototype],
    renderAnswer has an answer at once: the database one, with no
    question thinking, when the overlay was closed before (an overlay
    that was open keeps what it holds, and that takes precedence).  A
    click on its Answer button sends no request, starts no invocation
    and leaves that answer as it is. *)
Theorem opened_questionnaire_shows_stored_answers
    (truthy : QuestionnairePanel.Answer → string → bool)
    (qn : Questionnaire) (qs : list Question)
    (answers : list (string * QuestionnairePanel.Answer))
    (list : QuestionnaireList.State) (nav : State)
    (overlay : option QuestionnairePanel.Panel) :
  let r := openQuestionnaire truthy qn
             (QuestionnairePanel.Resolved (Some qs))
             (QuestionnairePanel.Resolved (Some answers)) list nav overlay in
  rightPanel r.1.2 = QuestionnaireView ∧ overlayLists r.1.2 = true ∧
  ∃ u, r.2 = Some u ∧
    QuestionnairePanel.shownQuestions (QuestionnairePanel.panel_state u)
      = QuestionnaireList.questionsWithAnswers truthy qs answers ∧
    (showQuestions nav = false →
     QuestionnairePanel.answeringQuestions (QuestionnairePanel.panel_state u)
       = ∅) ∧
    ∀ q a,
      q ∈ QuestionnairePanel.shownQuestions (QuestionnairePanel.panel_state u) →
      snd <$> last (filter (λ p, p.1 = QuestionnairePanel.question_id q)
                      answers) = Some a →
      JsObject.inherited (QuestionnairePanel.question_id q) = false →
      ∃ a',
        QuestionnairePanel.shownAnswer q (QuestionnairePanel.panel_state u)
          = Some a' ∧
        (showQuestions nav = false → a' = JsObject.Ref a) ∧
        QuestionnairePanel.sent (QuestionnairePanel.click q u)
          = QuestionnairePanel.sent u ∧
        QuestionnairePanel.flights (QuestionnairePanel.click q u)
          = QuestionnairePanel.flights u ∧
        QuestionnairePanel.shownAnswer q
          (QuestionnairePanel.panel_state (QuestionnairePanel.click q u))
          = Some a'.
Proof.
  cbn zeta. unfold openQuestionnaire. cbn.
  split; [done|]. split; [done|]. eexists. split; [done|].
  set (merged := QuestionnaireList.questionsWithAnswers truthy qs answers).
  set (old := if showQuestions nav then overlay else None).
  assert (Hold : showQuestions nav = false → old = None).
  { intros E. unfold old. by rewrite E. }
  assert (Hshown : QuestionnairePanel.shownQuestions
            (QuestionnairePanel.panel_state
               (render {| QuestionnairePanel.questions := Some merged;
                          QuestionnairePanel.onViewQuestions := false |}
                       old)) = merged) by (by destruct old).
  split; [exact Hshown|]. split; [intros E; by rewrite (Hold E)|].
  rewrite Hshown. intros q a Hq Ha Hord.
  assert (He : QuestionnairePanel.existingAnswer q = Some (JsObject.Ref a)).
  { unfold merged, QuestionnaireList.questionsWithAnswers in Hq.
    apply list_elem_of_fmap in Hq as (q0 & -> & _). cbn in Ha, Hord |- *.
    rewrite answerMap_lookup.
    destruct (last (filter _ answers)) as [p|]; [|done].
    cbn in Ha. by injection Ha as ->. }
  unfold QuestionnairePanel.click, QuestionnairePanel.shownAnswer,
    QuestionnairePanel.start.
  rewrite (get_ordinary _ _ Hord).
  destruct (QuestionnairePanel.questionAnswers _ !! _) as [a'|] eqn:Ea.
  - exists a'. cbn.
    rewrite (get_ordinary _ _ Hord), Ea, app_nil_r.
    split_and!; try done.
    intros E. rewrite (Hold E) in Ea. cbn in Ea.
    by rewrite lookup_empty in Ea.
  - exists (JsObject.Ref a). rewrite He. cbn.
    rewrite (get_ordinary _ _ Hord).
    rewrite lookup_insert_eq, app_nil_r. done.
Qed.

Lemma opened_questionnaire_shows_stored_answers_witness :
  let qn := {| QuestionnaireList.questionnaire_id := "qn1";
               QuestionnaireList.filename := "audit.pdf" |} in
  let answers := [("q1", PanelExamples.yes90)] in
  let truthy := λ _ _, false in
  let r := openQuestionnaire truthy qn
             (QuestionnairePanel.Resolved (Some [PanelExamples.question1]))
             (QuestionnairePanel.Resolved (Some answers))
             QuestionnaireList.initial initial None in
  (rightPanel r.1.2 = QuestionnaireView ∧ overlayLists r.1.2 = true ∧
   ∃ u, r.2 = Some u ∧
     QuestionnairePanel.shownQuestions (QuestionnairePanel.panel_state u)
       = QuestionnaireList.questionsWithAnswers truthy
           [PanelExamples.question1] answers ∧
     (showQuestions initial = false →
      QuestionnairePanel.answeringQuestions
        (QuestionnairePanel.panel_state u) = ∅) ∧
     ∀ q a,
       q ∈ QuestionnairePanel.shownQuestions
             (QuestionnairePanel.panel_state u) →
       snd <$> last (filter (λ p, p.1 = QuestionnairePanel.question_id q)
                       answers) = Some a →
       JsObject.inherited (QuestionnairePanel.question_id q) = false →
       ∃ a',
         QuestionnairePanel.shownAnswer q (QuestionnairePanel.panel_state u)
           = Some a' ∧
         (showQuestions initial = false → a' = JsObject.Ref a) ∧
         QuestionnairePanel.sent (QuestionnairePanel.click q u)
           = QuestionnairePanel.sent u ∧
         QuestionnairePanel.flights (QuestionnairePanel.click q u)
           = QuestionnairePanel.flights u ∧
         QuestionnairePanel.shownAnswer q
           (QuestionnairePanel.panel_state (QuestionnairePanel.click q u))
           = Some a') ∧
  QuestionnairePanel.existingAnswer
    <$> QuestionnaireList.questionsWithAnswers truthy
          [PanelExamples.question1] answers
    = [Some (JsObject.Ref PanelExamples.yes90)] ∧
  JsObject.inherited "q1" = false.
Proof.
  split; [|split; vm_compute; reflexivity].
  exact (opened_questionnaire_shows_stored_answers (λ _ _, false)
           {| QuestionnaireList.questionnaire_id := "qn1";
              QuestionnaireList.filename := "audit.pdf" |}
           [PanelExamples.question1] [("q1", PanelExamples.yes90)]
           QuestionnaireList.initial initial None).
Defined.

End NavigationFacts.


(** * MainLayout.js: the resizer beyond the bounds of the left panel *)

Section ResizerFacts.
Import MainLayout MainLayoutView.
Local Open Scope Q_scope.

Variable R : Rounding.

Lemma numLe_between (x : Num) :
  numLe (Fin 20) x → numLe x (Fin 80) → inRange x.
Proof. destruct x as [q| | |]; cbn; try done. Qed.

(** X20 (MainLayout: RightPanel width).  After any sequence of events of
    a layout on screen the right panel, whose width is 100 minus the
    left width, is a number from 20 to 80 as well: neither panel can be
    dragged narrower than a fifth of the container. *)
Theorem rightWidth_in_range (evs : list Event) :
  Forall wf_event evs → inRange (rightWidth R (run R evs)).
Proof.
  intros Hevs.
  assert (Hl : inRange (leftWidth (run R evs))).
  { apply (fold_inRange R evs initial Hevs). split; done. }
  unfold rightWidth. destruct (leftWidth (run R evs)) as [q| | |]; try done.
  destruct Hl as [H20 H80].
  assert (Hlo : 20 <= 100 - q)
    by (destruct q as [n d]; unfold Qle in *; cbn in *; lia).
  assert (Hhi : 100 - q <= 80)
    by (destruct q as [n d]; unfold Qle in *; cbn in *; lia).
  apply numLe_between.
  - rewrite <- (fl_20 R). by apply fl_monotone.
  - rewrite <- (fl_80 R). by apply fl_monotone.
Qed.

Lemma idle_step (s : State) (e : Event) :
  isResizing s = false → frames s = [] → isMouseDown e = false →
  isResizing (step R s e) = false ∧ frames (step R s e) = [] ∧
  leftWidth (step R s e) = if isDoubleClick e then Fin 50 else leftWidth s.
Proof.
  intros Hr Hf He. destruct e as [|x|r| |]; cbn; try done.
  - unfold handleMouseMove. by rewrite Hr.
  - unfold animationFrame. by rewrite Hf.
Qed.

(** X21 (handleMouseMove, handleMouseUp, animation frames).  While no
    drag is on and no frame is pending, pointer moves and animation
    frames change nothing: until the next mouse down on the resizer the
    width stays what it was, or is 50 once the resizer has been double
    clicked. *)
Theorem idle_pointer_moves_ignored (evs : list Event) (s : State) :
  isResizing s = false → frames s = [] →
  forallb (λ e, negb (isMouseDown e)) evs = true →
  leftWidth (fold_left (step R) evs s)
    = (if existsb isDoubleClick evs then Fin 50 else leftWidth s) ∧
  frames (fold_left (step R) evs s) = [] ∧
  isResizing (fold_left (step R) evs s) = false.
Proof.
  revert s. induction evs as [|e evs IH]; intros s Hr Hf Hevs; [done|].
  cbn in Hevs. apply andb_prop in Hevs as [He Hevs].
  apply negb_true_iff in He.
  destruct (idle_step s e Hr Hf He) as (Hr' & Hf' & Hw).
  destruct (IH (step R s e) Hr' Hf' Hevs) as (IHw & IHf & IHr).
  cbn [fold_left existsb]. rewrite IHw, Hw. split_and!; [|done|done].
  destruct (isDoubleClick e); cbn; [|done].
  by destruct (existsb isDoubleClick evs).
Qed.

Lemma frames_drain (pending : list Q) (rects : list DOMRect) (s : State)
    (x : Q) :
  frames s = pending ++ [x] → length rects = length pending →
  frames (fold_left (step R) (AnimationFrame <$> rects) s) = [x] ∧
  isResizing (fold_left (step R) (AnimationFrame <$> rects) s)
    = isResizing s.
Proof.
  revert rects s. induction pending as [|y pending IH];
    intros [|r rects] s Hf Hlen; try done.
  cbn [fmap list_fmap fold_left step]. injection Hlen as Hlen.
  destruct (IH rects (animationFrame R r s)) as [-> ->]; [|done|].
  - unfold animationFrame. by rewrite Hf.
  - unfold animationFrame. by rewrite Hf.
Qed.

Lemma clamp_percent (p : Q) :
  (p <= 20 → Qmin (Qmax p 20) 80 == 20) ∧
  (80 <= p → Qmin (Qmax p 20) 80 == 80) ∧
  (20 <= p ∧ p <= 80 → Qmin (Qmax p 20) 80 == p).
Proof.
  split_and!.
  - intros Hp. apply Qle_antisym.
    + eapply Qle_trans; [apply Q.le_min_l|].
      apply Q.max_lub; [exact Hp | apply Qle_refl].
    + apply Q.min_glb; [apply Q.le_max_r | done].
  - intros Hp. apply Qle_antisym.
    + apply Q.le_min_r.
    + apply Q.min_glb; [|apply Qle_refl].
      eapply Qle_trans; [exact Hp | apply Q.le_max_l].
  - intros [H20 H80]. apply Qle_antisym.
    + eapply Qle_trans; [apply Q.le_min_l|].
      apply Q.max_lub; [apply Qle_refl | exact H20].
    + apply Q.min_glb; [apply Q.le_max_l | exact H80].
Qed.

(** X22 (handleMouseMove and its animation frame).  During a drag, once
    the frames queued for earlier moves and the frame of the last move
    have run, no frame is pending and the left width is decided by the
    last move alone: it is the percentage the last frame computed, in
    doubles, from the pointer position of that move and the container it
    measured, when that lies between 20 and 80; it is 20 when the
    computed value is smaller or minus infinity, and 80 when it is larger
    or infinity. *)
Theorem drag_ends_at_pointer (s : State) (x : Q) (rects : list DOMRect)
    (r : DOMRect) :
  isResizing s = true → length rects = length (frames s) →
  0 < rect_width r →
  let s' := fold_left (step R)
              (MouseMove x :: (AnimationFrame <$> (rects ++ [r]))) s in
  frames s' = [] ∧
  leftWidth s' = constrainedWidth (newLeftWidth R x r) ∧
  ∃ w, leftWidth s' = Fin w ∧
       match newLeftWidth R x r with
       | Fin p => (p <= 20 → w == 20) ∧ (80 <= p → w == 80) ∧
                  (20 <= p ∧ p <= 80 → w == p)
       | PosInf => w == 80
       | NegInf => w == 20
       | NaN => False
       end.
Proof.
  intros Hr Hlen Hw. cbn zeta. cbn [fold_left step].
  rewrite fmap_app, fold_left_app.
  destruct (frames_drain (frames s) rects (handleMouseMove x s) x)
    as [Hf _]; [|done|].
  { unfold handleMouseMove. by rewrite Hr. }
  cbn [fmap list_fmap fold_left step]. unfold animationFrame. rewrite Hf.
  cbn [frames leftWidth]. split; [done|]. split; [done|].
  pose proof (newLeftWidth_not_NaN R x r Hw) as Hn.
  destruct (newLeftWidth R x r) as [p| | |]; [| | |done].
  - eexists. split; [reflexivity|]. apply clamp_percent.
  - by exists 80.
  - by exists 20.
Qed.

End ResizerFacts.

Section ResizerExamples.
Import MainLayout MainLayoutView.
Local Open Scope Q_scope.

Lemma rightWidth_in_range_witness :
  inRange (rightWidth exact (run exact drag_far_right)).
Proof.
  apply (rightWidth_in_range exact drag_far_right).
  repeat constructor; reflexivity.
Defined.

Lemma idle_pointer_moves_ignored_witness :
  leftWidth (fold_left (step exact)
               [MouseMove 300;
                AnimationFrame {| rect_left := 0; rect_width := 1920 |};
                MouseUp; MouseMove 900]
               (run exact drag_far_right))
    = (if existsb isDoubleClick
            [MouseMove 300;
             AnimationFrame {| rect_left := 0; rect_width := 1920 |};
             MouseUp; MouseMove 900]
       then Fin 50 else leftWidth (run exact drag_far_right)) ∧
  frames (fold_left (step exact)
            [MouseMove 300;
             AnimationFrame {| rect_left := 0; rect_width := 1920 |};
             MouseUp; MouseMove 900]
            (run exact drag_far_right)) = [] ∧
  isResizing (fold_left (step exact)
                [MouseMove 300;
                 AnimationFrame {| rect_left := 0; rect_width := 1920 |};
                 MouseUp; MouseMove 900]
                (run exact drag_far_right)) = false.
Proof.
  apply (idle_pointer_moves_ignored exact
           [MouseMove 300;
            AnimationFrame {| rect_left := 0; rect_width := 1920 |};
            MouseUp; MouseMove 900]
           (run exact drag_far_right)); reflexivity.
Defined.

Lemma drag_ends_at_pointer_witness :
  let r := {| rect_left := 0; rect_width := 1920 |} in
  let s' := fold_left (step exact)
              (MouseMove 960 :: (AnimationFrame <$> ([] ++ [r])))
              (handleMouseDown initial) in
  frames s' = [] ∧
  leftWidth s' = constrainedWidth (newLeftWidth exact 960 r) ∧
  ∃ w, leftWidth s' = Fin w ∧
       match newLeftWidth exact 960 r with
       | Fin p => (p <= 20 → w == 20) ∧ (80 <= p → w == 80) ∧
                  (20 <= p ∧ p <= 80 → w == p)
       | PosInf => w == 80
       | NegInf => w == 20
       | NaN => False
       end.
Proof.
  apply (drag_ends_at_pointer exact (handleMouseDown initial) 960 []
           {| rect_left := 0; rect_width := 1920 |}); reflexivity.
Defined.

End ResizerExamples.


(** * PolicyPanel.js: the name of a new policy folder *)

Section PolicyPanelFacts.
Import PolicyPanel.

Lemma trimStart_split (s : jsString) :
  ∃ pre, s = pre ++ trimStart s ∧
         Forall (λ c, isWhiteSpace c = true) pre ∧
         ∀ c, head (trimStart s) = Some c → isWhiteSpace c = false.
Proof.
  induction s as [|c s (pre & Hs & Hpre & Hhead)].
  - exists []. by split_and!.
  - cbn [trimStart]. destruct (isWhiteSpace c) eqn:Ec.
    + exists (c :: pre). split_and!; [by rewrite Hs at 1| by constructor | done].
    + exists []. split_and!; [done..|]. cbn. by intros ? [= <-].
Qed.

Lemma head_reverse {A} (l : list A) : head (reverse l) = last l.
Proof.
  induction l as [|x l IH] using rev_ind; [done|].
  by rewrite reverse_app, last_snoc.
Qed.

(** [trim] cuts white space off both ends and nothing else. *)
Lemma trim_split (s : jsString) :
  ∃ pre post, s = pre ++ trim s ++ post ∧
    Forall (λ c, isWhiteSpace c = true) pre ∧
    Forall (λ c, isWhiteSpace c = true) post ∧
    (∀ c, head (trim s) = Some c → isWhiteSpace c = false) ∧
    (∀ c, last (trim s) = Some c → isWhiteSpace c = false).
Proof.
  destruct (trimStart_split s) as (pre & Hs & Hpre & Hhead).
  destruct (trimStart_split (reverse (trimStart s)))
    as (post' & Hr & Hpost & Hlast).
  assert (Ht : trimStart s = trim s ++ reverse post').
  { unfold trim, trimEnd. rewrite <- reverse_app, <- Hr.
    by rewrite reverse_involutive. }
  exists pre, (reverse post'). split_and!.
  - by rewrite <- Ht.
  - done.
  - by apply Forall_reverse.
  - intros c Hc. apply Hhead. rewrite Ht.
    by destruct (trim s).
  - intros c Hc. apply Hlast. unfold trim, trimEnd in Hc.
    by rewrite <- head_reverse, reverse_involutive in Hc.
Qed.

Lemma trim_blank (s : jsString) :
  trim s = [] ↔ Forall (λ c, isWhiteSpace c = true) s.
Proof.
  destruct (trim_split s) as (pre & post & Hs & Hpre & Hpost & Hhead & _).
  split.
  - intros Ht. rewrite Hs, Ht. cbn. by apply Forall_app.
  - intros Hall. destruct (trim s) as [|c t] eqn:Et; [done|].
    specialize (Hhead c eq_refl).
    rewrite Hs in Hall. apply Forall_app in Hall as [_ Hall].
    apply Forall_cons in Hall as [Hc _]. congruence.
Qed.

(** X23 (handleCreatePolicy).  A name that is empty or all white space
    is refused with an alert: no request, no change of state.  Otherwise
    the first effect is the request to create a folder of type custom
    whose name is the typed name without the white space around it; that
    name is not empty and neither starts nor ends with white space. *)
Theorem create_policy_name (created : CreateResponse)
    (reload : Settled (option (list Folder))) (s : State) :
  let r := handleCreatePolicy created reload s in
  (Forall (λ c, isWhiteSpace c = true) (policyName s) →
   r = (s, [Alert "Please enter a policy name"])) ∧
  (¬ Forall (λ c, isWhiteSpace c = true) (policyName s) →
   ∃ pre name post,
     policyName s = pre ++ name ++ post ∧
     Forall (λ c, isWhiteSpace c = true) pre ∧
     Forall (λ c, isWhiteSpace c = true) post ∧
     (∃ c, head name = Some c ∧ isWhiteSpace c = false) ∧
     (∃ c, last name = Some c ∧ isWhiteSpace c = false) ∧
     head r.2 = Some (CreateFolder name "custom") ∧
     ∀ n t, CreateFolder n t ∈ r.2 → n = name ∧ t = "custom").
Proof.
  cbn zeta. split.
  - intros Hb%trim_blank. unfold handleCreatePolicy. by rewrite Hb.
  - intros Hnb. rewrite <- trim_blank in Hnb.
    destruct (trim_split (policyName s))
      as (pre & post & Hs & Hpre & Hpost & Hhead & Hlast).
    exists pre, (trim (policyName s)), post.
    unfold handleCreatePolicy.
    destruct (trim (policyName s)) as [|c t] eqn:Et; [done|].
    split_and!; try done.
    + exists c. split; [done|]. by apply Hhead.
    + destruct (last (c :: t)) as [c'|] eqn:El.
      * exists c'. split; [done|]. by apply Hlast.
      * by apply last_None in El.
    + by destruct created; [..|destruct (loadFolders _ _)].
    + intros n ty Hin.
      destruct created; cbn in Hin;
        try (apply list_elem_of_singleton in Hin; by injection Hin as -> ->).
      destruct reload; cbn in Hin;
        repeat (apply elem_of_cons in Hin as [Hin|Hin];
                [by first [injection Hin as -> -> | discriminate Hin]|]);
        by apply elem_of_nil in Hin.
Qed.

Lemma create_policy_name_witness :
  let s := setPolicyName [32; 72; 82; 32; 80; 111; 108; 105; 99; 121; 10]%N
             (handleAddPolicy initial) in
  let r := handleCreatePolicy CreateOk (Resolved (Some [])) s in
  (Forall (λ c, isWhiteSpace c = true) (policyName s) →
   r = (s, [Alert "Please enter a policy name"])) ∧
  (¬ Forall (λ c, isWhiteSpace c = true) (policyName s) →
   ∃ pre name post,
     policyName s = pre ++ name ++ post ∧
     Forall (λ c, isWhiteSpace c = true) pre ∧
     Forall (λ c, isWhiteSpace c = true) post ∧
     (∃ c, head name = Some c ∧ isWhiteSpace c = false) ∧
     (∃ c, last name = Some c ∧ isWhiteSpace c = false) ∧
     head r.2 = Some (CreateFolder name "custom") ∧
     ∀ n t, CreateFolder n t ∈ r.2 → n = name ∧ t = "custom").
Proof.
  exact (create_policy_name CreateOk (Resolved (Some []))
           (setPolicyName [32; 72; 82; 32; 80; 111; 108; 105; 99; 121; 10]%N
              (handleAddPolicy initial))).
Defined.

(** X24 (handleCreatePolicy, loadFolders).  For a name that is not
    blank the handler ends with [uploading] off.  The dialog is closed,
    the name field emptied, the folders reloaded and the success alert
    shown exactly when the folder was created, also when the reload then
    fails: in that case the error shown is the one of the reload and the
    folder list is empty.  When the creation fails the dialog stays open
    with the name as typed, the folder list is kept and the creation
    error is shown. *)
Theorem create_policy_outcome (created : CreateResponse)
    (reload : Settled (option (list Folder))) (s : State) :
  trim (policyName s) ≠ [] →
  let r := handleCreatePolicy created reload s in
  let ok := bool_decide (created = CreateOk) in
  uploading r.1 = false ∧
  (GetPolicyFolders ∈ r.2 ↔ ok = true) ∧
  (Alert "Policy folder created successfully!" ∈ r.2 ↔ ok = true) ∧
  showModal r.1 = (if ok then false else showModal s) ∧
  policyName r.1 = (if ok then [] else policyName s) ∧
  folders r.1
    = (if ok
       then match reload with
            | QuestionnairePanel.Resolved data => default [] data
            | QuestionnairePanel.Rejected _ => []
            end
       else folders s) ∧
  error r.1
    = (if ok
       then match reload with
            | QuestionnairePanel.Resolved _ => None
            | QuestionnairePanel.Rejected _ =>
                Some "Failed to load policy folders. Please check your connection."
            end
       else Some "Failed to create policy folder. Please try again.").
Proof.
  intros Hne. cbn zeta. unfold handleCreatePolicy.
  destruct (trim (policyName s)) as [|c t]; [done|].
  assert (Hone : ∀ (e : Effect) n ty,
            e ∈ [CreateFolder n ty] → e = CreateFolder n ty).
  { intros e n ty Hin. by apply list_elem_of_singleton in Hin. }
  destruct created; cbn.
  - split_and!; try done; (split; [by intros ?%Hone|done]).
  - split_and!; try done; (split; [by intros ?%Hone|done]).
  - split_and!; try done; (split; [by intros ?%Hone|done]).
  - destruct reload as [data|m]; cbn;
      (split_and!; try done; (split; [done|]; intros _; by repeat constructor)).
Qed.

Lemma create_policy_outcome_witness :
  let s := setPolicyName [72; 82]%N (handleAddPolicy initial) in
  let r := handleCreatePolicy CreateNotOk (Resolved (Some [])) s in
  uploading r.1 = false ∧
  (GetPolicyFolders ∈ r.2 ↔ false = true) ∧
  (Alert "Policy folder created successfully!" ∈ r.2 ↔ false = true) ∧
  showModal r.1 = showModal s ∧
  policyName r.1 = policyName s ∧
  folders r.1 = folders s ∧
  error r.1 = Some "Failed to create policy folder. Please try again.".
Proof.
  apply (create_policy_outcome CreateNotOk (Resolved (Some []))
           (setPolicyName [72; 82]%N (handleAddPolicy initial))).
  vm_compute. discriminate.
Defined.

End PolicyPanelFacts.


(** * switch-env.sh *)

Section SwitchEnvFacts.
Import SwitchEnv.

Lemma current_write (e : Environment) (fs : Files) : current (write e fs) = e.
Proof.
  unfold current, write.
  rewrite lookup_insert_ne by done. rewrite lookup_insert_eq.
  by destruct e; vm_compute.
Qed.

(** X25 (switch-env.sh).  Run with [local] or [production] the script
    writes the same line, the API address of that environment, to [.env]
    and to [.env.local] and touches no other file; run afterwards with
    any other argument or none, it changes nothing and reports the
    environment last switched to.  Any other argument never changes a
    file, and without a [.env] file the report is production. *)
Theorem switch_env_report (arg : string) (fs : Files) :
  let r := switchEnv arg fs in
  match r.2 with
  | Switched e =>
      arg = argument e ∧
      r.1 !! ".env" = Some (envLine e) ∧
      r.1 !! ".env.local" = Some (envLine e) ∧
      (∀ f, f ≠ ".env" → f ≠ ".env.local" → r.1 !! f = fs !! f) ∧
      (∀ other, other ≠ "local" → other ≠ "production" →
                switchEnv other r.1 = (r.1, Usage e))
  | Usage e =>
      arg ≠ "local" ∧ arg ≠ "production" ∧ r.1 = fs ∧
      (fs !! ".env" = None → e = Production)
  end.
Proof.
  assert (Hw : ∀ e,
    write e fs !! ".env" = Some (envLine e) ∧
    write e fs !! ".env.local" = Some (envLine e) ∧
    (∀ f, f ≠ ".env" → f ≠ ".env.local" → write e fs !! f = fs !! f) ∧
    (∀ other, other ≠ "local" → other ≠ "production" →
              switchEnv other (write e fs) = (write e fs, Usage e))).
  { intros e. split_and!.
    - unfold write. rewrite lookup_insert_ne by done. apply lookup_insert_eq.
    - apply lookup_insert_eq.
    - intros f H1 H2. unfold write. by rewrite !lookup_insert_ne.
    - intros other H1 H2. unfold switchEnv.
      rewrite !decide_False by done. by rewrite (current_write e fs). }
  cbn zeta. unfold switchEnv.
  destruct (decide (arg = "local")) as [->|Hl]; [by split; [|apply Hw]|].
  destruct (decide (arg = "production")) as [->|Hp];
    [by split; [|apply Hw]|].
  cbn. split_and!; try done. intros Hnone. unfold current. by rewrite Hnone.
Qed.

End SwitchEnvFacts.


Section PanelFinalityFacts.
Import QuestionnairePanel PanelExamples.

Lemma start_answers (closure : State) (q : Question) (s : State) (k : string) :
  k ≠ question_id q ∨ is_Some (questionAnswers closure !! question_id q) →
  questionAnswers (start closure q s).1.1 !! k = questionAnswers s !! k.
Proof.
  intros Hk. unfold start.
  destruct (get (questionAnswers closure) (question_id q)) as [v|] eqn:E;
    [done|].
  assert (Hown : questionAnswers closure !! question_id q = None).
  { unfold get in E. by destruct (questionAnswers closure !! question_id q). }
  destruct Hk as [Hk|[? Hs]]; [|by rewrite Hown in Hs].
  destruct (existingAnswer q); cbn; [|done].
  by rewrite lookup_insert_ne.
Qed.

Lemma resume_answers (closure : State) (q : Question) (w : World)
    (s : State) (k : string) :
  k ≠ question_id q →
  questionAnswers (resume closure q w s).1 !! k = questionAnswers s !! k.
Proof.
  intros Hk. rewrite resume_eq. unfold afterRetry.
  destruct (usable (resolved (retry_answer w))) as [[? ?]|]; cbn;
    [by rewrite lookup_insert_ne|done].
Qed.

(** No question with an invocation in flight has a stored answer. *)
Lemma in_flight_unanswered (p : Props) (stored : gmap string (Value Answer))
    (u : Panel) :
  reachable p stored u →
  ∀ id, id ∈ inFlight u → questionAnswers (panel_state u) !! id = None.
Proof.
  induction 1 as [|u u' Hr IH Hstep].
  - by intros id ?%elem_of_nil.
  - destruct (marker_invariant p stored u Hr) as [Hnd Hmark].
    destruct Hstep as [q u _ Hq | i w u Hi | p' u | e l u]; intros id;
      [| |by apply IH|by apply IH].
    + unfold click, inFlight, start.
      destruct (get (questionAnswers (panel_state u)) (question_id q))
        as [v|] eqn:E; cbn.
      * intros Hid. by apply IH.
      * assert (Hown : questionAnswers (panel_state u) !! question_id q
                       = None).
        { unfold get in E.
          by destruct (questionAnswers (panel_state u) !! question_id q). }
        destruct (existingAnswer q) as [v|]; cbn.
        -- intros Hid. rewrite lookup_insert_ne; [by apply IH|].
           intros Heq. apply Hq, Hmark. by rewrite Heq.
        -- rewrite fmap_app. intros [Hid|Hid]%elem_of_app; [by apply IH|].
           apply list_elem_of_singleton in Hid. by rewrite Hid.
    + unfold settle, inFlight.
      destruct (flights u !! i) as [[closure q]|] eqn:Ei; [|by apply IH].
      pose proof (resume_answers closure q w (panel_state u) id) as Hs.
      destruct (resume closure q w (panel_state u)) as [s1 calls].
      cbn in Hs |- *. rewrite list_fmap_delete. intros Hid.
      assert (Hi' : inFlight u !! i = Some (question_id q))
        by (unfold inFlight; by rewrite list_lookup_fmap, Ei).
      apply (elem_of_delete_NoDup _ i (question_id q) id Hnd Hi') in Hid
        as [Hid Hne].
      rewrite Hs by done. by apply IH.
Qed.

(** X26 (handleAnswerQuestion through the panel).  In the panel as its
    buttons drive it, an answer once stored for a question is final: no
    click, no returning request, no new props and no other handler
    replaces or removes it.  An invocation stores an answer only for a
    question that has none, and while it is in flight no other
    invocation can store one for the same question. *)
Theorem stored_answers_are_final (p : Props)
    (stored : gmap string (Value Answer)) (u u' : Panel) (k : string)
    (a : Value Answer) :
  reachable p stored u → panel_step u u' →
  questionAnswers (panel_state u) !! k = Some a →
  questionAnswers (panel_state u') !! k = Some a.
Proof.
  intros Hr Hstep Hk.
  pose proof (in_flight_unanswered p stored u Hr) as Hflight.
  destruct Hstep as [q u _ Hq | i w u Hi | p' u | e l u]; [| |done|done].
  - unfold click.
    pose proof (start_answers (panel_state u) q (panel_state u) k) as Hs.
    destruct (start (panel_state u) q (panel_state u))
      as [[s1 calls] goesOn].
    cbn in Hs |- *. rewrite Hs; [done|].
    destruct (decide (k = question_id q)) as [->|Hne]; [|by left].
    right. by eexists.
  - unfold settle.
    destruct (flights u !! i) as [[closure q]|] eqn:Ei; [|done].
    pose proof (resume_answers closure q w (panel_state u) k) as Hs.
    destruct (resume closure q w (panel_state u)) as [s1 calls].
    cbn in Hs |- *. rewrite Hs; [done|]. intros ->.
    assert (Hin : question_id q ∈ inFlight u).
    { unfold inFlight. apply list_elem_of_fmap. exists (closure, q).
      split; [done|]. by eapply list_elem_of_lookup_2. }
    apply Hflight in Hin. congruence.
Qed.

Lemma stored_answers_are_final_witness :
  questionAnswers
    (panel_state (click question1 (mount overlay {[ "q1" := Ref yes90 ]})))
    !! "q1" = Some (Ref yes90).
Proof.
  apply (stored_answers_are_final overlay {[ "q1" := Ref yes90 ]}
           (mount overlay {[ "q1" := Ref yes90 ]})
           (click question1 (mount overlay {[ "q1" := Ref yes90 ]})) "q1"
           (Ref yes90)).
  - apply reachable_mount.
  - apply step_click; [apply list_elem_of_here | apply not_elem_of_empty].
  - reflexivity.
Defined.

End PanelFinalityFacts.
